(** * ALE::Bundle and ALE::Mesh (src/dm/mesh/sieve/Mesh.hh)

    A shallow embedding of the section registries, the element geometry,
    the point location, the boundary-value table with its broadcast, and
    the field setup of [Mesh.hh].

    Conventions.
    - C++ [int] values are [Z].  The arithmetic the modelled code does on
      them is loop counters, the negation of a dof count, the products and
      the arrow counter of [createSquareBoundary], and the conversion of a
      container size, which is written out as [int_of_size].  The others are
      taken in [Z], which is the [int] result as long as it lies within
      [[-2^31, 2^31)]; outside, C++ leaves the operation undefined, and the
      theorems that mention such a result assume the range.
    - C++ [double] values are IEEE 754 binary64 numbers, Rocq's primitive
      [float], with round-to-nearest operations and no contraction.
    - [std::map] is a [gmap]; its iteration order is the ascending order of
      the keys and is produced by [map_entries].
    - [Obj<T>] is a reference-counted pointer: an [Obj] is null or an
      address in the [heap] of the process.  The counts are not modelled and
      the heap never loses an object, so it speaks for the objects that some
      handle holds.
    - A C array handed over by pointer is a [list float]; a null pointer is
      [None].  An access past the end of an array has no defined behaviour
      in C++ and is [Undefined] here: the geometry routines and the point
      location first compare the indices they use with the lengths of the
      arrays they are given ([in_bounds]), and only then read with [!!!]
      and write with [<[i:=x]>].
    - The classes declared in other headers (the topology, the section
      storage, the parallel object) appear through what [Mesh.hh] asks of
      them: a topology is a record of query results, a real section is the
      values it holds and the calls made on it, and reading a section goes
      through the [SectionReader] interface. *)

From Stdlib Require Import ZArith List Floats.
From stdpp Require Import base option list gmap strings sorting.

Local Open Scope Z_scope.

(** ** Outcomes of a call *)

(** [ALE::Exception], with its message. *)
Inductive Exception := ALE_Exception (msg : string).

(** A call returns, throws, or has no defined behaviour (a null handle is
    dereferenced, or a broadcast has no matching message). *)
Inductive outcome (A : Type) :=
| Ok (a : A)
| Throw (e : Exception)
| Undefined.
Arguments Ok {A} a.
Arguments Throw {A} e.
Arguments Undefined {A}.

(** ** Topology, sections and handles *)

Definition point_type := Z.
Definition patch_type := Z.

(** The queries of [ALE::New::Topology] that [Mesh.hh] uses.  The class is
    declared in another header; a topology is given by the answers to its
    queries. *)
Record Topology := mkTopology {
  heightStratum : patch_type → Z → list point_type;
  getLabelStratum : patch_type → string → Z → list point_type;
  depth : patch_type → point_type → Z;
}.

(** The calls [Mesh.hh] makes on a real section. *)
Inductive SectionCall :=
| SetFiberDimensionByDepth (patch : patch_type) (d : Z) (dim : Z)
| SetFiberDimension (patch : patch_type) (p : point_type) (dim : Z)
| Allocate
| UpdateBC (patch : patch_type) (p : point_type) (value : float).

(** A section object: the values it held before the calls recorded here, and
    those calls, oldest first.  [allocate] and [updateBC] write the storage
    of the section: what a section holds after its calls is read through
    [SectionReader] from both fields, and [sec_values] alone says nothing
    about it. *)
Record SectionObject := mkSection {
  sec_values : patch_type → point_type → list float;
  sec_calls : list SectionCall;
}.

(** [ALE::New::Section] is declared in another header; what [restrict] and
    [restrictPoint] read from a section object is the interface below. *)
Class SectionReader := {
  restrict : SectionObject → patch_type → point_type → list float;
  restrictPoint : SectionObject → patch_type → point_type → list float;
}.

(** [new real_section_type(topology)] and its int and pair siblings. *)
Definition new_section : SectionObject :=
  {| sec_values := λ _ _, []; sec_calls := [] |}.

Inductive HeapObject :=
| RealSection (s : SectionObject)
| IntSection
| PairSection.

Inductive Obj := ObjNull | ObjRef (a : nat).

(** [std::map::operator[]]: the entry under [k], value-initialised and
    inserted first when it is absent. *)
Definition subscript `{Countable K} {V : Type} (dflt : V) (k : K) (m : gmap K V)
    : V * gmap K V :=
  match m !! k with
  | Some v => (v, m)
  | None => (dflt, <[k:=dflt]> m)
  end.

(** ** State of one process *)

Record Bundle := mkBundle {
  _debug : Z;
  _commRank : Z;
  _topology : Topology;
  _distributed : bool;
  _realSections : gmap string Obj;
  _intSections : gmap string Obj;
  _pairSections : gmap string Obj;
}.

Record Discretization := mkDiscretization {
  _dim2dof : gmap Z Z;
  _dim2class : gmap Z Z;
}.

(** [_func] is a function pointer that the constructor leaves unset. *)
Record BoundaryCondition := mkBoundaryCondition {
  _labelName : string;
  _func : option (list float → float);
}.

Record bc_value_type := mkBcValue { rho : float; u : float; v : float; p : float }.

Record Mesh := mkMesh {
  base : Bundle;
  _dim : Z;
  _bcValues : gmap Z bc_value_type;
  _discretization : option Discretization;
  _boundaryCondition : option BoundaryCondition;
}.

(** A buffer passed to [MPI_Bcast]. *)
Inductive BcastMsg :=
| MsgInt (n : Z)
| MsgDouble4 (r : bc_value_type).

Record World := mkWorld {
  mesh : Mesh;
  heap : gmap nat HeapObject;
  cout : list string;
  inbox : list BcastMsg;
  outbox : list BcastMsg;
}.

Definition set_realSections (f : gmap string Obj → gmap string Obj) (b : Bundle) : Bundle :=
  {| _debug := _debug b; _commRank := _commRank b; _topology := _topology b;
     _distributed := _distributed b; _realSections := f (_realSections b);
     _intSections := _intSections b; _pairSections := _pairSections b |}.
Definition set_intSections (f : gmap string Obj → gmap string Obj) (b : Bundle) : Bundle :=
  {| _debug := _debug b; _commRank := _commRank b; _topology := _topology b;
     _distributed := _distributed b; _realSections := _realSections b;
     _intSections := f (_intSections b); _pairSections := _pairSections b |}.
Definition set_pairSections (f : gmap string Obj → gmap string Obj) (b : Bundle) : Bundle :=
  {| _debug := _debug b; _commRank := _commRank b; _topology := _topology b;
     _distributed := _distributed b; _realSections := _realSections b;
     _intSections := _intSections b; _pairSections := f (_pairSections b) |}.

Definition set_base (f : Bundle → Bundle) (m : Mesh) : Mesh :=
  {| base := f (base m); _dim := _dim m; _bcValues := _bcValues m;
     _discretization := _discretization m; _boundaryCondition := _boundaryCondition m |}.
Definition set_bcValues (f : gmap Z bc_value_type → gmap Z bc_value_type) (m : Mesh) : Mesh :=
  {| base := base m; _dim := _dim m; _bcValues := f (_bcValues m);
     _discretization := _discretization m; _boundaryCondition := _boundaryCondition m |}.
Definition set_discretization (f : option Discretization → option Discretization) (m : Mesh) : Mesh :=
  {| base := base m; _dim := _dim m; _bcValues := _bcValues m;
     _discretization := f (_discretization m); _boundaryCondition := _boundaryCondition m |}.

Definition set_mesh (f : Mesh → Mesh) (w : World) : World :=
  {| mesh := f (mesh w); heap := heap w; cout := cout w; inbox := inbox w; outbox := outbox w |}.
Definition set_heap (f : gmap nat HeapObject → gmap nat HeapObject) (w : World) : World :=
  {| mesh := mesh w; heap := f (heap w); cout := cout w; inbox := inbox w; outbox := outbox w |}.
Definition set_cout (f : list string → list string) (w : World) : World :=
  {| mesh := mesh w; heap := heap w; cout := f (cout w); inbox := inbox w; outbox := outbox w |}.
Definition set_inbox (f : list BcastMsg → list BcastMsg) (w : World) : World :=
  {| mesh := mesh w; heap := heap w; cout := cout w; inbox := f (inbox w); outbox := outbox w |}.
Definition set_outbox (f : list BcastMsg → list BcastMsg) (w : World) : World :=
  {| mesh := mesh w; heap := heap w; cout := cout w; inbox := inbox w; outbox := f (outbox w) |}.

(** ** The monad of member functions *)

Definition M (A : Type) : Type := World → outcome (A * World).

#[global] Instance M_ret : MRet M := λ A a w, Ok (a, w).
#[global] Instance M_bind : MBind M := λ A B f m w,
  match m w with
  | Ok (a, w') => f a w'
  | Throw e => Throw e
  | Undefined => Undefined
  end.

Definition get : M World := λ w, Ok (w, w).
Definition gets {A} (f : World → A) : M A := λ w, Ok (f w, w).
Definition modify (f : World → World) : M unit := λ w, Ok (tt, f w).
Definition throw {A} (msg : string) : M A := λ _, Throw (ALE_Exception msg).
Definition undefined {A} : M A := λ _, Undefined.

(** [new T(...)]: a fresh address holding the object. *)
Definition new (o : HeapObject) : M Obj := λ w,
  let a := fresh (dom (heap w)) in
  Ok (ObjRef a, set_heap (insert a o) w).

(** [std::cout << line << std::endl]. *)
Definition print_line (line : string) : M unit := modify (set_cout (λ out, out ++ [line])).

(** ** Bundle: the section registries *)

Definition hasRealSection (name : string) : M bool :=
  gets (λ w, bool_decide (is_Some (_realSections (base (mesh w)) !! name))).

Definition getRealSection (name : string) : M Obj :=
  found ← hasRealSection name;
  (if negb found then
     section ← new (RealSection new_section);
     debug ← gets (λ w, _debug (base (mesh w)));
     (if bool_decide (debug ≠ 0) then print_line ("Creating new real section: " +:+ name)
      else mret tt);;
     modify (set_mesh (set_base (set_realSections (insert name section))))
   else mret tt);;
  w ← get;
  let '(section, sections) := subscript ObjNull name (_realSections (base (mesh w))) in
  modify (set_mesh (set_base (set_realSections (λ _, sections))));;
  mret section.

(** [this->_realSections[name] = section].  The assignment drops the handle
    that was stored under the name, and an object that no handle holds any
    more is destroyed.  Reference counts are not modelled: the heap keeps
    every object, so what it says of an object holds as long as some handle
    holds that object, and nothing is to be read from it about an object
    that no handle holds. *)
Definition setRealSection (name : string) (section : Obj) : M unit :=
  modify (set_mesh (set_base (set_realSections (insert name section)))).

Definition hasIntSection (name : string) : M bool :=
  gets (λ w, bool_decide (is_Some (_intSections (base (mesh w)) !! name))).

Definition getIntSection (name : string) : M Obj :=
  found ← hasIntSection name;
  (if negb found then
     section ← new IntSection;
     debug ← gets (λ w, _debug (base (mesh w)));
     (if bool_decide (debug ≠ 0) then print_line ("Creating new int section: " +:+ name)
      else mret tt);;
     modify (set_mesh (set_base (set_intSections (insert name section))))
   else mret tt);;
  w ← get;
  let '(section, sections) := subscript ObjNull name (_intSections (base (mesh w))) in
  modify (set_mesh (set_base (set_intSections (λ _, sections))));;
  mret section.

Definition hasPairSection (name : string) : M bool :=
  gets (λ w, bool_decide (is_Some (_pairSections (base (mesh w)) !! name))).

Definition getPairSection (name : string) : M Obj :=
  found ← hasPairSection name;
  (if negb found then
     section ← new PairSection;
     debug ← gets (λ w, _debug (base (mesh w)));
     (if bool_decide (debug ≠ 0) then print_line ("Creating new pair section: " +:+ name)
      else mret tt);;
     modify (set_mesh (set_base (set_pairSections (insert name section))))
   else mret tt);;
  w ← get;
  let '(section, sections) := subscript ObjNull name (_pairSections (base (mesh w))) in
  modify (set_mesh (set_base (set_pairSections (λ _, sections))));;
  mret section.

(** [obj->...] on a real section handle: the object behind it. *)
Definition deref_real (o : Obj) : M SectionObject := λ w,
  match o with
  | ObjRef a =>
      match heap w !! a with
      | Some (RealSection s) => Ok (s, w)
      | _ => Undefined
      end
  | ObjNull => Undefined
  end.

(** A mutating member call on a real section handle, recorded after the
    object's earlier calls.  The section class is declared in another header:
    what the calls do to the section is read off the record with
    [section_after], and [sec_values] stays what it was before them. *)
Definition call_section (o : Obj) (c : SectionCall) : M unit := λ w,
  match o with
  | ObjRef a =>
      match heap w !! a with
      | Some (RealSection s) =>
          let s' := {| sec_values := sec_values s; sec_calls := sec_calls s ++ [c] |} in
          Ok (tt, set_heap (insert a (RealSection s')) w)
      | _ => Undefined
      end
  | ObjNull => Undefined
  end.

(** ** Mesh geometry *)

#[global] Instance float_inhabited : Inhabited float := populate 0%float.

(** The output arguments [v0], [J], [invJ] (null or an array) and [detJ]. *)
Record GeometryBuffers := mkGeometry {
  v0 : option (list float);
  J : option (list float);
  invJ : option (list float);
  detJ : float;
}.

(** [for d < dim: v0[d] = coords[d]] *)
Definition fill_v0 (dim : nat) (coords : list float) (buf : list float) : list float :=
  foldl (λ b d, <[d := coords !!! d]> b) buf (seq 0 dim).

(** [for d < dim: for f < dim: J[d*dim+f] = 0.5*(coords[(f+1)*dim+d] - coords[0*dim+d])] *)
Definition fill_J (dim : nat) (coords : list float) (buf : list float) : list float :=
  foldl (λ b d,
    foldl (λ b f,
      <[(d*dim+f)%nat :=
          (0.5 * (coords !!! ((f+1)*dim+d)%nat - coords !!! (0*dim+d)%nat))%float]> b)
      b (seq 0 dim))
    buf (seq 0 dim).

Definition det2 (j : list float) : float :=
  (j !!! 0%nat * j !!! 3%nat - j !!! 1%nat * j !!! 2%nat)%float.

Definition inverse2 (j : list float) (det : float) (buf : list float) : list float :=
  let invDet := (1.0 / det)%float in
  let b := <[0%nat := (invDet * j !!! 3%nat)%float]> buf in
  let b := <[1%nat := (- invDet * j !!! 1%nat)%float]> b in
  let b := <[2%nat := (- invDet * j !!! 2%nat)%float]> b in
  <[3%nat := (invDet * j !!! 0%nat)%float]> b.

Definition det3 (j : list float) : float :=
  (j !!! 0%nat * (j !!! 4%nat * j !!! 8%nat - j !!! 5%nat * j !!! 7%nat) +
   j !!! 1%nat * (j !!! 5%nat * j !!! 6%nat - j !!! 3%nat * j !!! 8%nat) +
   j !!! 2%nat * (j !!! 3%nat * j !!! 7%nat - j !!! 4%nat * j !!! 6%nat))%float.

Definition inverse3 (j : list float) (det : float) (buf : list float) : list float :=
  let invDet := (1.0 / det)%float in
  let b := <[0%nat := (invDet * (j !!! 4%nat * j !!! 8%nat - j !!! 5%nat * j !!! 7%nat))%float]> buf in
  let b := <[1%nat := (invDet * (j !!! 5%nat * j !!! 6%nat - j !!! 3%nat * j !!! 8%nat))%float]> b in
  let b := <[2%nat := (invDet * (j !!! 3%nat * j !!! 7%nat - j !!! 4%nat * j !!! 6%nat))%float]> b in
  let b := <[3%nat := (invDet * (j !!! 1%nat * j !!! 8%nat - j !!! 2%nat * j !!! 7%nat))%float]> b in
  let b := <[4%nat := (invDet * (j !!! 2%nat * j !!! 6%nat - j !!! 0%nat * j !!! 8%nat))%float]> b in
  let b := <[5%nat := (invDet * (j !!! 0%nat * j !!! 7%nat - j !!! 1%nat * j !!! 6%nat))%float]> b in
  let b := <[6%nat := (invDet * (j !!! 1%nat * j !!! 5%nat - j !!! 2%nat * j !!! 4%nat))%float]> b in
  let b := <[7%nat := (invDet * (j !!! 2%nat * j !!! 3%nat - j !!! 0%nat * j !!! 5%nat))%float]> b in
  <[8%nat := (invDet * (j !!! 0%nat * j !!! 4%nat - j !!! 1%nat * j !!! 3%nat))%float]> b.

(** The indices the three blocks use lie within the arrays: the first block
    (under [if (v0)]) reads [coords[0 .. dim)] and writes [v0[0 .. dim)]; the
    second (under [if (J)]) reads [coords[0 .. dim*(dim+1))] and writes
    [J[0 .. dim*dim)]; the third (under [if (invJ)]) writes
    [invJ[0 .. dim*dim)]. *)
Definition in_bounds (dim : nat) (coords : list float) (g : GeometryBuffers) : bool :=
  match v0 g with
  | Some buf => (dim <=? length coords)%nat && (dim <=? length buf)%nat
  | None => true
  end &&
  match J g with
  | Some buf => (dim * (dim + 1) <=? length coords)%nat && (dim * dim <=? length buf)%nat
  | None => true
  end &&
  match invJ g with
  | Some buf => (dim * dim <=? length buf)%nat
  | None => true
  end.

(** The body shared by [computeTriangleGeometry] ([dim = 2]) and
    [computeTetrahedronGeometry] ([dim = 3]) once [coords] is read: the three
    guarded blocks, in order.  With [J] null and [invJ] not, the third block
    reads through the null [J]; an index past the end of [coords] or of a
    buffer is an access out of bounds. *)
Definition simplex_geometry (dim : nat) (det : list float → float)
    (inverse : list float → float → list float → list float)
    (coords : list float) (g : GeometryBuffers) : outcome GeometryBuffers :=
  if negb (in_bounds dim coords g) then Undefined else
  let v0' := fill_v0 dim coords <$> v0 g in
  let J' := fill_J dim coords <$> J g in
  let detJ' := match J' with Some j => det j | None => detJ g end in
  match invJ g, J' with
  | Some buf, Some j =>
      Ok {| v0 := v0'; J := J'; invJ := Some (inverse j detJ' buf); detJ := detJ' |}
  | Some _, None => Undefined
  | None, _ => Ok {| v0 := v0'; J := J'; invJ := None; detJ := detJ' |}
  end.

Definition lift {A} (o : outcome A) : M A := λ w,
  match o with
  | Ok a => Ok (a, w)
  | Throw e => Throw e
  | Undefined => Undefined
  end.

Section Reader.
Context `{SectionReader}.

Definition computeTriangleGeometry (coordinates : Obj) (e : point_type) (g : GeometryBuffers)
    : M GeometryBuffers :=
  let patch := 0 in
  section ← deref_real coordinates;
  let coords := restrict section patch e in
  lift (simplex_geometry 2 det2 inverse2 coords g).

Definition computeTetrahedronGeometry (coordinates : Obj) (e : point_type) (g : GeometryBuffers)
    : M GeometryBuffers :=
  let patch := 0 in
  section ← deref_real coordinates;
  let coords := restrict section patch e in
  lift (simplex_geometry 3 det3 inverse3 coords g).

Definition computeElementGeometry (coordinates : Obj) (e : point_type) (g : GeometryBuffers)
    : M GeometryBuffers :=
  dim ← gets (λ w, _dim (mesh w));
  if bool_decide (dim = 2) then computeTriangleGeometry coordinates e g
  else if bool_decide (dim = 3) then computeTetrahedronGeometry coordinates e g
  else throw "Unsupport dimension for element geometry computation".

(** The test of [locatePoint_2D] on the buffers of one cell:
    [(xi >= 0.0) && (eta >= 0.0) && (xi + eta <= 1.0)]. *)
Definition xi_2D (invJ v0 point : list float) : float :=
  (invJ !!! 0%nat * (point !!! 0%nat - v0 !!! 0%nat) +
   invJ !!! 1%nat * (point !!! 1%nat - v0 !!! 1%nat))%float.
Definition eta_2D (invJ v0 point : list float) : float :=
  (invJ !!! 2%nat * (point !!! 0%nat - v0 !!! 0%nat) +
   invJ !!! 3%nat * (point !!! 1%nat - v0 !!! 1%nat))%float.
Definition inside_2D (invJ v0 point : list float) : bool :=
  let xi := xi_2D invJ v0 point in
  let eta := eta_2D invJ v0 point in
  (0.0 <=? xi)%float && (0.0 <=? eta)%float && (xi + eta <=? 1.0)%float.

(** The test of [locatePoint_3D]. *)
Definition xi_3D (invJ v0 point : list float) : float :=
  (invJ !!! 0%nat * (point !!! 0%nat - v0 !!! 0%nat) +
   invJ !!! 1%nat * (point !!! 1%nat - v0 !!! 1%nat) +
   invJ !!! 2%nat * (point !!! 2%nat - v0 !!! 2%nat))%float.
Definition eta_3D (invJ v0 point : list float) : float :=
  (invJ !!! 3%nat * (point !!! 0%nat - v0 !!! 0%nat) +
   invJ !!! 4%nat * (point !!! 1%nat - v0 !!! 1%nat) +
   invJ !!! 5%nat * (point !!! 2%nat - v0 !!! 2%nat))%float.
Definition zeta_3D (invJ v0 point : list float) : float :=
  (invJ !!! 6%nat * (point !!! 0%nat - v0 !!! 0%nat) +
   invJ !!! 7%nat * (point !!! 1%nat - v0 !!! 1%nat) +
   invJ !!! 8%nat * (point !!! 2%nat - v0 !!! 2%nat))%float.
Definition inside_3D (invJ v0 point : list float) : bool :=
  let xi := xi_3D invJ v0 point in
  let eta := eta_3D invJ v0 point in
  let zeta := zeta_3D invJ v0 point in
  (0.0 <=? xi)%float && (0.0 <=? eta)%float && (0.0 <=? zeta)%float &&
  (xi + eta + zeta <=? 1.0)%float.

(** The loop over the cells shared by [locatePoint_2D] and [locatePoint_3D];
    the buffers are locals of the caller and are reused by every pass.  Each
    pass reads [point[0 .. embedDim)] after the geometry of the cell is
    computed; a shorter [point] is read out of bounds. *)
Fixpoint locate_loop (embedDim : nat) (inside : list float → list float → list float → bool)
    (coordinates : Obj) (point : list float) (g : GeometryBuffers) (cells : list point_type)
    : M point_type :=
  match cells with
  | [] => throw "Could not locate point"
  | c :: rest =>
      g' ← computeElementGeometry coordinates c g;
      match invJ g', v0 g' with
      | Some invJ, Some v0 =>
          if (length point <? embedDim)%nat then undefined
          else if inside invJ v0 point then mret c
          else locate_loop embedDim inside coordinates point g' rest
      | _, _ => undefined
      end
  end.

(** Local arrays [double a[n]]; their first contents are indeterminate and
    are written before they are read. *)
Definition local_array (n : nat) : list float := replicate n 0%float.

Definition locatePoint_2D (patch : patch_type) (point : list float) : M point_type :=
  coordinates ← getRealSection "coordinates";
  cells ← gets (λ w, heightStratum (_topology (base (mesh w))) patch 0);
  let g := {| v0 := Some (local_array 2); J := Some (local_array 4);
              invJ := Some (local_array 4); detJ := 0%float |} in
  locate_loop 2 inside_2D coordinates point g cells.

Definition locatePoint_3D (patch : patch_type) (point : list float) : M point_type :=
  coordinates ← getRealSection "coordinates";
  cells ← gets (λ w, heightStratum (_topology (base (mesh w))) patch 0);
  let g := {| v0 := Some (local_array 3); J := Some (local_array 9);
              invJ := Some (local_array 9); detJ := 0%float |} in
  locate_loop 3 inside_3D coordinates point g cells.

Definition locatePoint (patch : patch_type) (point : list float) : M point_type :=
  dim ← gets (λ w, _dim (mesh w));
  if bool_decide (dim = 2) then locatePoint_2D patch point
  else if bool_decide (dim = 3) then locatePoint_3D patch point
  else throw "No point location for mesh dimension".

End Reader.

(** ** Boundary values (PCICE) *)

(** A value-initialised [bc_value_type]. *)
Definition bc_zero : bc_value_type :=
  {| rho := 0%float; u := 0%float; v := 0%float; p := 0%float |}.

Definition getBCValue (bcFunc : Z) : M bc_value_type :=
  w ← get;
  let '(value, values) := subscript bc_zero bcFunc (_bcValues (mesh w)) in
  modify (set_mesh (set_bcValues (λ _, values)));;
  mret value.

Definition setBCValue (bcFunc : Z) (value : bc_value_type) : M unit :=
  modify (set_mesh (set_bcValues (insert bcFunc value))).

(** The conversion of a [size_t] to [int]. *)
Definition int_of_size (n : nat) : Z :=
  let r := Z.of_nat n mod 2 ^ 32 in
  if r <? 2 ^ 31 then r else r - 2 ^ 32.

Definition entry_le {V : Type} (x y : Z * V) : Prop := x.1 ≤ y.1.
#[global] Instance entry_le_dec {V : Type} (x y : Z * V) : Decision (entry_le x y) :=
  Z_le_dec x.1 y.1.

(** The entries of a [std::map<int, V>] as its iterator visits them. *)
Definition map_entries {V : Type} (m : gmap Z V) : list (Z * V) :=
  merge_sort entry_le (map_to_list m).

(** [MPI_Bcast(&buf, 1, MPI_INT, 0, comm)]: rank 0 sends its buffer and keeps
    it, the others receive into theirs. *)
Definition MPI_Bcast_int (buf : Z) : M Z :=
  w ← get;
  if bool_decide (_commRank (base (mesh w)) = 0) then
    modify (set_outbox (λ out, out ++ [MsgInt buf]));; mret buf
  else
    match inbox w with
    | MsgInt n :: rest => modify (set_inbox (λ _, rest));; mret n
    | _ => undefined
    end.

(** [MPI_Bcast(&buf, 4, MPI_DOUBLE, 0, comm)] *)
Definition MPI_Bcast_double4 (buf : bc_value_type) : M bc_value_type :=
  w ← get;
  if bool_decide (_commRank (base (mesh w)) = 0) then
    modify (set_outbox (λ out, out ++ [MsgDouble4 buf]));; mret buf
  else
    match inbox w with
    | MsgDouble4 r :: rest => modify (set_inbox (λ _, rest));; mret r
    | _ => undefined
    end.

(** [for x in l: body x] *)
Fixpoint for_each {A : Type} (l : list A) (body : A → M unit) : M unit :=
  match l with
  | [] => mret tt
  | x :: rest => body x;; for_each rest body
  end.

Definition distributeBCValues : M unit :=
  w ← get;
  size ← MPI_Bcast_int (int_of_size (size (_bcValues (mesh w))));
  if bool_decide (_commRank (base (mesh w)) ≠ 0) then
    for_each (seqZ 0 size) (λ bc,
      funcNum ← MPI_Bcast_int 0;
      funcVal ← MPI_Bcast_double4 bc_zero;
      modify (set_mesh (set_bcValues (insert funcNum funcVal))))
  else
    for_each (map_entries (_bcValues (mesh w))) (λ '(funcNum, funcVal),
      MPI_Bcast_int funcNum;;
      MPI_Bcast_double4 funcVal;;
      mret tt).

(** ** Discretization and field setup *)

(** [this->_discretization->getNumDof(dim)], that is [_dim2dof[dim]]. *)
Definition getNumDof (dim : Z) : M Z :=
  w ← get;
  match _discretization (mesh w) with
  | Some disc =>
      let '(numDof, dim2dof) := subscript 0 dim (_dim2dof disc) in
      modify (set_mesh (set_discretization (λ _,
        Some {| _dim2dof := dim2dof; _dim2class := _dim2class disc |})));;
      mret numDof
  | None => undefined
  end.

(** [this->_boundaryCondition->getLabelName()] *)
Definition getLabelName : M string :=
  w ← get;
  match _boundaryCondition (mesh w) with
  | Some bc => mret (_labelName bc)
  | None => undefined
  end.

(** [this->_boundaryCondition->evaluate(coords)] *)
Definition evaluate (coords : list float) : M float :=
  w ← get;
  match _boundaryCondition (mesh w) with
  | Some bc =>
      match _func bc with
      | Some func => mret (func coords)
      | None => undefined
      end
  | None => undefined
  end.

Section Setup.
Context `{SectionReader}.

(** [setupField(s)].  The bound of the first loop is [d < _dim].  The
    negation [-getNumDof(...)] is taken in [Z], which is the [int] negation
    for every count but [-2^31], where C++ leaves it undefined. *)
Definition setupField (s : Obj) : M unit :=
  name ← getLabelName;
  let patch := 0 in
  dim ← gets (λ w, _dim (mesh w));
  for_each (seqZ 0 dim) (λ d,
    numDof ← getNumDof d;
    call_section s (SetFiberDimensionByDepth patch d numDof));;
  (if negb (String.eqb name "") then
     boundary ← gets (λ w, getLabelStratum (_topology (base (mesh w))) patch name 1);
     for_each boundary (λ e,
       depth_e ← gets (λ w, depth (_topology (base (mesh w))) patch e);
       numDof ← getNumDof depth_e;
       call_section s (SetFiberDimension patch e (- numDof)))
   else mret tt);;
  call_section s Allocate;;
  (if negb (String.eqb name "") then
     coordinates ← getRealSection "coordinates";
     boundary ← gets (λ w, getLabelStratum (_topology (base (mesh w))) patch name 1);
     for_each boundary (λ e,
       section ← deref_real coordinates;
       let coords := restrictPoint section patch e in
       value ← evaluate coords;
       call_section s (UpdateBC patch e value))
   else mret tt).

End Setup.

(** ** Two processes *)

(** A run of a collective member function on two processes: what rank 0
    broadcasts is what rank 1 receives, in order. *)
Definition run2 (prog : M unit) (root other : World) : outcome (World * World) :=
  match prog (set_outbox (λ _, []) root) with
  | Ok (_, root') =>
      match prog (set_inbox (λ _, outbox root') other) with
      | Ok (_, other') => Ok (root', other')
      | Throw e => Throw e
      | Undefined => Undefined
      end
  | Throw e => Throw e
  | Undefined => Undefined
  end.

(** ** The geometry of a cell, from its coordinates *)

(** The origin vertex, the Jacobian and the inverse Jacobian that the
    geometry routines leave in arrays of 2 and 4 (triangle) or 3 and 9
    (tetrahedron) entries. *)
Definition v0_2D (coords : list float) : list float :=
  [coords !!! 0%nat; coords !!! 1%nat].
Definition J_2D (coords : list float) : list float :=
  [(0.5 * (coords !!! 2%nat - coords !!! 0%nat))%float;
   (0.5 * (coords !!! 4%nat - coords !!! 0%nat))%float;
   (0.5 * (coords !!! 3%nat - coords !!! 1%nat))%float;
   (0.5 * (coords !!! 5%nat - coords !!! 1%nat))%float].
Definition invJ_2D (coords : list float) : list float :=
  inverse2 (J_2D coords) (det2 (J_2D coords)) (local_array 4).

Definition v0_3D (coords : list float) : list float :=
  [coords !!! 0%nat; coords !!! 1%nat; coords !!! 2%nat].
Definition J_3D (coords : list float) : list float :=
  [(0.5 * (coords !!! 3%nat - coords !!! 0%nat))%float;
   (0.5 * (coords !!! 6%nat - coords !!! 0%nat))%float;
   (0.5 * (coords !!! 9%nat - coords !!! 0%nat))%float;
   (0.5 * (coords !!! 4%nat - coords !!! 1%nat))%float;
   (0.5 * (coords !!! 7%nat - coords !!! 1%nat))%float;
   (0.5 * (coords !!! 10%nat - coords !!! 1%nat))%float;
   (0.5 * (coords !!! 5%nat - coords !!! 2%nat))%float;
   (0.5 * (coords !!! 8%nat - coords !!! 2%nat))%float;
   (0.5 * (coords !!! 11%nat - coords !!! 2%nat))%float].
Definition invJ_3D (coords : list float) : list float :=
  inverse3 (J_3D coords) (det3 (J_3D coords)) (local_array 9).

(** The test [locatePoint] makes on a cell with the coordinates [coords]:
    the numbers [xi], [eta] (and [zeta]) it computes from the arrays [invJ]
    and [v0] that the geometry routine leaves for the cell are each [>= 0]
    and sum to [<= 1].  This is the test of the code: for a tetrahedron the
    array [invJ] is not the inverse of [J]. *)
Definition locate_test (dim : Z) (coords point : list float) : Prop :=
  if bool_decide (dim = 2) then
    let xi := xi_2D (invJ_2D coords) (v0_2D coords) point in
    let eta := eta_2D (invJ_2D coords) (v0_2D coords) point in
    (0.0 <=? xi)%float = true ∧ (0.0 <=? eta)%float = true ∧
    (xi + eta <=? 1.0)%float = true
  else
    let xi := xi_3D (invJ_3D coords) (v0_3D coords) point in
    let eta := eta_3D (invJ_3D coords) (v0_3D coords) point in
    let zeta := zeta_3D (invJ_3D coords) (v0_3D coords) point in
    (0.0 <=? xi)%float = true ∧ (0.0 <=? eta)%float = true ∧
    (0.0 <=? zeta)%float = true ∧ (xi + eta + zeta <=? 1.0)%float = true.

#[global] Instance locate_test_dec dim coords point :
  Decision (locate_test dim coords point).
Proof. unfold locate_test. destruct (bool_decide (dim = 2)); apply _. Defined.

(** What the routines leave in buffers of those sizes. *)
Definition geometry_2D (coords : list float) : GeometryBuffers :=
  {| v0 := Some (v0_2D coords); J := Some (J_2D coords);
     invJ := Some (invJ_2D coords); detJ := det2 (J_2D coords) |}.

Definition geometry_3D (coords : list float) : GeometryBuffers :=
  {| v0 := Some (v0_3D coords); J := Some (J_3D coords);
     invJ := Some (invJ_3D coords); detJ := det3 (J_3D coords) |}.

(** The buffers have the sizes the callers of the geometry routines give
    them. *)
Definition sized_buffers (dim : nat) (g : GeometryBuffers) : Prop :=
  ∃ a b c, v0 g = Some a ∧ J g = Some b ∧ invJ g = Some c ∧
           length a = dim ∧ length b = (dim * dim)%nat ∧ length c = (dim * dim)%nat.

(** ** The unit right triangle *)

(** Modelled from the spec: the incidence structure and the section storage
    are declared in other headers.  An arrow is [(source, target, order)];
    arrows are kept in insertion order; a section restricted to a cell reads
    the values of the cell's vertices in arrow order, and restricted to a
    point reads the values stored at that point.  The reader below is for
    sections on which no call is recorded, such as the coordinates of the
    meshes that follow. *)
Record Arrow := mkArrow { source : point_type; target : point_type; order : Z }.

Definition cone (arrows : list Arrow) (q : point_type) : list point_type :=
  source <$> filter (λ a, target a = q) arrows.

Definition closure_reader (arrows : list Arrow) : SectionReader :=
  {| restrict s patch e := concat (sec_values s patch <$> cone arrows e);
     restrictPoint s patch e := sec_values s patch e |}.

(** Cell 0 with the vertices 1, 2, 3 at (0,0), (1,0), (0,1). *)
Definition triangle_arrows : list Arrow :=
  [mkArrow 1 0 0; mkArrow 2 0 1; mkArrow 3 0 2].

Definition triangle_coordinates : SectionObject :=
  {| sec_values := λ _ q,
       if bool_decide (q = 1) then [0.0; 0.0]%float
       else if bool_decide (q = 2) then [1.0; 0.0]%float
       else if bool_decide (q = 3) then [0.0; 1.0]%float
       else [];
     sec_calls := [] |}.

Definition triangle_topology : Topology :=
  {| heightStratum := λ _ h, if bool_decide (h = 0) then [0] else
                             if bool_decide (h = 1) then [1; 2; 3] else [];
     getLabelStratum := λ _ _ _, [];
     depth := λ _ q, if bool_decide (q = 0) then 1 else 0 |}.

Definition simplex_world (dim : Z) (topology : Topology) (coordinates : SectionObject)
    : World :=
  {| mesh := {| base := {| _debug := 0; _commRank := 0; _topology := topology;
                           _distributed := false;
                           _realSections := {["coordinates" := ObjRef 0%nat]};
                           _intSections := ∅; _pairSections := ∅ |};
                _dim := dim; _bcValues := ∅;
                _discretization := Some {| _dim2dof := ∅; _dim2class := ∅ |};
                _boundaryCondition := Some {| _labelName := ""; _func := None |} |};
     heap := {[0%nat := RealSection coordinates]};
     cout := []; inbox := []; outbox := [] |}.

Definition triangle_world : World := simplex_world 2 triangle_topology triangle_coordinates.

(** Buffers as [locatePoint_2D] declares them. *)
Definition buffers_2D : GeometryBuffers :=
  {| v0 := Some (local_array 2); J := Some (local_array 4);
     invJ := Some (local_array 4); detJ := 0%float |}.
Definition buffers_3D : GeometryBuffers :=
  {| v0 := Some (local_array 3); J := Some (local_array 9);
     invJ := Some (local_array 9); detJ := 0%float |}.

(** A triangle whose three vertices coincide at the origin. *)
Definition degenerate_coordinates : SectionObject :=
  {| sec_values := λ _ q, [0.0; 0.0]%float; sec_calls := [] |}.

(** ** The unit tetrahedron *)

(** Cell 0 with the vertices 1, 2, 3, 4 at (0,0,0), (1,0,0), (0,1,0),
    (0,0,1). *)
Definition tetrahedron_arrows : list Arrow :=
  [mkArrow 1 0 0; mkArrow 2 0 1; mkArrow 3 0 2; mkArrow 4 0 3].

Definition tetrahedron_coordinates : SectionObject :=
  {| sec_values := λ _ q,
       if bool_decide (q = 1) then [0.0; 0.0; 0.0]%float
       else if bool_decide (q = 2) then [1.0; 0.0; 0.0]%float
       else if bool_decide (q = 3) then [0.0; 1.0; 0.0]%float
       else if bool_decide (q = 4) then [0.0; 0.0; 1.0]%float
       else [];
     sec_calls := [] |}.

Definition tetrahedron_topology : Topology :=
  {| heightStratum := λ _ h, if bool_decide (h = 0) then [0] else
                             if bool_decide (h = 1) then [1; 2; 3; 4] else [];
     getLabelStratum := λ _ _ _, [];
     depth := λ _ q, if bool_decide (q = 0) then 1 else 0 |}.

Definition tetrahedron_world : World :=
  simplex_world 3 tetrahedron_topology tetrahedron_coordinates.




(** ** Containment by reference coordinates *)

(** The product of two 3x3 matrices stored by rows, and the identity. *)
Definition mat3_mul (a b : list float) : list float :=
  (λ '(r, c),
     (a !!! (r*3+0)%nat * b !!! (0*3+c)%nat + a !!! (r*3+1)%nat * b !!! (1*3+c)%nat +
      a !!! (r*3+2)%nat * b !!! (2*3+c)%nat)%float)
  <$> [(0, 0); (0, 1); (0, 2); (1, 0); (1, 1); (1, 2); (2, 0); (2, 1); (2, 2)]%nat.

Definition identity3 : list float :=
  [1.0; 0.0; 0.0; 0.0; 1.0; 0.0; 0.0; 0.0; 1.0]%float.

(** [inv] is the inverse of the Jacobian [j], and the reference coordinates
    of [point], computed from [inv] and the origin vertex [v0], are each
    [>= 0] and sum to [<= 1]. *)
Definition reference_contains_3D (inv j v0 point : list float) : Prop :=
  mat3_mul inv j = identity3 ∧ mat3_mul j inv = identity3 ∧
  (let xi := xi_3D inv v0 point in
   let eta := eta_3D inv v0 point in
   let zeta := zeta_3D inv v0 point in
   (0.0 <=? xi)%float = true ∧ (0.0 <=? eta)%float = true ∧
   (0.0 <=? zeta)%float = true ∧ (xi + eta + zeta <=? 1.0)%float = true).

(** ** The broadcast of a table *)

(** The messages that carry a list of entries, and a table after the
    entries are stored in it one by one. *)
Definition entry_msgs (l : list (Z * bc_value_type)) : list BcastMsg :=
  flat_map (λ '(funcNum, funcVal), [MsgInt funcNum; MsgDouble4 funcVal]) l.

Definition insert_entries (l : list (Z * bc_value_type)) (m : gmap Z bc_value_type)
    : gmap Z bc_value_type :=
  foldl (λ m '(funcNum, funcVal), <[funcNum := funcVal]> m) m l.

(** A process that holds a boundary-value table and nothing else. *)
Definition bc_world (rank : Z) (values : gmap Z bc_value_type) : World :=
  {| mesh := {| base := {| _debug := 0; _commRank := rank; _topology := triangle_topology;
                           _distributed := false; _realSections := ∅;
                           _intSections := ∅; _pairSections := ∅ |};
                _dim := 2; _bcValues := values;
                _discretization := None; _boundaryCondition := None |};
     heap := ∅; cout := []; inbox := []; outbox := [] |}.

Definition bc_inflow : bc_value_type :=
  {| rho := 1.0%float; u := 2.0%float; v := 0.0%float; p := 0.5%float |}.

(** ** Field setup, call by call *)

(** The dof count [getNumDof] returns: the stored one, or 0. *)
Definition numDof (disc : Discretization) (dim : Z) : Z :=
  default 0 (_dim2dof disc !! dim).

Definition add_calls (extra : list SectionCall) (s : SectionObject) : SectionObject :=
  {| sec_values := sec_values s; sec_calls := sec_calls s ++ extra |}.

(** The calls of the three loops of [setupField]. *)
Definition bulk_calls (disc : Discretization) (dim : Z) : list SectionCall :=
  (λ d, SetFiberDimensionByDepth 0 d (numDof disc d)) <$> seqZ 0 dim.

Definition override_calls (disc : Discretization) (topology : Topology)
    (boundary : list point_type) : list SectionCall :=
  (λ e, SetFiberDimension 0 e (- numDof disc (depth topology 0 e))) <$> boundary.

Definition update_calls `{SectionReader} (func : list float → float)
    (coordinates : SectionObject) (boundary : list point_type) : list SectionCall :=
  (λ e, UpdateBC 0 e (func (restrictPoint coordinates 0 e))) <$> boundary.

(** Modelled from the spec: the section storage is declared in another
    header.  What the spec says a section holds: per point a signed fiber
    dimension, once one is assigned; whether [allocate] has fixed the
    storage; and per constrained point the boundary value written by
    [updateBC]. *)
Record SectionState := mkSectionState {
  st_dim : patch_type → point_type → option Z;
  st_allocated : bool;
  st_bc : patch_type → point_type → option float;
}.

Definition section_start : SectionState :=
  {| st_dim := λ _ _, None; st_allocated := false; st_bc := λ _ _, None |}.

(** Modelled from the spec: the section storage is declared in another
    header.  One call on a section; [None] is a call that the spec has
    rejected or names a usage error.  [setFiberDimensionByDepth] assigns the
    dimension to every point at that depth and a later [setFiberDimension]
    for one point overrides it; [allocate] fixes the storage and rejects
    fiber-dimension changes afterwards; [updateBC] writes a value, so it
    needs the storage allocated, and is defined only for a point of negative
    fiber dimension, whose boundary value it overwrites. *)
Definition section_call (topology : Topology) (st : SectionState) (c : SectionCall)
    : option SectionState :=
  match c with
  | SetFiberDimensionByDepth patch d dim =>
      if st_allocated st then None
      else Some {| st_dim := λ patch' q,
                     if bool_decide (patch = patch' ∧ depth topology patch' q = d)
                     then Some dim else st_dim st patch' q;
                   st_allocated := st_allocated st; st_bc := st_bc st |}
  | SetFiberDimension patch e dim =>
      if st_allocated st then None
      else Some {| st_dim := λ patch' q,
                     if bool_decide (patch = patch' ∧ e = q)
                     then Some dim else st_dim st patch' q;
                   st_allocated := st_allocated st; st_bc := st_bc st |}
  | Allocate =>
      Some {| st_dim := st_dim st; st_allocated := true; st_bc := st_bc st |}
  | UpdateBC patch e value =>
      match st_dim st patch e with
      | Some dim =>
          if st_allocated st && (dim <? 0) then
            Some {| st_dim := st_dim st; st_allocated := st_allocated st;
                    st_bc := λ patch' q,
                      if bool_decide (patch = patch' ∧ e = q)
                      then Some value else st_bc st patch' q |}
          else None
      | None => None
      end
  end.

(** Modelled from the spec: a call that is rejected, or is a usage error,
    fails without corrupting the data, so it leaves the section as it is. *)
Definition apply_call (topology : Topology) (st : SectionState) (c : SectionCall)
    : SectionState :=
  default st (section_call topology st c).

(** The section after the calls made on a new one. *)
Definition section_after (topology : Topology) (calls : list SectionCall) : SectionState :=
  foldl (apply_call topology) section_start calls.

Definition fiberDimension (topology : Topology) (calls : list SectionCall)
    (patch : patch_type) (q : point_type) : option Z :=
  st_dim (section_after topology calls) patch q.




(** While [setupField] runs on the section at [a]: the mesh is as it was but
    for entries of 0 added to the dof table, and the heap is as it was but
    for the calls [extra] made on that section. *)
Definition setup_state (w0 : World) (disc : Discretization) (a : nat) (so : SectionObject)
    (extra : list SectionCall) (w : World) : Prop :=
  base (mesh w) = base (mesh w0) ∧
  _dim (mesh w) = _dim (mesh w0) ∧
  _boundaryCondition (mesh w) = _boundaryCondition (mesh w0) ∧
  (∃ disc', _discretization (mesh w) = Some disc' ∧ ∀ d, numDof disc' d = numDof disc d) ∧
  heap w = <[a := RealSection (add_calls extra so)]> (heap w0).

(** ** Meshes with a field to set up *)

(** An edge (point 0, depth 1) between two vertices (points 1 and 2, depth
    0), both vertices marked 1 under the label ["marker"]. *)
Definition segment_topology : Topology :=
  {| heightStratum := λ _ h, if bool_decide (h = 0) then [0] else
                             if bool_decide (h = 1) then [1; 2] else [];
     getLabelStratum := λ _ name marker,
       if bool_decide (name = "marker" ∧ marker = 1) then [1; 2] else [];
     depth := λ _ q, if bool_decide (q = 0) then 1 else 0 |}.

Definition segment_arrows : list Arrow := [mkArrow 1 0 0; mkArrow 2 0 1].

Definition segment_discretization : Discretization :=
  {| _dim2dof := {[0 := 1; 1 := 1]}; _dim2class := ∅ |}.

Definition segment_coordinates : SectionObject :=
  {| sec_values := λ _ q,
       if bool_decide (q = 1) then [0.0; 0.5]%float
       else if bool_decide (q = 2) then [1.0; 0.25]%float
       else [];
     sec_calls := [] |}.

Definition sum_of_coordinates (coords : list float) : float :=
  (coords !!! 0%nat + coords !!! 1%nat)%float.

(** A mesh of dimension 1 over the segment, one dof on vertices and one on
    edges, the coordinates at address 0 and a new section at address 1. *)
Definition segment_world (name : string) : World :=
  {| mesh := {| base := {| _debug := 0; _commRank := 0; _topology := segment_topology;
                           _distributed := false;
                           _realSections := {["coordinates" := ObjRef 0%nat]};
                           _intSections := ∅; _pairSections := ∅ |};
                _dim := 1; _bcValues := ∅;
                _discretization := Some segment_discretization;
                _boundaryCondition :=
                  Some {| _labelName := name; _func := Some sum_of_coordinates |} |};
     heap := {[0%nat := RealSection segment_coordinates; 1%nat := RealSection new_section]};
     cout := []; inbox := []; outbox := [] |}.

(** The calls made on the section at [a], if there is one. *)
Definition calls_at (a : nat) (w : World) : option (list SectionCall) :=
  match heap w !! a with
  | Some (RealSection s) => Some (sec_calls s)
  | _ => None
  end.

(** ** More of Bundle: setters and name sets *)

(** [this->_intSections[name] = section] and
    [this->_pairSections[name] = section], with the handle they replace
    dropped as in [setRealSection]. *)
Definition setIntSection (name : string) (section : Obj) : M unit :=
  modify (set_mesh (set_base (set_intSections (insert name section)))).

Definition setPairSection (name : string) (section : Obj) : M unit :=
  modify (set_mesh (set_base (set_pairSections (insert name section)))).

Definition string_le (x y : string) : Prop := String.leb x y = true.
#[global] Instance string_le_dec (x y : string) : Decision (string_le x y) :=
  decide (String.leb x y = true).

(** The keys of a [std::map<std::string, V>] as its iterator visits them. *)
Definition registry_names {V : Type} (m : gmap string V) : list string :=
  merge_sort string_le (map_to_list m).*1.

(** The loop shared by [getRealSections], [getIntSections] and
    [getPairSections]: [names->insert(s_iter->first)] for every entry. *)
Definition collect_names {V : Type} (m : gmap string V) : gset string :=
  foldl (λ names name, {[name]} ∪ names) ∅ (registry_names m).

Definition getRealSections : M (gset string) :=
  gets (λ w, collect_names (_realSections (base (mesh w)))).

Definition getIntSections : M (gset string) :=
  gets (λ w, collect_names (_intSections (base (mesh w)))).

Definition getPairSections : M (gset string) :=
  gets (λ w, collect_names (_pairSections (base (mesh w)))).

(** ** More of Discretization *)

(** [this->_discretization->setNumDof(dim, numDof)] *)
Definition setNumDof (dim numDof : Z) : M unit :=
  w ← get;
  match _discretization (mesh w) with
  | Some disc =>
      modify (set_mesh (set_discretization (λ _,
        Some {| _dim2dof := <[dim := numDof]> (_dim2dof disc);
                _dim2class := _dim2class disc |})))
  | None => undefined
  end.

(** [this->_discretization->getDofClass(dim)], that is [_dim2class[dim]]. *)
Definition getDofClass (dim : Z) : M Z :=
  w ← get;
  match _discretization (mesh w) with
  | Some disc =>
      let '(dofClass, dim2class) := subscript 0 dim (_dim2class disc) in
      modify (set_mesh (set_discretization (λ _,
        Some {| _dim2dof := _dim2dof disc; _dim2class := dim2class |})));;
      mret dofClass
  | None => undefined
  end.

(** [this->_discretization->setDofClass(dim, dofClass)] *)
Definition setDofClass (dim dofClass : Z) : M unit :=
  w ← get;
  match _discretization (mesh w) with
  | Some disc =>
      modify (set_mesh (set_discretization (λ _,
        Some {| _dim2dof := _dim2dof disc;
                _dim2class := <[dim := dofClass]> (_dim2class disc) |})))
  | None => undefined
  end.

(** ** Maximal determinant *)

(** [std::max(a, b)], that is [(a < b) ? b : a]. *)
Definition std_max (a b : float) : float := if (a <? b)%float then b else a.

Section Volume.
Context `{SectionReader}.

(** The loop of [getMaxVolume] over the cells of one patch. *)
Fixpoint volume_cells (coordinates : Obj) (g : GeometryBuffers) (maxVolume : float)
    (cells : list point_type) : M (GeometryBuffers * float) :=
  match cells with
  | [] => mret (g, maxVolume)
  | c :: rest =>
      g' ← computeElementGeometry coordinates c g;
      volume_cells coordinates g' (std_max maxVolume (detJ g')) rest
  end.

(** The loop of [getMaxVolume] over the patches. *)
Fixpoint volume_patches (g : GeometryBuffers) (maxVolume : float)
    (patches : list patch_type) : M float :=
  match patches with
  | [] => mret maxVolume
  | patch :: rest =>
      coordinates ← getRealSection "coordinates";
      cells ← gets (λ w, heightStratum (_topology (base (mesh w))) patch 0);
      '(g', maxVolume') ← volume_cells coordinates g maxVolume cells;
      volume_patches g' maxVolume' rest
  end.

(** [getMaxVolume()].  The patches are the keys of the topology's
    [getPatches()], in their order; the topology class is declared in another
    header, so they are an argument here. *)
Definition getMaxVolume (patches : list patch_type) : M float :=
  let g := {| v0 := Some (local_array 3); J := Some (local_array 9);
              invJ := Some (local_array 9); detJ := 0%float |} in
  volume_patches g 0.0%float patches.

End Volume.

(** The restriction of the coordinates to a cell of a mesh of dimension
    [dim] holds the [dim] coordinates of each of its [dim + 1] vertices, the
    values the geometry routines read. *)
Definition in_cell_bounds (dim : Z) (coords : list float) : Prop :=
  dim * (dim + 1) ≤ Z.of_nat (length coords).

(** The determinant the geometry routines leave for a cell. *)
Definition cell_detJ (dim : Z) (coords : list float) : float :=
  if bool_decide (dim = 2) then det2 (J_2D coords) else det3 (J_3D coords).

(** Buffers as [getMaxVolume] declares them: [v0[3], J[9], invJ[9]]. *)
Definition volume_buffers (g : GeometryBuffers) : Prop :=
  ∃ a b c, v0 g = Some a ∧ J g = Some b ∧ invJ g = Some c ∧
           length a = 3%nat ∧ length b = 9%nat ∧ length c = 9%nat.

(** An IEEE infinity or NaN. *)
Definition non_finite (x : float) : Prop :=
  Prim2SF x = S754_nan ∨ ∃ s, Prim2SF x = S754_infinity s.

(** The two kinds of calls around [allocate]. *)
Definition is_dimension_call (c : SectionCall) : Prop :=
  match c with
  | SetFiberDimensionByDepth _ _ _ | SetFiberDimension _ _ _ => True
  | _ => False
  end.

Definition is_update_call (c : SectionCall) : Prop :=
  match c with
  | UpdateBC _ _ _ => True
  | _ => False
  end.

(** ** MeshBuilder: the incidence structure of the square boundary *)

(** What the block of [createSquareBoundary] under [commRank() == 0] builds:
    the arrows added to the sieve in insertion order, the values set under
    the label ["marker"], and the local counter [order].  The [int] products
    are taken in [Z]. *)
Record SieveBuild := mkBuild {
  arrows : list Arrow;
  markers : gmap Z Z;
  next_order : Z;
}.

(** [sieve->addArrow(src, tgt, order++)]; the counter is an [int], and the
    increment is the one of [Z] while the count of arrows is below [2^31]. *)
Definition addArrow (src tgt : point_type) (b : SieveBuild) : SieveBuild :=
  {| arrows := arrows b ++ [mkArrow src tgt (next_order b)];
     markers := markers b;
     next_order := next_order b + 1 |}.

(** [topology->setValue(markers, q, value)] *)
Definition setValue (q : point_type) (value : Z) (b : SieveBuild) : SieveBuild :=
  {| arrows := arrows b; markers := <[q := value]> (markers b);
     next_order := next_order b |}.

(** [for(v = numEdges; v < numEdges+numVertices; v++) vertices[v-numEdges] = v] *)
Definition fill_vertices (numEdges numVertices : Z) (vertices : list Z) : list Z :=
  foldl (λ vs v, <[Z.to_nat (v - numEdges) := v]> vs) vertices (seqZ numEdges numVertices).

(** The body of the first pair of loops (edges along x). *)
Definition horizontal_edge (e0 e1 : Z) (vertices : list Z) (vy ex : Z) (b : SieveBuild)
    : SieveBuild :=
  let edge := vy * e0 + ex in
  let vertex := vy * (e0 + 1) + ex in
  let b := addArrow (vertices !!! Z.to_nat (vertex + 0)) edge b in
  let b := addArrow (vertices !!! Z.to_nat (vertex + 1)) edge b in
  if bool_decide (vy = 0 ∨ vy = e1) then
    let b := setValue edge 1 b in
    let b := setValue (vertices !!! Z.to_nat vertex) 1 b in
    if bool_decide (ex = e0 - 1) then setValue (vertices !!! Z.to_nat (vertex + 1)) 1 b
    else b
  else b.

(** The body of the second pair of loops (edges along y). *)
Definition vertical_edge (e0 e1 : Z) (vertices : list Z) (vx ey : Z) (b : SieveBuild)
    : SieveBuild :=
  let edge := vx * e1 + ey + e0 * (e1 + 1) in
  let vertex := ey * (e0 + 1) + vx in
  let b := addArrow (vertices !!! Z.to_nat vertex) edge b in
  let b := addArrow (vertices !!! Z.to_nat (vertex + e0 + 1)) edge b in
  if bool_decide (vx = 0 ∨ vx = e0) then
    let b := setValue edge 1 b in
    let b := setValue (vertices !!! Z.to_nat vertex) 1 b in
    if bool_decide (ey = e1 - 1) then setValue (vertices !!! Z.to_nat (vertex + e0 + 1)) 1 b
    else b
  else b.

Definition square_numVertices (edges : list Z) : Z :=
  (edges !!! 0%nat + 1) * (edges !!! 1%nat + 1).
Definition square_numEdges (edges : list Z) : Z :=
  edges !!! 0%nat * (edges !!! 1%nat + 1) + (edges !!! 0%nat + 1) * edges !!! 1%nat.

(** The topology part of [createSquareBoundary] on the process of rank
    [rank]; the array [vertices] is allocated with indeterminate entries. *)
Definition createSquareBoundary_sieve (rank : Z) (edges : list Z) : SieveBuild :=
  let e0 := edges !!! 0%nat in
  let e1 := edges !!! 1%nat in
  let numVertices := square_numVertices edges in
  let numEdges := square_numEdges edges in
  let b := {| arrows := []; markers := ∅; next_order := 0 |} in
  if bool_decide (rank = 0) then
    let vertices := fill_vertices numEdges numVertices (replicate (Z.to_nat numVertices) 0) in
    let b := foldl (λ b vy, foldl (λ b ex, horizontal_edge e0 e1 vertices vy ex b)
                                  b (seqZ 0 e0))
                   b (seqZ 0 (e1 + 1)) in
    foldl (λ b vx, foldl (λ b ey, vertical_edge e0 e1 vertices vx ey b) b (seqZ 0 e1))
          b (seqZ 0 (e0 + 1))
  else b.



(** The ids one pass of the loops marks: the edge and its first vertex when
    the edge lies on the border row or column, and the second vertex too at
    the last edge of the row or column. *)
Definition horizontal_marks (e0 e1 : Z) (vy ex q : Z) : Prop :=
  (vy = 0 ∨ vy = e1) ∧
  (q = vy * e0 + ex ∨
   q = square_numEdges [e0; e1] + (vy * (e0 + 1) + ex) ∨
   (ex = e0 - 1 ∧ q = square_numEdges [e0; e1] + (vy * (e0 + 1) + ex + 1))).

Definition vertical_marks (e0 e1 : Z) (vx ey q : Z) : Prop :=
  (vx = 0 ∨ vx = e0) ∧
  (q = vx * e1 + ey + e0 * (e1 + 1) ∨
   q = square_numEdges [e0; e1] + (ey * (e0 + 1) + vx) ∨
   (ey = e1 - 1 ∧ q = square_numEdges [e0; e1] + (ey * (e0 + 1) + vx + e0 + 1))).

(** The build has an arrow from [s] to [t]. *)
Definition has_arrow (b : SieveBuild) (s t : point_type) : Prop :=
  ∃ a, a ∈ arrows b ∧ source a = s ∧ target a = t.

(** ** MeshBuilder: the coordinates of the cube boundary *)

(** The assignments of [createCubeBoundary] to its array [coords] (the
    branch that is compiled), in source order: vertex [v] is written at
    [coords[v*2+0]], [coords[v*2+1]] and [coords[v*2+2]]. *)
Definition cube_assignments (lower upper : list float) : list (nat * float) :=
  [ ((0*2+0)%nat, lower !!! 0%nat); ((0*2+1)%nat, lower !!! 1%nat); ((0*2+2)%nat, upper !!! 2%nat);
    ((1*2+0)%nat, upper !!! 0%nat); ((1*2+1)%nat, lower !!! 1%nat); ((1*2+2)%nat, upper !!! 2%nat);
    ((2*2+0)%nat, upper !!! 0%nat); ((2*2+1)%nat, upper !!! 1%nat); ((2*2+2)%nat, upper !!! 2%nat);
    ((3*2+0)%nat, lower !!! 0%nat); ((3*2+1)%nat, upper !!! 1%nat); ((3*2+2)%nat, upper !!! 2%nat);
    ((4*2+0)%nat, upper !!! 0%nat); ((4*2+1)%nat, lower !!! 1%nat); ((4*2+2)%nat, lower !!! 2%nat);
    ((5*2+0)%nat, lower !!! 0%nat); ((5*2+1)%nat, lower !!! 1%nat); ((5*2+2)%nat, lower !!! 2%nat);
    ((6*2+0)%nat, lower !!! 0%nat); ((6*2+1)%nat, upper !!! 1%nat); ((6*2+2)%nat, lower !!! 2%nat);
    ((7*2+0)%nat, upper !!! 0%nat); ((7*2+1)%nat, upper !!! 1%nat); ((7*2+2)%nat, lower !!! 2%nat) ].

(** The array after the assignments; [coords] is the array as allocated,
    [numVertices*3] entries of indeterminate content. *)
Definition createCubeBoundary_coords (lower upper coords : list float) : list float :=
  foldl (λ c '(i, x), <[i := x]> c) coords (cube_assignments lower upper).

Definition cube_numVertices (faces : list Z) : Z :=
  (faces !!! 0%nat + 1) * (faces !!! 1%nat + 1) * (faces !!! 2%nat + 1).

(** * Properties *)

(** ** Stepping through the monad *)

Lemma bind_Ok {A B} (m : M A) (f : A → M B) w a w' :
  m w = Ok (a, w') → (m ≫= f) w = f a w'.
Proof. intros E. unfold mbind, M_bind. by rewrite E. Qed.

Ltac mstep :=
  unfold mbind, M_bind, mret, M_ret, get, gets, modify, throw, undefined, lift; simpl.

(** ** The section registries *)

Lemma subscript_present `{Countable K} {V : Type} (dflt : V) (k : K) (m : gmap K V) x :
  m !! k = Some x → subscript dflt k m = (x, m).
Proof. intros E. unfold subscript. by rewrite E. Qed.

Lemma subscript_absent `{Countable K} {V : Type} (dflt : V) (k : K) (m : gmap K V) :
  m !! k = None → subscript dflt k m = (dflt, <[k:=dflt]> m).
Proof. intros E. unfold subscript. by rewrite E. Qed.

Lemma getRealSection_registered name w o :
  _realSections (base (mesh w)) !! name = Some o →
  getRealSection name w = Ok (o, w).
Proof.
  intros E. unfold getRealSection, hasRealSection. mstep.
  rewrite bool_decide_eq_true_2 by (rewrite E; eauto). simpl.
  rewrite (subscript_present _ _ _ _ E). simpl.
  destruct w as [[[] ? ? ? ?] ? ? ? ?]; reflexivity.
Qed.

Lemma getIntSection_registered name w o :
  _intSections (base (mesh w)) !! name = Some o →
  getIntSection name w = Ok (o, w).
Proof.
  intros E. unfold getIntSection, hasIntSection. mstep.
  rewrite bool_decide_eq_true_2 by (rewrite E; eauto). simpl.
  rewrite (subscript_present _ _ _ _ E). simpl.
  destruct w as [[[] ? ? ? ?] ? ? ? ?]; reflexivity.
Qed.

Lemma getPairSection_registered name w o :
  _pairSections (base (mesh w)) !! name = Some o →
  getPairSection name w = Ok (o, w).
Proof.
  intros E. unfold getPairSection, hasPairSection. mstep.
  rewrite bool_decide_eq_true_2 by (rewrite E; eauto). simpl.
  rewrite (subscript_present _ _ _ _ E). simpl.
  destruct w as [[[] ? ? ? ?] ? ? ? ?]; reflexivity.
Qed.

(** The first call under a name creates one object at a fresh address and
    registers it. *)
Lemma getRealSection_creates name w :
  _realSections (base (mesh w)) !! name = None →
  ∃ w', getRealSection name w = Ok (ObjRef (fresh (dom (heap w))), w') ∧
        heap w !! fresh (dom (heap w)) = None ∧
        heap w' = <[fresh (dom (heap w)) := RealSection new_section]> (heap w) ∧
        _realSections (base (mesh w')) =
          <[name := ObjRef (fresh (dom (heap w)))]> (_realSections (base (mesh w))).
Proof.
  intros E. unfold getRealSection, hasRealSection, new, print_line. mstep.
  rewrite bool_decide_eq_false_2 by (rewrite E; intros [? ?]; discriminate). simpl.
  assert (Hfresh : heap w !! fresh (dom (heap w)) = None)
    by (apply not_elem_of_dom, is_fresh).
  destruct (bool_decide (_debug (base (mesh w)) ≠ 0)); simpl;
    rewrite (subscript_present _ _ _ (ObjRef (fresh (dom (heap w)))))
      by apply lookup_insert_eq; simpl;
    (eexists; split; [reflexivity|]); simpl; auto.
Qed.

Lemma getIntSection_creates name w :
  _intSections (base (mesh w)) !! name = None →
  ∃ w', getIntSection name w = Ok (ObjRef (fresh (dom (heap w))), w') ∧
        heap w !! fresh (dom (heap w)) = None ∧
        heap w' = <[fresh (dom (heap w)) := IntSection]> (heap w) ∧
        _intSections (base (mesh w')) =
          <[name := ObjRef (fresh (dom (heap w)))]> (_intSections (base (mesh w))) ∧
        _realSections (base (mesh w')) = _realSections (base (mesh w)) ∧
        _pairSections (base (mesh w')) = _pairSections (base (mesh w)).
Proof.
  intros E. unfold getIntSection, hasIntSection, new, print_line. mstep.
  rewrite bool_decide_eq_false_2 by (rewrite E; intros [? ?]; discriminate). simpl.
  assert (Hfresh : heap w !! fresh (dom (heap w)) = None)
    by (apply not_elem_of_dom, is_fresh).
  destruct (bool_decide (_debug (base (mesh w)) ≠ 0)); simpl;
    rewrite (subscript_present _ _ _ (ObjRef (fresh (dom (heap w)))))
      by apply lookup_insert_eq; simpl;
    (eexists; split; [reflexivity|]); simpl; auto.
Qed.

Lemma getPairSection_creates name w :
  _pairSections (base (mesh w)) !! name = None →
  ∃ w', getPairSection name w = Ok (ObjRef (fresh (dom (heap w))), w') ∧
        heap w !! fresh (dom (heap w)) = None ∧
        heap w' = <[fresh (dom (heap w)) := PairSection]> (heap w) ∧
        _pairSections (base (mesh w')) =
          <[name := ObjRef (fresh (dom (heap w)))]> (_pairSections (base (mesh w))) ∧
        _realSections (base (mesh w')) = _realSections (base (mesh w)) ∧
        _intSections (base (mesh w')) = _intSections (base (mesh w)).
Proof.
  intros E. unfold getPairSection, hasPairSection, new, print_line. mstep.
  rewrite bool_decide_eq_false_2 by (rewrite E; intros [? ?]; discriminate). simpl.
  assert (Hfresh : heap w !! fresh (dom (heap w)) = None)
    by (apply not_elem_of_dom, is_fresh).
  destruct (bool_decide (_debug (base (mesh w)) ≠ 0)); simpl;
    rewrite (subscript_present _ _ _ (ObjRef (fresh (dom (heap w)))))
      by apply lookup_insert_eq; simpl;
    (eexists; split; [reflexivity|]); simpl; auto.
Qed.

Ltac registry_first_call E :=
  mstep;
  rewrite bool_decide_eq_false_2 by (rewrite E; intros [? ?]; discriminate); simpl;
  match goal with
  | |- context [bool_decide (?d ≠ 0)] => destruct (bool_decide (d ≠ 0)); simpl
  end;
  (erewrite subscript_present by apply lookup_insert_eq); simpl;
  (do 2 eexists; split; [reflexivity|]); simpl;
  (split; [apply lookup_insert_eq|]).

(** After a get-call the name is registered with the handle returned, and a
    second call returns that handle and changes nothing. *)
Lemma registries_idempotent (name : string) (w : World) :
  (∃ o w1, getRealSection name w = Ok (o, w1) ∧
           _realSections (base (mesh w1)) !! name = Some o ∧
           hasRealSection name w1 = Ok (true, w1) ∧
           getRealSection name w1 = Ok (o, w1)) ∧
  (∃ o w1, getIntSection name w = Ok (o, w1) ∧
           _intSections (base (mesh w1)) !! name = Some o ∧
           hasIntSection name w1 = Ok (true, w1) ∧
           getIntSection name w1 = Ok (o, w1)) ∧
  (∃ o w1, getPairSection name w = Ok (o, w1) ∧
           _pairSections (base (mesh w1)) !! name = Some o ∧
           hasPairSection name w1 = Ok (true, w1) ∧
           getPairSection name w1 = Ok (o, w1)).
Proof.
  split; [|split].
  - destruct (_realSections (base (mesh w)) !! name) as [o|] eqn:E.
    + exists o, w. split; [by apply getRealSection_registered|].
      split; [done|]. split; [|by apply getRealSection_registered].
      unfold hasRealSection; mstep. rewrite bool_decide_eq_true_2; [done|by rewrite E].
    + unfold getRealSection at 1, hasRealSection at 1, new, print_line.
      registry_first_call E.
      all: split; [unfold hasRealSection; mstep;
                   rewrite bool_decide_eq_true_2; [done|by rewrite lookup_insert_eq]|].
      all: apply getRealSection_registered; simpl; apply lookup_insert_eq.
  - destruct (_intSections (base (mesh w)) !! name) as [o|] eqn:E.
    + exists o, w. split; [by apply getIntSection_registered|].
      split; [done|]. split; [|by apply getIntSection_registered].
      unfold hasIntSection; mstep. rewrite bool_decide_eq_true_2; [done|by rewrite E].
    + unfold getIntSection at 1, hasIntSection at 1, new, print_line.
      registry_first_call E.
      all: split; [unfold hasIntSection; mstep;
                   rewrite bool_decide_eq_true_2; [done|by rewrite lookup_insert_eq]|].
      all: apply getIntSection_registered; simpl; apply lookup_insert_eq.
  - destruct (_pairSections (base (mesh w)) !! name) as [o|] eqn:E.
    + exists o, w. split; [by apply getPairSection_registered|].
      split; [done|]. split; [|by apply getPairSection_registered].
      unfold hasPairSection; mstep. rewrite bool_decide_eq_true_2; [done|by rewrite E].
    + unfold getPairSection at 1, hasPairSection at 1, new, print_line.
      registry_first_call E.
      all: split; [unfold hasPairSection; mstep;
                   rewrite bool_decide_eq_true_2; [done|by rewrite lookup_insert_eq]|].
      all: apply getPairSection_registered; simpl; apply lookup_insert_eq.
Qed.

(** C8: each of the three registries is get-or-create and idempotent.  A call
    of [getRealSection] under a registered name returns the handle stored
    under it and changes nothing; under an absent name it creates one new
    real section at an address that held no object, registers its handle
    under the name and returns it.  Either way the name is registered with
    the returned handle afterwards, so the has-query answers true, and a
    second call under the same name returns the same handle and leaves the
    whole state (registry, heap of objects, output) as it is.  The same holds
    of [getIntSection] and [getPairSection] with their registries and
    kinds of object. *)
Theorem section_registries_get_or_create (name : string) (w : World) :
  (match _realSections (base (mesh w)) !! name with
   | Some o => getRealSection name w = Ok (o, w)
   | None =>
       ∃ a w1, getRealSection name w = Ok (ObjRef a, w1) ∧
               heap w !! a = None ∧
               heap w1 = <[a := RealSection new_section]> (heap w) ∧
               _realSections (base (mesh w1)) =
                 <[name := ObjRef a]> (_realSections (base (mesh w)))
   end ∧
   ∃ o w1, getRealSection name w = Ok (o, w1) ∧
           _realSections (base (mesh w1)) !! name = Some o ∧
           hasRealSection name w1 = Ok (true, w1) ∧
           getRealSection name w1 = Ok (o, w1)) ∧
  (match _intSections (base (mesh w)) !! name with
   | Some o => getIntSection name w = Ok (o, w)
   | None =>
       ∃ a w1, getIntSection name w = Ok (ObjRef a, w1) ∧
               heap w !! a = None ∧
               heap w1 = <[a := IntSection]> (heap w) ∧
               _intSections (base (mesh w1)) =
                 <[name := ObjRef a]> (_intSections (base (mesh w)))
   end ∧
   ∃ o w1, getIntSection name w = Ok (o, w1) ∧
           _intSections (base (mesh w1)) !! name = Some o ∧
           hasIntSection name w1 = Ok (true, w1) ∧
           getIntSection name w1 = Ok (o, w1)) ∧
  (match _pairSections (base (mesh w)) !! name with
   | Some o => getPairSection name w = Ok (o, w)
   | None =>
       ∃ a w1, getPairSection name w = Ok (ObjRef a, w1) ∧
               heap w !! a = None ∧
               heap w1 = <[a := PairSection]> (heap w) ∧
               _pairSections (base (mesh w1)) =
                 <[name := ObjRef a]> (_pairSections (base (mesh w)))
   end ∧
   ∃ o w1, getPairSection name w = Ok (o, w1) ∧
           _pairSections (base (mesh w1)) !! name = Some o ∧
           hasPairSection name w1 = Ok (true, w1) ∧
           getPairSection name w1 = Ok (o, w1)).
Proof.
  destruct (registries_idempotent name w) as (Hreal & Hint & Hpair).
  split; [|split]; (split; [|done]).
  - destruct (_realSections (base (mesh w)) !! name) as [o|] eqn:E.
    + by apply getRealSection_registered.
    + destruct (getRealSection_creates name w E) as (w1 & Hrun & Hfresh & Hheap & Hreg).
      by exists (fresh (dom (heap w))), w1.
  - destruct (_intSections (base (mesh w)) !! name) as [o|] eqn:E.
    + by apply getIntSection_registered.
    + destruct (getIntSection_creates name w E) as (w1 & Hrun & Hfresh & Hheap & Hreg & _).
      by exists (fresh (dom (heap w))), w1.
  - destruct (_pairSections (base (mesh w)) !! name) as [o|] eqn:E.
    + by apply getPairSection_registered.
    + destruct (getPairSection_creates name w E) as (w1 & Hrun & Hfresh & Hheap & Hreg & _).
      by exists (fresh (dom (heap w))), w1.
Qed.

(** ** Element geometry *)

Ltac explicit_list l :=
  repeat (destruct l as [|? l]; simpl in *; try discriminate; try lia).

Lemma in_bounds_arrays dim coords g a b c :
  v0 g = Some a → J g = Some b → invJ g = Some c →
  (dim ≤ length a)%nat → (dim * dim ≤ length b)%nat → (dim * dim ≤ length c)%nat →
  (dim * (dim + 1) ≤ length coords)%nat →
  in_bounds dim coords g = true.
Proof.
  intros Ea Eb Ec La Lb Lc Lcoords. unfold in_bounds. rewrite Ea, Eb, Ec.
  repeat (apply andb_true_intro; split); apply Nat.leb_le; nia.
Qed.

(** Every entry of sized buffers is overwritten: what the routines leave
    for a cell of six or twelve coordinates does not depend on what the
    buffers held. *)
Lemma simplex_geometry_2D coords g :
  sized_buffers 2 g → (6 ≤ length coords)%nat →
  simplex_geometry 2 det2 inverse2 coords g = Ok (geometry_2D coords).
Proof.
  intros (a & b & c & Ea & Eb & Ec & La & Lb & Lc) Lcoords.
  unfold simplex_geometry.
  rewrite (in_bounds_arrays 2 coords g a b c) by (done || simpl; lia).
  rewrite Ea, Eb, Ec. simpl.
  explicit_list a. explicit_list b. explicit_list c. reflexivity.
Qed.

Lemma simplex_geometry_3D coords g :
  sized_buffers 3 g → (12 ≤ length coords)%nat →
  simplex_geometry 3 det3 inverse3 coords g = Ok (geometry_3D coords).
Proof.
  intros (a & b & c & Ea & Eb & Ec & La & Lb & Lc) Lcoords.
  unfold simplex_geometry.
  rewrite (in_bounds_arrays 3 coords g a b c) by (done || simpl; lia).
  rewrite Ea, Eb, Ec. simpl.
  explicit_list a. explicit_list b. explicit_list c. reflexivity.
Qed.

Lemma geometry_2D_sized coords : sized_buffers 2 (geometry_2D coords).
Proof. do 3 eexists. repeat split; reflexivity. Qed.

Lemma geometry_3D_sized coords : sized_buffers 3 (geometry_3D coords).
Proof. do 3 eexists. repeat split; reflexivity. Qed.

Lemma deref_real_live w a s :
  heap w !! a = Some (RealSection s) → deref_real (ObjRef a) w = Ok (s, w).
Proof. intros E. unfold deref_real. by rewrite E. Qed.

Section GeometryFacts.
Context `{SectionReader}.

Lemma computeElementGeometry_2D w a s e g :
  _dim (mesh w) = 2 → heap w !! a = Some (RealSection s) → sized_buffers 2 g →
  (6 ≤ length (restrict s 0%Z e))%nat →
  computeElementGeometry (ObjRef a) e g w = Ok (geometry_2D (restrict s 0 e), w).
Proof.
  intros Hd Hs Hg Hlen. unfold computeElementGeometry, computeTriangleGeometry.
  unfold mbind, M_bind, gets, lift. rewrite Hd. simpl.
  rewrite Hs. by rewrite (simplex_geometry_2D _ _ Hg Hlen).
Qed.

Lemma computeElementGeometry_3D w a s e g :
  _dim (mesh w) = 3 → heap w !! a = Some (RealSection s) → sized_buffers 3 g →
  (12 ≤ length (restrict s 0%Z e))%nat →
  computeElementGeometry (ObjRef a) e g w = Ok (geometry_3D (restrict s 0 e), w).
Proof.
  intros Hd Hs Hg Hlen. unfold computeElementGeometry, computeTetrahedronGeometry.
  unfold mbind, M_bind, gets, lift. rewrite Hd. simpl.
  rewrite Hs. by rewrite (simplex_geometry_3D _ _ Hg Hlen).
Qed.

(** C7: on a mesh whose dimension is neither 2 nor 3, [computeElementGeometry]
    throws its unsupported-dimension exception for every section handle, cell
    and buffers, and [locatePoint] throws for every patch and query point;
    neither returns. *)
Theorem other_dimensions_throw (w : World) :
  _dim (mesh w) ≠ 2 → _dim (mesh w) ≠ 3 →
  (∀ coordinates e g,
     computeElementGeometry coordinates e g w =
       Throw (ALE_Exception "Unsupport dimension for element geometry computation")) ∧
  (∀ patch point,
     locatePoint patch point w =
       Throw (ALE_Exception "No point location for mesh dimension")).
Proof.
  intros H2 H3. split; intros.
  - unfold computeElementGeometry. mstep.
    by rewrite !bool_decide_eq_false_2.
  - unfold locatePoint. mstep.
    by rewrite !bool_decide_eq_false_2.
Qed.

End GeometryFacts.

Lemma other_dimensions_throw_witness :
  (∀ coordinates e g,
     @computeElementGeometry (closure_reader triangle_arrows) coordinates e g
       (simplex_world 1 triangle_topology triangle_coordinates) =
       Throw (ALE_Exception "Unsupport dimension for element geometry computation")) ∧
  (∀ patch point,
     @locatePoint (closure_reader triangle_arrows) patch point
       (simplex_world 1 triangle_topology triangle_coordinates) =
       Throw (ALE_Exception "No point location for mesh dimension")).
Proof.
  apply (@other_dimensions_throw (closure_reader triangle_arrows)
           (simplex_world 1 triangle_topology triangle_coordinates)); simpl; lia.
Defined.

(** ** Point location *)

(** [getRealSection] touches the real registry, the heap and the output
    only. *)
Lemma getRealSection_frame name w o w1 :
  getRealSection name w = Ok (o, w1) →
  _dim (mesh w1) = _dim (mesh w) ∧
  _topology (base (mesh w1)) = _topology (base (mesh w)) ∧
  _discretization (mesh w1) = _discretization (mesh w) ∧
  _boundaryCondition (mesh w1) = _boundaryCondition (mesh w) ∧
  (∀ b x, heap w !! b = Some x → heap w1 !! b = Some x).
Proof.
  destruct (_realSections (base (mesh w)) !! name) as [o'|] eqn:E.
  - rewrite (getRealSection_registered _ _ _ E). intros [= _ <-]. auto.
  - unfold getRealSection, hasRealSection, new, print_line. mstep.
    rewrite bool_decide_eq_false_2 by (rewrite E; intros [? ?]; discriminate). simpl.
    assert (Hfresh : heap w !! fresh (dom (heap w)) = None)
      by (apply not_elem_of_dom, is_fresh).
    destruct (bool_decide (_debug (base (mesh w)) ≠ 0)); simpl;
      (erewrite subscript_present by apply lookup_insert_eq); simpl;
      intros [= _ <-]; simpl; repeat split; try done;
      intros b x Hb; rewrite lookup_insert_ne; congruence.
Qed.

Lemma inside_2D_test coords point :
  inside_2D (invJ_2D coords) (v0_2D coords) point = true ↔ locate_test 2 coords point.
Proof.
  unfold inside_2D, locate_test. simpl. rewrite !andb_true_iff. tauto.
Qed.

Lemma inside_3D_test coords point :
  inside_3D (invJ_3D coords) (v0_3D coords) point = true ↔ locate_test 3 coords point.
Proof.
  unfold inside_3D, locate_test. simpl. rewrite !andb_true_iff. tauto.
Qed.

(** The first element of a list that passes a test, when the elements before
    it fail it. *)
Lemma find_first {A} (f : A → bool) pre c post :
  Forall (λ x, f x ≠ true) pre → f c = true → find f (pre ++ c :: post) = Some c.
Proof.
  induction 1 as [|x pre Hx _ IH]; simpl; intros Hc.
  - by rewrite Hc.
  - destruct (f x); [done|]. by apply IH.
Qed.

Lemma find_none {A} (f : A → bool) l :
  Forall (λ x, f x ≠ true) l → find f l = None.
Proof.
  induction 1 as [|x l Hx _ IH]; simpl; [done|]. by destruct (f x).
Qed.

Lemma find_same_test {A} (f g : A → bool) l :
  (∀ x, f x = g x) → find f l = find g l.
Proof. intros E. induction l as [|x l IH]; simpl; [done|]. by rewrite E, IH. Qed.

Section LocateFacts.
Context `{SectionReader}.

Lemma locate_loop_2D w a s point g cells :
  _dim (mesh w) = 2 → heap w !! a = Some (RealSection s) → sized_buffers 2 g →
  Forall (λ c, (6 ≤ length (restrict s 0%Z c))%nat) cells → (2 ≤ length point)%nat →
  locate_loop 2 inside_2D (ObjRef a) point g cells w =
    match find (λ c, inside_2D (invJ_2D (restrict s 0 c)) (v0_2D (restrict s 0 c)) point)
               cells with
    | Some c => Ok (c, w)
    | None => Throw (ALE_Exception "Could not locate point")
    end.
Proof.
  intros Hd Hs Hg Hcells Hpoint. revert g Hg.
  destruct point as [|p0 [|p1 point]]; simpl in Hpoint; [lia..|].
  induction Hcells as [|c cells Hc _ IH]; intros g Hg; simpl; [done|].
  rewrite (bind_Ok _ _ _ _ _ (computeElementGeometry_2D _ _ _ c _ Hd Hs Hg Hc)). simpl.
  destruct (inside_2D _ _ _); [done|]. apply IH, geometry_2D_sized.
Qed.

Lemma locate_loop_3D w a s point g cells :
  _dim (mesh w) = 3 → heap w !! a = Some (RealSection s) → sized_buffers 3 g →
  Forall (λ c, (12 ≤ length (restrict s 0%Z c))%nat) cells → (3 ≤ length point)%nat →
  locate_loop 3 inside_3D (ObjRef a) point g cells w =
    match find (λ c, inside_3D (invJ_3D (restrict s 0 c)) (v0_3D (restrict s 0 c)) point)
               cells with
    | Some c => Ok (c, w)
    | None => Throw (ALE_Exception "Could not locate point")
    end.
Proof.
  intros Hd Hs Hg Hcells Hpoint. revert g Hg.
  destruct point as [|p0 [|p1 [|p2 point]]]; simpl in Hpoint; [lia..|].
  induction Hcells as [|c cells Hc _ IH]; intros g Hg; simpl; [done|].
  rewrite (bind_Ok _ _ _ _ _ (computeElementGeometry_3D _ _ _ c _ Hd Hs Hg Hc)). simpl.
  destruct (inside_3D _ _ _); [done|]. apply IH, geometry_3D_sized.
Qed.

Lemma local_buffers_2D_sized :
  sized_buffers 2 {| v0 := Some (local_array 2); J := Some (local_array 4);
                     invJ := Some (local_array 4); detJ := 0%float |}.
Proof. do 3 eexists. repeat split; reflexivity. Qed.

Lemma local_buffers_3D_sized :
  sized_buffers 3 {| v0 := Some (local_array 3); J := Some (local_array 9);
                     invJ := Some (local_array 9); detJ := 0%float |}.
Proof. do 3 eexists. repeat split; reflexivity. Qed.

(** What [locatePoint] returns on a mesh of dimension 2 or 3 whose
    coordinates handle is a live section, when every cell of the stratum has
    the coordinates of its vertices and the query point has one value per
    dimension. *)
Lemma locatePoint_scan w patch point a s w1 :
  _dim (mesh w) = 2 ∨ _dim (mesh w) = 3 →
  getRealSection "coordinates" w = Ok (ObjRef a, w1) →
  heap w1 !! a = Some (RealSection s) →
  Forall (λ c, in_cell_bounds (_dim (mesh w)) (restrict s 0 c))
         (heightStratum (_topology (base (mesh w))) patch 0) →
  _dim (mesh w) ≤ Z.of_nat (length point) →
  locatePoint patch point w =
    match find (λ c, bool_decide (locate_test (_dim (mesh w)) (restrict s 0 c) point))
               (heightStratum (_topology (base (mesh w))) patch 0) with
    | Some c => Ok (c, w1)
    | None => Throw (ALE_Exception "Could not locate point")
    end.
Proof.
  intros Hd Hget Hs Hcells Hpoint.
  destruct (getRealSection_frame _ _ _ _ Hget) as (Hdim & Htop & _).
  unfold locatePoint. unfold mbind at 1, M_bind at 1, gets at 1.
  unfold in_cell_bounds in Hcells.
  destruct Hd as [Hd|Hd]; rewrite Hd in *; simpl.
  - unfold locatePoint_2D. rewrite (bind_Ok _ _ _ _ _ Hget).
    unfold mbind, M_bind, gets. rewrite Htop.
    rewrite (locate_loop_2D w1 a s);
      [|congruence|done|apply local_buffers_2D_sized| |lia].
    + erewrite find_same_test; [reflexivity|]. intros c. simpl.
      apply eq_true_iff_eq. rewrite inside_2D_test, bool_decide_eq_true. done.
    + eapply Forall_impl; [exact Hcells|]. simpl. intros c Hc. lia.
  - unfold locatePoint_3D. rewrite (bind_Ok _ _ _ _ _ Hget).
    unfold mbind, M_bind, gets. rewrite Htop.
    rewrite (locate_loop_3D w1 a s);
      [|congruence|done|apply local_buffers_3D_sized| |lia].
    + erewrite find_same_test; [reflexivity|]. intros c. simpl.
      apply eq_true_iff_eq. rewrite inside_3D_test, bool_decide_eq_true. done.
    + eapply Forall_impl; [exact Hcells|]. simpl. intros c Hc. lia.
Qed.

(** The scan of [locatePoint]: it returns the first height-0 cell of the
    patch, in the order of the stratum, that passes the test of the code,
    and throws ["Could not locate point"] when no cell passes it. *)
Lemma locatePoint_first_passing_cell w patch point a s w1 :
  _dim (mesh w) = 2 ∨ _dim (mesh w) = 3 →
  getRealSection "coordinates" w = Ok (ObjRef a, w1) →
  heap w1 !! a = Some (RealSection s) →
  let cells := heightStratum (_topology (base (mesh w))) patch 0 in
  let passes c := locate_test (_dim (mesh w)) (restrict s 0 c) point in
  Forall (λ c, in_cell_bounds (_dim (mesh w)) (restrict s 0 c)) cells →
  _dim (mesh w) ≤ Z.of_nat (length point) →
  (∀ pre c post,
     cells = pre ++ c :: post → Forall (λ c', ¬ passes c') pre → passes c →
     locatePoint patch point w = Ok (c, w1)) ∧
  (Forall (λ c, ¬ passes c) cells →
     locatePoint patch point w = Throw (ALE_Exception "Could not locate point")).
Proof.
  intros Hd Hget Hs cells passes Hcells Hpoint.
  rewrite (locatePoint_scan w patch point a s w1 Hd Hget Hs Hcells Hpoint). fold cells. split.
  - intros pre c post -> Hpre Hc. rewrite find_first; [done| |by apply bool_decide_eq_true].
    eapply Forall_impl; [exact Hpre|]. intros c' Hc'. by rewrite bool_decide_eq_true.
  - intros Hnone. rewrite find_none; [done|].
    eapply Forall_impl; [exact Hnone|]. intros c' Hc'. by rewrite bool_decide_eq_true.
Qed.

End LocateFacts.

(** ** The unit right triangle *)

Lemma triangle_geometry_eval :
  @computeElementGeometry (closure_reader triangle_arrows) (ObjRef 0%nat) 0 buffers_2D
    triangle_world =
  Ok ({| v0 := Some [0.0; 0.0]%float;
         J := Some [0.5; 0.0; 0.0; 0.5]%float;
         invJ := Some [2.0; -0.0; -0.0; 2.0]%float;
         detJ := 0.25%float |}, triangle_world).
Proof. vm_compute. reflexivity. Qed.

(** C5, as amended: on the unit right triangle with the vertices (0,0),
    (1,0), (0,1) in arrow order, [computeElementGeometry] leaves the origin
    (0,0), the half-scaled Jacobian with diagonal 0.5, its inverse with
    diagonal 2, and [detJ] equal to 0.25. *)
Theorem triangle_geometry :
  @computeElementGeometry (closure_reader triangle_arrows) (ObjRef 0%nat) 0 buffers_2D
    triangle_world =
  Ok ({| v0 := Some [0.0; 0.0]%float;
         J := Some [0.5; 0.0; 0.0; 0.5]%float;
         invJ := Some [2.0; -0.0; -0.0; 2.0]%float;
         detJ := 0.25%float |}, triangle_world).
Proof. exact triangle_geometry_eval. Qed.

Lemma float_neq (x y : float) : Prim2SF x ≠ Prim2SF y → x ≠ y.
Proof. intros Hne ->. by apply Hne. Qed.

(** C5, as stated, fails: the determinant left for the unit right triangle is
    not 1.0. *)
Lemma triangle_detJ_not_one :
  ¬ ∃ g w',
      @computeElementGeometry (closure_reader triangle_arrows) (ObjRef 0%nat) 0 buffers_2D
        triangle_world = Ok (g, w') ∧
      detJ g = 1.0%float.
Proof.
  intros (g & w' & Hrun & Hdet). rewrite triangle_geometry_eval in Hrun.
  injection Hrun as <- _. simpl in Hdet. revert Hdet. apply float_neq. vm_compute. discriminate.
Qed.

(** C6: on the unit right triangle [locatePoint] returns the cell for the
    query point (0.25, 0.25) and throws ["Could not locate point"] for
    (2, 2). *)
Theorem triangle_locatePoint :
  @locatePoint (closure_reader triangle_arrows) 0 [0.25; 0.25]%float triangle_world =
    Ok (0, triangle_world) ∧
  @locatePoint (closure_reader triangle_arrows) 0 [2.0; 2.0]%float triangle_world =
    Throw (ALE_Exception "Could not locate point").
Proof. split; vm_compute; reflexivity. Qed.

(** The test is made on the half-scaled reference coordinates: the point
    (0.375, 0.375) of the same triangle has the reference coordinates
    (0.75, 0.75), whose sum exceeds 1, and is not located. *)
Lemma triangle_locatePoint_extent :
  @locatePoint (closure_reader triangle_arrows) 0 [0.375; 0.375]%float triangle_world =
    Throw (ALE_Exception "Could not locate point").
Proof. vm_compute. reflexivity. Qed.

(** ** The unit tetrahedron *)

(** C2 fails on a mesh of dimension 3 made of the unit tetrahedron with the
    vertices (0,0,0), (1,0,0), (0,1,0), (0,0,1).  The Jacobian of the cell is
    0.5 times the identity and its inverse is 2 times the identity; the array
    [invJ] that the geometry routine leaves has -2 in the middle of its
    diagonal and is not that inverse.  The point (0.125, 0.125, 0.125) has
    the reference coordinates (0.25, 0.25, 0.25), each [>= 0] and of sum
    [<= 1], and [locatePoint] throws ["Could not locate point"]; the point
    (0.125, -0.125, 0.125) has a negative reference coordinate, and
    [locatePoint] returns the cell. *)
Theorem locatePoint_tetrahedron_inverse :
  let R := closure_reader tetrahedron_arrows in
  let coords := restrict tetrahedron_coordinates 0 0 in
  let inverse := [2.0; 0.0; 0.0; 0.0; 2.0; 0.0; 0.0; 0.0; 2.0]%float in
  let inner := [0.125; 0.125; 0.125]%float in
  let outer := [0.125; -0.125; 0.125]%float in
  in_cell_bounds 3 coords ∧
  computeElementGeometry (ObjRef 0%nat) 0 buffers_3D tetrahedron_world =
    Ok ({| v0 := Some [0.0; 0.0; 0.0]%float;
           J := Some [0.5; 0.0; 0.0; 0.0; 0.5; 0.0; 0.0; 0.0; 0.5]%float;
           invJ := Some [2.0; 0.0; 0.0; 0.0; -2.0; 0.0; 0.0; 0.0; 2.0]%float;
           detJ := 0.125%float |}, tetrahedron_world) ∧
  mat3_mul (invJ_3D coords) (J_3D coords) ≠ identity3 ∧
  reference_contains_3D inverse (J_3D coords) (v0_3D coords) inner ∧
  locatePoint 0 inner tetrahedron_world =
    Throw (ALE_Exception "Could not locate point") ∧
  ¬ reference_contains_3D inverse (J_3D coords) (v0_3D coords) outer ∧
  locatePoint 0 outer tetrahedron_world = Ok (0, tetrahedron_world).
Proof.
  intros R coords inverse inner outer.
  split; [unfold in_cell_bounds; simpl; lia|].
  split; [vm_compute; reflexivity|].
  split.
  { intros Heq. apply (f_equal (λ l, l !!! 4%nat)) in Heq. revert Heq.
    apply float_neq. vm_compute. discriminate. }
  split; [repeat split; vm_compute; reflexivity|].
  split; [vm_compute; reflexivity|].
  split; [|vm_compute; reflexivity].
  intros (_ & _ & _ & Heta & _). vm_compute in Heta. discriminate.
Qed.

(** ** Degenerate cells *)

Lemma float_zero_SF (d : float) :
  (d =? 0.0)%float = true → ∃ s, Prim2SF d = S754_zero s.
Proof.
  rewrite FloatAxioms.eqb_spec. change (Prim2SF 0.0%float) with (S754_zero false).
  destruct (Prim2SF d) as [s|s| |s m e]; unfold SFeqb; simpl; try discriminate.
  - eauto.
  - destruct s; discriminate.
  - destruct s; discriminate.
Qed.

Lemma one_over_zero (d : float) :
  (d =? 0.0)%float = true → ∃ s, Prim2SF (1.0 / d)%float = S754_infinity s.
Proof.
  intros Hd. destruct (float_zero_SF d Hd) as [s Hs].
  rewrite div_spec, Hs.
  change (Prim2SF 1.0%float) with (S754_finite false 4503599627370496 (-52)).
  simpl. eauto.
Qed.

Lemma opp_infinite (x : float) :
  (∃ s, Prim2SF x = S754_infinity s) → ∃ s, Prim2SF (- x)%float = S754_infinity s.
Proof. intros [s Hs]. rewrite opp_spec, Hs. simpl. eauto. Qed.







(** The degenerate triangle at the origin: no error, a zero determinant and
    an inverse of NaNs. *)
Lemma degenerate_triangle_geometry :
  @computeTriangleGeometry (closure_reader triangle_arrows) (ObjRef 0%nat) 0 buffers_2D
    (simplex_world 2 triangle_topology degenerate_coordinates) =
  Ok ({| v0 := Some [0.0; 0.0]%float;
         J := Some [0.0; 0.0; 0.0; 0.0]%float;
         invJ := Some [nan; nan; nan; nan];
         detJ := 0.0%float |},
      simplex_world 2 triangle_topology degenerate_coordinates).
Proof. vm_compute. reflexivity. Qed.

(** Accesses out of bounds: the triangle routine on a cell with fewer than
    six coordinates (here the four of the segment), and the point location
    with a query point of one value, have no defined behaviour. *)
Lemma short_cell_undefined :
  @computeTriangleGeometry (closure_reader segment_arrows) (ObjRef 0%nat) 0 buffers_2D
    (simplex_world 2 triangle_topology segment_coordinates) = Undefined.
Proof. vm_compute. reflexivity. Qed.

Lemma short_point_undefined :
  @locatePoint (closure_reader triangle_arrows) 0 [0.25%float] triangle_world = Undefined.
Proof. vm_compute. reflexivity. Qed.

(** ** Boundary values and their broadcast *)

Lemma int_of_size_small (n : nat) : Z.of_nat n < 2 ^ 31 → int_of_size n = Z.of_nat n.
Proof.
  intros Hn. unfold int_of_size.
  rewrite Z.mod_small by lia.
  destruct (Z.ltb_spec (Z.of_nat n) (2 ^ 31)); lia.
Qed.

Lemma map_entries_Permutation {V} (m : gmap Z V) : map_entries m ≡ₚ map_to_list m.
Proof. apply merge_sort_Permutation. Qed.

Lemma length_map_entries {V} (m : gmap Z V) : length (map_entries m) = size m.
Proof. by rewrite map_entries_Permutation, length_map_to_list. Qed.

Lemma elem_of_map_entries {V} (m : gmap Z V) k x :
  (k, x) ∈ map_entries m ↔ m !! k = Some x.
Proof. by rewrite map_entries_Permutation, elem_of_map_to_list. Qed.

(** The iterator visits the keys in ascending order. *)
Lemma map_entries_sorted {V} (m : gmap Z V) : Sorted entry_le (map_entries m).
Proof.
  apply Sorted_merge_sort. intros x y. unfold entry_le. lia.
Qed.

Lemma insert_entries_union l (m : gmap Z bc_value_type) :
  NoDup l.*1 → insert_entries l m = list_to_map l ∪ m.
Proof.
  revert m. induction l as [|[k x] l IH]; intros m Hl; simpl.
  - by rewrite (left_id_L ∅ (∪)).
  - inversion_clear Hl as [|? ? Hk Hl']. unfold insert_entries in *. simpl.
    rewrite IH by done. rewrite <-insert_union_l.
    by rewrite insert_union_r by by apply not_elem_of_list_to_map_1.
Qed.

Lemma insert_map_entries (m prior : gmap Z bc_value_type) :
  insert_entries (map_entries m) prior = m ∪ prior.
Proof.
  rewrite insert_entries_union.
  - f_equal. rewrite <-(list_to_map_to_list m) at 2.
    apply list_to_map_proper; [|apply map_entries_Permutation].
    rewrite map_entries_Permutation. apply NoDup_fst_map_to_list.
  - rewrite map_entries_Permutation. apply NoDup_fst_map_to_list.
Qed.

Lemma set_outbox_app l1 l2 w :
  set_outbox (λ out, out ++ l2) (set_outbox (λ out, out ++ l1) w) =
  set_outbox (λ out, out ++ (l1 ++ l2)) w.
Proof. destruct w. unfold set_outbox. simpl. by rewrite <-app_assoc. Qed.

Lemma set_outbox_nil w : set_outbox (λ out, out ++ []) w = w.
Proof. destruct w. unfold set_outbox. simpl. by rewrite app_nil_r. Qed.

(** The sending loop of rank 0. *)
Lemma send_entries l w :
  _commRank (base (mesh w)) = 0 →
  for_each l (λ '(funcNum, funcVal),
    MPI_Bcast_int funcNum;; MPI_Bcast_double4 funcVal;; mret tt) w =
  Ok (tt, set_outbox (λ out, out ++ entry_msgs l) w).
Proof.
  revert w. induction l as [|[k x] l IH]; intros w Hr; simpl.
  - by rewrite set_outbox_nil.
  - unfold MPI_Bcast_int, MPI_Bcast_double4. mstep.
    rewrite !bool_decide_eq_true_2 by done. simpl.
    rewrite IH by done. rewrite !set_outbox_app. done.
Qed.

(** One pass of the receiving loop. *)
Lemma receive_entry k x rest w :
  _commRank (base (mesh w)) ≠ 0 →
  inbox w = MsgInt k :: MsgDouble4 x :: rest →
  (funcNum ← MPI_Bcast_int 0;
   funcVal ← MPI_Bcast_double4 bc_zero;
   modify (set_mesh (set_bcValues (insert funcNum funcVal)))) w =
  Ok (tt, set_inbox (λ _, rest) (set_mesh (set_bcValues (insert k x)) w)).
Proof.
  intros Hr Hin. unfold MPI_Bcast_int, MPI_Bcast_double4. mstep.
  rewrite !bool_decide_eq_false_2 by done. rewrite Hin. simpl.
  rewrite bool_decide_eq_false_2 by done. simpl.
  destruct w as [[] ? ? ? ?]; reflexivity.
Qed.

(** The receiving loop of the other ranks: one pass per entry. *)
Lemma receive_entries {A} (passes : list A) l rest w :
  _commRank (base (mesh w)) ≠ 0 →
  length passes = length l →
  inbox w = entry_msgs l ++ rest →
  for_each passes (λ _,
    funcNum ← MPI_Bcast_int 0;
    funcVal ← MPI_Bcast_double4 bc_zero;
    modify (set_mesh (set_bcValues (insert funcNum funcVal)))) w =
  Ok (tt, set_inbox (λ _, rest) (set_mesh (set_bcValues (insert_entries l)) w)).
Proof.
  revert passes w. induction l as [|[k x] l IH]; intros [|i passes] w Hr Hlen Hin;
    simpl in *; try discriminate.
  - destruct w as [[] ? ? ? ?]; simpl in *. by subst.
  - rewrite (bind_Ok _ _ _ _ _ (receive_entry k x _ w Hr Hin)).
    rewrite IH; simpl; [|done|lia|done].
    destruct w as [[] ? ? ? ?]; reflexivity.
Qed.

Lemma MPI_Bcast_int_root buf w :
  _commRank (base (mesh w)) = 0 →
  MPI_Bcast_int buf w = Ok (buf, set_outbox (λ out, out ++ [MsgInt buf]) w).
Proof.
  intros Hr. unfold MPI_Bcast_int. mstep. by rewrite bool_decide_eq_true_2.
Qed.

Lemma MPI_Bcast_int_other buf n rest w :
  _commRank (base (mesh w)) ≠ 0 → inbox w = MsgInt n :: rest →
  MPI_Bcast_int buf w = Ok (n, set_inbox (λ _, rest) w).
Proof.
  intros Hr Hin. unfold MPI_Bcast_int. mstep.
  rewrite bool_decide_eq_false_2 by done. by rewrite Hin.
Qed.

Lemma distributeBCValues_root w :
  _commRank (base (mesh w)) = 0 →
  distributeBCValues w =
    Ok (tt, set_outbox (λ out, out ++ MsgInt (int_of_size (size (_bcValues (mesh w)))) ::
                                      entry_msgs (map_entries (_bcValues (mesh w)))) w).
Proof.
  intros Hr. unfold distributeBCValues.
  rewrite (bind_Ok get _ w w w eq_refl).
  rewrite (bind_Ok _ _ _ _ _ (MPI_Bcast_int_root _ w Hr)).
  rewrite bool_decide_eq_false_2 by (intros Hne; by apply Hne).
  rewrite send_entries by done. by rewrite set_outbox_app.
Qed.

Lemma distributeBCValues_other w l rest :
  _commRank (base (mesh w)) ≠ 0 →
  inbox w = MsgInt (Z.of_nat (length l)) :: entry_msgs l ++ rest →
  distributeBCValues w =
    Ok (tt, set_inbox (λ _, rest) (set_mesh (set_bcValues (insert_entries l)) w)).
Proof.
  intros Hr Hin. unfold distributeBCValues.
  rewrite (bind_Ok get _ w w w eq_refl).
  rewrite (bind_Ok _ _ _ _ _ (MPI_Bcast_int_other _ _ _ w Hr Hin)).
  rewrite bool_decide_eq_true_2 by done.
  rewrite (receive_entries _ l rest); simpl; [|done| |done].
  - destruct w as [[] ? ? ? ?]; reflexivity.
  - rewrite length_seqZ. lia.
Qed.

Lemma union_covered (m1 m2 : gmap Z bc_value_type) :
  dom m2 ⊆ dom m1 → m1 ∪ m2 = m1.
Proof.
  intros Hsub. apply map_eq. intros i. rewrite lookup_union.
  destruct (m1 !! i) as [x|] eqn:E1; [by destruct (m2 !! i)|].
  assert (m2 !! i = None) as ->; [|done].
  apply not_elem_of_dom. intros Hi. apply Hsub in Hi.
  by apply not_elem_of_dom in E1.
Qed.

(** What a two-process run of [distributeBCValues] leaves. *)
Lemma distributeBCValues_run2 root other :
  _commRank (base (mesh root)) = 0 → _commRank (base (mesh other)) = 1 →
  (size (_bcValues (mesh root)) ≤ 16)%nat →
  ∃ root' other',
    run2 distributeBCValues root other = Ok (root', other') ∧
    _bcValues (mesh root') = _bcValues (mesh root) ∧
    _bcValues (mesh other') = _bcValues (mesh root) ∪ _bcValues (mesh other).
Proof.
  intros Hr Ho Hsize. unfold run2.
  rewrite distributeBCValues_root by done. simpl.
  rewrite int_of_size_small by (change (2 ^ 31) with 2147483648; lia).
  rewrite <-length_map_entries.
  rewrite (distributeBCValues_other _ (map_entries (_bcValues (mesh root))) []);
    simpl; [|lia|by rewrite app_nil_r].
  do 2 eexists. split; [reflexivity|]. simpl. split; [done|].
  apply insert_map_entries.
Qed.

(** C3, as amended: on a two-process run with a root table of at most 16
    records, [distributeBCValues] leaves the root's table as it is and leaves
    on the other process the root's table merged over that process's prior
    table, an entry of the root replacing a prior entry under the same id.
    The other table therefore equals the root's when every prior id is an id
    of the root's table, as with an empty prior table, and the call changes
    no table when the root's table is empty. *)
Theorem distributeBCValues_two_processes (root other : World) :
  _commRank (base (mesh root)) = 0 → _commRank (base (mesh other)) = 1 →
  (size (_bcValues (mesh root)) ≤ 16)%nat →
  ∃ root' other',
    run2 distributeBCValues root other = Ok (root', other') ∧
    _bcValues (mesh root') = _bcValues (mesh root) ∧
    _bcValues (mesh other') = _bcValues (mesh root) ∪ _bcValues (mesh other) ∧
    (dom (_bcValues (mesh other)) ⊆ dom (_bcValues (mesh root)) →
       _bcValues (mesh other') = _bcValues (mesh root)) ∧
    (_bcValues (mesh root) = ∅ →
       _bcValues (mesh root') = _bcValues (mesh root) ∧
       _bcValues (mesh other') = _bcValues (mesh other)).
Proof.
  intros Hr Ho Hsize.
  destruct (distributeBCValues_run2 root other Hr Ho Hsize) as (root' & other' & Hrun & Hroot & Hother).
  exists root', other'. do 3 (split; [done|]). split.
  - intros Hsub. rewrite Hother. by apply union_covered.
  - intros Hempty. split; [done|]. rewrite Hother, Hempty. by rewrite (left_id_L ∅ (∪)).
Qed.

Lemma distributeBCValues_two_processes_witness :
  let root := bc_world 0 {[1 := bc_inflow; 2 := bc_zero]} in
  let other := bc_world 1 {[2 := bc_inflow; 5 := bc_inflow]} in
  ∃ root' other',
    run2 distributeBCValues root other = Ok (root', other') ∧
    _bcValues (mesh root') = _bcValues (mesh root) ∧
    _bcValues (mesh other') = _bcValues (mesh root) ∪ _bcValues (mesh other) ∧
    (dom (_bcValues (mesh other)) ⊆ dom (_bcValues (mesh root)) →
       _bcValues (mesh other') = _bcValues (mesh root)) ∧
    (_bcValues (mesh root) = ∅ →
       _bcValues (mesh root') = _bcValues (mesh root) ∧
       _bcValues (mesh other') = _bcValues (mesh other)).
Proof.
  intros root other.
  apply (distributeBCValues_two_processes root other).
  - reflexivity.
  - reflexivity.
  - vm_compute. lia.
Defined.

(** C3, as stated, fails: with an empty root table and a prior entry on the
    other process, the run changes nothing and the two tables differ. *)
Lemma distributeBCValues_keeps_prior_entries :
  (size (_bcValues (mesh (bc_world 0 ∅))) ≤ 16)%nat ∧
  ∃ root' other',
    run2 distributeBCValues (bc_world 0 ∅) (bc_world 1 {[7 := bc_inflow]}) =
      Ok (root', other') ∧
    _bcValues (mesh root') = ∅ ∧
    _bcValues (mesh other') = {[7 := bc_inflow]} ∧
    _bcValues (mesh other') ≠ _bcValues (mesh root').
Proof.
  split; [vm_compute; lia|].
  destruct (distributeBCValues_run2 (bc_world 0 ∅) (bc_world 1 {[7 := bc_inflow]}))
    as (root' & other' & Hrun & Hroot & Hother); [done|done|vm_compute; lia|].
  exists root', other'. split; [done|]. simpl in *.
  rewrite (left_id_L ∅ (∪)) in Hother. rewrite Hroot, Hother.
  repeat split. intros E. apply (f_equal (λ m, m !! 7)) in E.
  rewrite lookup_singleton_eq, lookup_empty in E. discriminate.
Qed.

Lemma entry_msgs_app l1 l2 : entry_msgs (l1 ++ l2) = entry_msgs l1 ++ entry_msgs l2.
Proof. unfold entry_msgs. by rewrite flat_map_app. Qed.

(** C9: [getBCValue] on an id that is not in the table does not throw.  It
    stores a value-initialised record (all four fields 0.0) under the id and
    returns it, so the table has one entry more; a following
    [distributeBCValues] on rank 0 broadcasts the new size and, among the
    entries, the id followed by that record. *)
Theorem getBCValue_absent_inserts_default (w : World) (bcFunc : Z) :
  _bcValues (mesh w) !! bcFunc = None →
  ∃ w1,
    getBCValue bcFunc w = Ok (bc_zero, w1) ∧
    _bcValues (mesh w1) = <[bcFunc := bc_zero]> (_bcValues (mesh w)) ∧
    size (_bcValues (mesh w1)) = S (size (_bcValues (mesh w))) ∧
    (_commRank (base (mesh w)) = 0 →
     ∃ w2 before after,
       distributeBCValues w1 = Ok (tt, w2) ∧
       outbox w2 = outbox w ++ MsgInt (int_of_size (S (size (_bcValues (mesh w))))) ::
                   before ++ MsgInt bcFunc :: MsgDouble4 bc_zero :: after).
Proof.
  intros Habsent.
  exists (set_mesh (set_bcValues (λ _, <[bcFunc := bc_zero]> (_bcValues (mesh w)))) w).
  split; [|split; [done|split]].
  - unfold getBCValue. mstep. by rewrite (subscript_absent _ _ _ Habsent).
  - simpl. by apply map_size_insert_None.
  - intros Hr. rewrite distributeBCValues_root by done. simpl.
    rewrite map_size_insert_None by done.
    assert (Hin : (bcFunc, bc_zero) ∈ map_entries (<[bcFunc := bc_zero]> (_bcValues (mesh w))))
      by (apply elem_of_map_entries, lookup_insert_eq).
    apply list_elem_of_split in Hin as (l1 & l2 & Hsplit).
    eexists _, (entry_msgs l1), (entry_msgs l2). split; [reflexivity|]. simpl.
    by rewrite Hsplit, entry_msgs_app.
Qed.

Lemma getBCValue_absent_inserts_default_witness :
  let w := bc_world 0 {[1 := bc_inflow]} in
  ∃ w1,
    getBCValue 3 w = Ok (bc_zero, w1) ∧
    _bcValues (mesh w1) = <[3 := bc_zero]> (_bcValues (mesh w)) ∧
    size (_bcValues (mesh w1)) = S (size (_bcValues (mesh w))) ∧
    (_commRank (base (mesh w)) = 0 →
     ∃ w2 before after,
       distributeBCValues w1 = Ok (tt, w2) ∧
       outbox w2 = outbox w ++ MsgInt (int_of_size (S (size (_bcValues (mesh w))))) ::
                   before ++ MsgInt 3 :: MsgDouble4 bc_zero :: after).
Proof.
  intros w. apply (getBCValue_absent_inserts_default w 3). reflexivity.
Defined.

(** The broadcast after such a read, on a table that held one entry. *)
Lemma getBCValue_then_broadcast :
  (getBCValue 3;; distributeBCValues;; gets outbox) (bc_world 0 {[1 := bc_inflow]}) =
  Ok ([MsgInt 2; MsgInt 1; MsgDouble4 bc_inflow; MsgInt 3; MsgDouble4 bc_zero],
      set_outbox (λ _, [MsgInt 2; MsgInt 1; MsgDouble4 bc_inflow; MsgInt 3; MsgDouble4 bc_zero])
        (bc_world 0 {[1 := bc_inflow; 3 := bc_zero]})).
Proof. vm_compute. reflexivity. Qed.

(** ** Field setup *)

Lemma add_calls_nil so : add_calls [] so = so.
Proof. destruct so. unfold add_calls. simpl. by rewrite app_nil_r. Qed.

Lemma add_calls_app l1 l2 so : add_calls l2 (add_calls l1 so) = add_calls (l1 ++ l2) so.
Proof. unfold add_calls. simpl. by rewrite app_assoc. Qed.

Lemma setup_state_start w disc a so :
  _discretization (mesh w) = Some disc → heap w !! a = Some (RealSection so) →
  setup_state w disc a so [] w.
Proof.
  intros Hdisc Hso. repeat split; try done.
  - by exists disc.
  - by rewrite add_calls_nil, insert_id.
Qed.

Lemma getNumDof_step w0 disc a so extra w d :
  setup_state w0 disc a so extra w →
  ∃ w', getNumDof d w = Ok (numDof disc d, w') ∧ setup_state w0 disc a so extra w'.
Proof.
  intros (Hbase & Hdim & Hbc & (disc' & Hdisc & Hdof) & Hheap).
  unfold getNumDof. mstep. rewrite Hdisc. unfold subscript.
  destruct (_dim2dof disc' !! d) as [n|] eqn:E; simpl.
  - eexists. split.
    + f_equal. f_equal. rewrite <-Hdof. unfold numDof. by rewrite E.
    + repeat split; try done. simpl. exists disc'. split; [|done]. by destruct disc'.
  - eexists. split.
    + f_equal. f_equal. rewrite <-Hdof. unfold numDof. by rewrite E.
    + repeat split; try done. simpl. eexists. split; [done|].
      intros d'. rewrite <-Hdof. unfold numDof. simpl.
      destruct (decide (d = d')) as [<-|Hne].
      * by rewrite lookup_insert_eq, E.
      * by rewrite lookup_insert_ne.
Qed.

Lemma call_section_step w0 disc a so extra w c :
  setup_state w0 disc a so extra w →
  ∃ w', call_section (ObjRef a) c w = Ok (tt, w') ∧
        setup_state w0 disc a so (extra ++ [c]) w'.
Proof.
  intros (Hbase & Hdim & Hbc & Hdisc & Hheap).
  unfold call_section. rewrite Hheap, lookup_insert_eq.
  eexists. split; [reflexivity|]. repeat split; try done. simpl.
  rewrite Hheap, insert_insert_eq. do 2 f_equal. apply add_calls_app.
Qed.

(** A loop whose every pass makes one call on the section. *)
Lemma for_each_calls {A} (l : list A) (body : A → M unit) (mk : A → SectionCall)
    w0 disc a so :
  (∀ x extra w, setup_state w0 disc a so extra w →
     ∃ w', body x w = Ok (tt, w') ∧ setup_state w0 disc a so (extra ++ [mk x]) w') →
  ∀ extra w, setup_state w0 disc a so extra w →
    ∃ w', for_each l body w = Ok (tt, w') ∧
          setup_state w0 disc a so (extra ++ (mk <$> l)) w'.
Proof.
  intros Hbody. induction l as [|x l IH]; intros extra w Hst; simpl.
  - exists w. split; [done|]. by rewrite app_nil_r.
  - destruct (Hbody x extra w Hst) as (w1 & Hrun & Hst1).
    rewrite (bind_Ok _ _ _ _ _ Hrun).
    destruct (IH _ _ Hst1) as (w2 & Hrun2 & Hst2).
    exists w2. split; [done|]. by rewrite <-app_assoc in Hst2.
Qed.

Lemma bulk_loop w0 disc a so extra w dim :
  setup_state w0 disc a so extra w →
  ∃ w', for_each (seqZ 0 dim) (λ d,
          numDof ← getNumDof d;
          call_section (ObjRef a) (SetFiberDimensionByDepth 0 d numDof)) w = Ok (tt, w') ∧
        setup_state w0 disc a so (extra ++ bulk_calls disc dim) w'.
Proof.
  apply for_each_calls. clear. intros d extra w Hst.
  destruct (getNumDof_step _ _ _ _ _ _ d Hst) as (w1 & Hrun & Hst1).
  rewrite (bind_Ok _ _ _ _ _ Hrun). by apply call_section_step.
Qed.

Lemma override_loop w0 disc a so extra w boundary :
  setup_state w0 disc a so extra w →
  ∃ w', for_each boundary (λ e,
          depth_e ← gets (λ w, depth (_topology (base (mesh w))) 0 e);
          numDof ← getNumDof depth_e;
          call_section (ObjRef a) (SetFiberDimension 0 e (- numDof))) w = Ok (tt, w') ∧
        setup_state w0 disc a so
          (extra ++ override_calls disc (_topology (base (mesh w0))) boundary) w'.
Proof.
  apply for_each_calls. clear. intros e extra w Hst.
  rewrite (bind_Ok (gets _) _ w _ w eq_refl).
  destruct Hst as (Hbase & Hst). rewrite Hbase.
  destruct (getNumDof_step _ _ _ _ _ _ (depth (_topology (base (mesh w0))) 0 e)
              (conj Hbase Hst)) as (w1 & Hrun & Hst1).
  rewrite (bind_Ok _ _ _ _ _ Hrun). by apply call_section_step.
Qed.

Section SetupFacts.
Context `{SectionReader}.

Lemma update_loop w0 disc a so extra w boundary bc func c csec :
  _boundaryCondition (mesh w0) = Some bc → _func bc = Some func →
  c ≠ a → heap w0 !! c = Some (RealSection csec) →
  setup_state w0 disc a so extra w →
  ∃ w', for_each boundary (λ e,
          section ← deref_real (ObjRef c);
          let coords := restrictPoint section 0 e in
          value ← evaluate coords;
          call_section (ObjRef a) (UpdateBC 0 e value)) w = Ok (tt, w') ∧
        setup_state w0 disc a so (extra ++ update_calls func csec boundary) w'.
Proof.
  intros Hbc Hfunc Hne Hc. apply for_each_calls. intros e extra' w' Hst.
  assert (Hc' : heap w' !! c = Some (RealSection csec)).
  { destruct Hst as (_ & _ & _ & _ & ->). by rewrite lookup_insert_ne. }
  rewrite (bind_Ok _ _ _ _ _ (deref_real_live _ _ _ Hc')).
  assert (Hev : evaluate (restrictPoint csec 0 e) w' =
                Ok (func (restrictPoint csec 0 e), w')).
  { unfold evaluate. mstep. destruct Hst as (_ & _ & -> & _). by rewrite Hbc, Hfunc. }
  rewrite (bind_Ok _ _ _ _ _ Hev). by apply call_section_step.
Qed.

End SetupFacts.

Section SetupField.
Context `{SectionReader}.

Lemma getLabelName_set w bc :
  _boundaryCondition (mesh w) = Some bc → getLabelName w = Ok (_labelName bc, w).
Proof. intros Hbc. unfold getLabelName. mstep. by rewrite Hbc. Qed.

(** The calls [setupField] makes on its section, in order: the bulk
    assignments, then (under a non-empty label) the overrides of the marked
    points, [allocate], and (under a non-empty label) the boundary values. *)
Lemma setupField_calls w a so disc bc func c csec :
  heap w !! a = Some (RealSection so) →
  _discretization (mesh w) = Some disc →
  _boundaryCondition (mesh w) = Some bc →
  (_labelName bc ≠ "" →
     _func bc = Some func ∧
     _realSections (base (mesh w)) !! "coordinates" = Some (ObjRef c) ∧
     c ≠ a ∧ heap w !! c = Some (RealSection csec)) →
  let topology := _topology (base (mesh w)) in
  let boundary := getLabelStratum topology 0 (_labelName bc) 1 in
  ∃ w', setupField (ObjRef a) w = Ok (tt, w') ∧
        setup_state w disc a so
          (bulk_calls disc (_dim (mesh w)) ++
           if decide (_labelName bc = "") then [Allocate]
           else override_calls disc topology boundary ++ [Allocate] ++
                update_calls func csec boundary) w'.
Proof.
  intros Hso Hdisc Hbc Hlabel topology boundary. unfold setupField.
  rewrite (bind_Ok _ _ _ _ _ (getLabelName_set _ _ Hbc)).
  rewrite (bind_Ok (gets _) _ w _ w eq_refl).
  destruct (bulk_loop w disc a so [] w (_dim (mesh w)) (setup_state_start _ _ _ _ Hdisc Hso))
    as (w1 & Hrun1 & Hst1).
  rewrite (bind_Ok _ _ _ _ _ Hrun1). simpl in Hst1.
  destruct (decide (_labelName bc = "")) as [Hempty|Hne].
  - rewrite Hempty. simpl.
    rewrite (bind_Ok (mret tt) _ w1 tt w1 eq_refl).
    destruct (call_section_step _ _ _ _ _ _ Allocate Hst1) as (w2 & Hrun2 & Hst2).
    rewrite (bind_Ok _ _ _ _ _ Hrun2). by exists w2.
  - destruct (Hlabel Hne) as (Hfunc & Hreg & Hca & Hc).
    destruct (String.eqb_spec (_labelName bc) "") as [|_]; [done|]. simpl.
    assert (Hbase1 : base (mesh w1) = base (mesh w)) by apply Hst1.
    destruct (override_loop _ _ _ _ _ _ boundary Hst1) as (w2 & Hrun2 & Hst2).
    assert (Hover : (gets (λ w, getLabelStratum (_topology (base (mesh w))) 0 (_labelName bc) 1)
                     ≫= λ boundary, for_each boundary (λ e,
                          depth_e ← gets (λ w, depth (_topology (base (mesh w))) 0 e);
                          numDof ← getNumDof depth_e;
                          call_section (ObjRef a) (SetFiberDimension 0 e (- numDof)))) w1 =
                    Ok (tt, w2)).
    { rewrite (bind_Ok (gets _) _ w1 _ w1 eq_refl). by rewrite Hbase1. }
    rewrite (bind_Ok _ _ _ _ _ Hover).
    destruct (call_section_step _ _ _ _ _ _ Allocate Hst2) as (w3 & Hrun3 & Hst3).
    rewrite (bind_Ok _ _ _ _ _ Hrun3).
    assert (Hbase3 : base (mesh w3) = base (mesh w)) by apply Hst3.
    assert (Hget : getRealSection "coordinates" w3 = Ok (ObjRef c, w3))
      by (apply getRealSection_registered; by rewrite Hbase3).
    rewrite (bind_Ok _ _ _ _ _ Hget).
    rewrite (bind_Ok (gets _) _ w3 _ w3 eq_refl). rewrite Hbase3.
    destruct (update_loop _ _ _ _ _ _ boundary bc func c csec Hbc Hfunc Hca Hc Hst3)
      as (w4 & Hrun4 & Hst4).
    exists w4. split; [done|]. by rewrite <-!app_assoc in Hst4.
Qed.

End SetupField.

(** ** What the calls of the field setup assign *)


(** *** The section, call by call *)








(** The two checks of the section: a fiber-dimension change after
    [allocate] and an [updateBC] on a point whose fiber dimension is not
    negative are not accepted. *)
Lemma dimension_call_after_allocate topology st c :
  st_allocated st = true → is_dimension_call c → section_call topology st c = None.
Proof. intros Hst. destruct c; simpl; try done; by rewrite Hst. Qed.

Lemma updateBC_unconstrained_point topology st patch e value dim :
  st_dim st patch e = Some dim → 0 ≤ dim →
  section_call topology st (UpdateBC patch e value) = None.
Proof.
  intros Hdim Hpos. simpl. rewrite Hdim.
  rewrite (proj2 (Z.ltb_ge _ _) Hpos). by rewrite andb_false_r.
Qed.

Section UpdateCalls.
Context `{SectionReader}.



End UpdateCalls.

Lemma calls_at_setup_state w0 disc a so extra w :
  setup_state w0 disc a so extra w → calls_at a w = Some (sec_calls so ++ extra).
Proof.
  intros (_ & _ & _ & _ & Hheap). unfold calls_at. by rewrite Hheap, lookup_insert_eq.
Qed.





(** The calls on the segment mesh under the label ["marker"]. *)
Lemma setupField_segment_marker :
  match @setupField (closure_reader segment_arrows) (ObjRef 1%nat) (segment_world "marker") with
  | Ok (_, w') => calls_at 1%nat w'
  | _ => None
  end =
  Some [SetFiberDimensionByDepth 0 0 1; SetFiberDimension 0 1 (-1);
        SetFiberDimension 0 2 (-1); Allocate; UpdateBC 0 1 0.5%float;
        UpdateBC 0 2 1.25%float].
Proof. vm_compute. reflexivity. Qed.

(** C1 fails on a mesh of dimension 1 with one dof on vertices and one on
    edges: the bulk loop runs for depth 0 only, so the only calls are the
    assignment for depth 0 and [allocate], and the edge (point 0, depth 1)
    is never given the dof count of dimension 1. *)
Theorem setupField_skips_top_dimension :
  numDof segment_discretization 1 = 1 ∧
  depth segment_topology 0 0 = _dim (mesh (segment_world "")) ∧
  match @setupField (closure_reader segment_arrows) (ObjRef 1%nat) (segment_world "") with
  | Ok (_, w') =>
      calls_at 1%nat w' = Some [SetFiberDimensionByDepth 0 0 1; Allocate] ∧
      (∀ calls, calls_at 1%nat w' = Some calls →
                fiberDimension segment_topology calls 0 0 = None)
  | _ => False
  end.
Proof.
  split; [reflexivity|]. split; [reflexivity|].
  vm_compute. split; [reflexivity|]. intros calls [= <-]. reflexivity.
Qed.

(** ** More of the section registries *)

Lemma collect_elem (l : list string) (acc : gset string) n :
  n ∈ foldl (λ names name, {[name]} ∪ names) acc l ↔ n ∈ acc ∨ n ∈ l.
Proof.
  revert acc. induction l as [|x l IH]; intros acc; simpl.
  - rewrite elem_of_nil. tauto.
  - rewrite IH, elem_of_union, elem_of_singleton, elem_of_cons. tauto.
Qed.

Lemma registry_names_elem {V} (m : gmap string V) n :
  n ∈ registry_names m ↔ is_Some (m !! n).
Proof.
  unfold registry_names. rewrite merge_sort_Permutation, list_elem_of_fmap. split.
  - intros ([k x] & -> & Hin). apply elem_of_map_to_list in Hin. simpl. eauto.
  - intros [x Hx]. exists (n, x). split; [done|]. by apply elem_of_map_to_list.
Qed.

(** The iterator of a registry visits the names in ascending order. *)
Lemma registry_names_sorted {V} (m : gmap string V) : Sorted string_le (registry_names m).
Proof. apply Sorted_merge_sort. intros x y. apply String.leb_total. Qed.

Lemma collect_names_dom {V} (m : gmap string V) : collect_names m = dom m.
Proof.
  apply set_eq. intros n. unfold collect_names.
  rewrite collect_elem, registry_names_elem, elem_of_dom, elem_of_empty. tauto.
Qed.

(** A handle stored by a set-call is what the get-call returns, null
    included: the get-call creates an object only when the name is absent,
    not when the handle under it is null.  The set-call replaces the handle
    under its name and leaves the handles under the other names and the
    output; what becomes of the object behind the handle it replaces is not
    stated. *)
Theorem setSection_then_getSection (name : string) (o : Obj) (w : World) :
  (∃ w1, setRealSection name o w = Ok (tt, w1) ∧
         getRealSection name w1 = Ok (o, w1) ∧ cout w1 = cout w ∧
         ∀ other, other ≠ name →
           _realSections (base (mesh w1)) !! other = _realSections (base (mesh w)) !! other) ∧
  (∃ w1, setIntSection name o w = Ok (tt, w1) ∧
         getIntSection name w1 = Ok (o, w1) ∧ cout w1 = cout w ∧
         ∀ other, other ≠ name →
           _intSections (base (mesh w1)) !! other = _intSections (base (mesh w)) !! other) ∧
  (∃ w1, setPairSection name o w = Ok (tt, w1) ∧
         getPairSection name w1 = Ok (o, w1) ∧ cout w1 = cout w ∧
         ∀ other, other ≠ name →
           _pairSections (base (mesh w1)) !! other = _pairSections (base (mesh w)) !! other).
Proof.
  split; [|split]; (eexists; split; [reflexivity|]).
  - split; [apply getRealSection_registered; simpl; apply lookup_insert_eq|].
    repeat split. intros other Hne. simpl. by rewrite lookup_insert_ne.
  - split; [apply getIntSection_registered; simpl; apply lookup_insert_eq|].
    repeat split. intros other Hne. simpl. by rewrite lookup_insert_ne.
  - split; [apply getPairSection_registered; simpl; apply lookup_insert_eq|].
    repeat split. intros other Hne. simpl. by rewrite lookup_insert_ne.
Qed.

Lemma getRealSection_creates_frame name w :
  _realSections (base (mesh w)) !! name = None →
  ∃ w', getRealSection name w = Ok (ObjRef (fresh (dom (heap w))), w') ∧
        heap w' = <[fresh (dom (heap w)) := RealSection new_section]> (heap w) ∧
        _intSections (base (mesh w')) = _intSections (base (mesh w)) ∧
        _pairSections (base (mesh w')) = _pairSections (base (mesh w)).
Proof.
  intros E. unfold getRealSection, hasRealSection, new, print_line. mstep.
  rewrite bool_decide_eq_false_2 by (rewrite E; intros [? ?]; discriminate). simpl.
  destruct (bool_decide (_debug (base (mesh w)) ≠ 0)); simpl;
    rewrite (subscript_present _ _ _ (ObjRef (fresh (dom (heap w)))))
      by apply lookup_insert_eq; simpl;
    (eexists; split; [reflexivity|]); simpl; auto.
Qed.

(** The name sets hold exactly the registered names of their registry, and a
    get-call adds its name to the set of its registry and nothing else. *)
Theorem getSections_names (name : string) (w : World) :
  (∃ names,
     getRealSections w = Ok (names, w) ∧
     (∀ n, n ∈ names ↔ hasRealSection n w = Ok (true, w)) ∧
     ∃ o w1, getRealSection name w = Ok (o, w1) ∧
             getRealSections w1 = Ok ({[name]} ∪ names, w1)) ∧
  (∃ names,
     getIntSections w = Ok (names, w) ∧
     (∀ n, n ∈ names ↔ hasIntSection n w = Ok (true, w)) ∧
     ∃ o w1, getIntSection name w = Ok (o, w1) ∧
             getIntSections w1 = Ok ({[name]} ∪ names, w1)) ∧
  (∃ names,
     getPairSections w = Ok (names, w) ∧
     (∀ n, n ∈ names ↔ hasPairSection n w = Ok (true, w)) ∧
     ∃ o w1, getPairSection name w = Ok (o, w1) ∧
             getPairSections w1 = Ok ({[name]} ∪ names, w1)).
Proof.
  split; [|split].
  - exists (dom (_realSections (base (mesh w)))). split; [|split].
    + unfold getRealSections, gets. by rewrite collect_names_dom.
    + intros n. rewrite elem_of_dom. unfold hasRealSection, gets. split.
      * intros Hn. by rewrite bool_decide_eq_true_2.
      * intros [= Hn]. by apply bool_decide_eq_true in Hn.
    + unfold getRealSections, gets.
      destruct (_realSections (base (mesh w)) !! name) as [o'|] eqn:E.
      * exists o', w. split; [by apply getRealSection_registered|].
        rewrite collect_names_dom. do 2 f_equal.
        apply elem_of_dom_2 in E. apply set_eq. intros n.
        rewrite elem_of_union, elem_of_singleton. split; [by right|]. by intros [->|?].
      * destruct (getRealSection_creates _ _ E) as (w' & Hrun & _ & _ & Hreg).
        eexists _, w'. split; [exact Hrun|].
        by rewrite collect_names_dom, Hreg, dom_insert_L.
  - exists (dom (_intSections (base (mesh w)))). split; [|split].
    + unfold getIntSections, gets. by rewrite collect_names_dom.
    + intros n. rewrite elem_of_dom. unfold hasIntSection, gets. split.
      * intros Hn. by rewrite bool_decide_eq_true_2.
      * intros [= Hn]. by apply bool_decide_eq_true in Hn.
    + unfold getIntSections, gets.
      destruct (_intSections (base (mesh w)) !! name) as [o'|] eqn:E.
      * exists o', w. split; [by apply getIntSection_registered|].
        rewrite collect_names_dom. do 2 f_equal.
        apply elem_of_dom_2 in E. apply set_eq. intros n.
        rewrite elem_of_union, elem_of_singleton. split; [by right|]. by intros [->|?].
      * destruct (getIntSection_creates _ _ E) as (w' & Hrun & _ & _ & Hreg & _).
        eexists _, w'. split; [exact Hrun|].
        by rewrite collect_names_dom, Hreg, dom_insert_L.
  - exists (dom (_pairSections (base (mesh w)))). split; [|split].
    + unfold getPairSections, gets. by rewrite collect_names_dom.
    + intros n. rewrite elem_of_dom. unfold hasPairSection, gets. split.
      * intros Hn. by rewrite bool_decide_eq_true_2.
      * intros [= Hn]. by apply bool_decide_eq_true in Hn.
    + unfold getPairSections, gets.
      destruct (_pairSections (base (mesh w)) !! name) as [o'|] eqn:E.
      * exists o', w. split; [by apply getPairSection_registered|].
        rewrite collect_names_dom. do 2 f_equal.
        apply elem_of_dom_2 in E. apply set_eq. intros n.
        rewrite elem_of_union, elem_of_singleton. split; [by right|]. by intros [->|?].
      * destruct (getPairSection_creates _ _ E) as (w' & Hrun & _ & _ & Hreg & _).
        eexists _, w'. split; [exact Hrun|].
        by rewrite collect_names_dom, Hreg, dom_insert_L.
Qed.

(** The three registries are separate name spaces over one heap: the same
    name, absent from all three, gets three different objects, one of each
    kind, and each get-call leaves the objects created before it in place. *)
Theorem registries_share_no_object (name : string) (w : World) :
  _realSections (base (mesh w)) !! name = None →
  _intSections (base (mesh w)) !! name = None →
  _pairSections (base (mesh w)) !! name = None →
  ∃ r i q w3,
    (real ← getRealSection name; int ← getIntSection name; pair ← getPairSection name;
     mret (real, int, pair)) w = Ok ((ObjRef r, ObjRef i, ObjRef q), w3) ∧
    r ≠ i ∧ r ≠ q ∧ i ≠ q ∧
    heap w !! r = None ∧ heap w !! i = None ∧ heap w !! q = None ∧
    heap w3 !! r = Some (RealSection new_section) ∧
    heap w3 !! i = Some IntSection ∧
    heap w3 !! q = Some PairSection ∧
    (∀ b x, heap w !! b = Some x → heap w3 !! b = Some x).
Proof.
  intros Hr Hi Hq.
  destruct (getRealSection_creates_frame name w Hr) as (w1 & Hrun1 & Hheap1 & Hi1 & Hq1).
  rewrite <-Hi1 in Hi. rewrite <-Hq1 in Hq.
  destruct (getIntSection_creates name w1 Hi) as (w2 & Hrun2 & Hf2 & Hheap2 & _ & _ & Hq2).
  rewrite <-Hq2 in Hq.
  destruct (getPairSection_creates name w2 Hq) as (w3 & Hrun3 & Hf3 & Hheap3 & _).
  set (r := fresh (dom (heap w))) in *.
  set (i := fresh (dom (heap w1))) in *.
  set (q := fresh (dom (heap w2))) in *.
  assert (Hfr : heap w !! r = None) by (apply not_elem_of_dom, is_fresh).
  assert (Hri : r ≠ i) by (intros ->; rewrite Hheap1, lookup_insert_eq in Hf2; done).
  assert (Hiq : i ≠ q) by (intros ->; rewrite Hheap2, lookup_insert_eq in Hf3; done).
  assert (Hrq : r ≠ q).
  { intros ->. rewrite Hheap2, lookup_insert_ne, Hheap1, lookup_insert_eq in Hf3; done. }
  assert (Hfi : heap w !! i = None)
    by (rewrite Hheap1, lookup_insert_ne in Hf2; done).
  assert (Hfq : heap w !! q = None)
    by (rewrite Hheap2, lookup_insert_ne, Hheap1, lookup_insert_ne in Hf3; done).
  exists r, i, q, w3. split.
  { rewrite (bind_Ok _ _ _ _ _ Hrun1), (bind_Ok _ _ _ _ _ Hrun2), (bind_Ok _ _ _ _ _ Hrun3).
    reflexivity. }
  do 6 (split; [done|]).
  rewrite Hheap3, Hheap2, Hheap1. split.
  { by rewrite !lookup_insert_ne, lookup_insert_eq by done. } split.
  { by rewrite lookup_insert_ne, lookup_insert_eq by done. } split.
  { by rewrite lookup_insert_eq. }
  intros b x Hb. rewrite !lookup_insert_ne; [done| | |]; intros <-; congruence.
Qed.

Lemma registries_share_no_object_witness :
  ∃ r i q w3,
    (real ← getRealSection "velocity"; int ← getIntSection "velocity";
     pair ← getPairSection "velocity"; mret (real, int, pair)) triangle_world =
      Ok ((ObjRef r, ObjRef i, ObjRef q), w3) ∧
    r ≠ i ∧ r ≠ q ∧ i ≠ q ∧
    heap triangle_world !! r = None ∧ heap triangle_world !! i = None ∧
    heap triangle_world !! q = None ∧
    heap w3 !! r = Some (RealSection new_section) ∧
    heap w3 !! i = Some IntSection ∧
    heap w3 !! q = Some PairSection ∧
    (∀ b x, heap triangle_world !! b = Some x → heap w3 !! b = Some x).
Proof.
  apply (registries_share_no_object "velocity" triangle_world); reflexivity.
Defined.

(** ** More of the boundary-value table *)

Lemma set_bcValues_same w :
  set_mesh (set_bcValues (λ _, _bcValues (mesh w))) w = w.
Proof. by destruct w as [[] ? ? ? ?]. Qed.

Lemma getBCValue_present bcFunc value w :
  _bcValues (mesh w) !! bcFunc = Some value → getBCValue bcFunc w = Ok (value, w).
Proof.
  intros E. unfold getBCValue. mstep. rewrite (subscript_present _ _ _ _ E). simpl.
  by rewrite set_bcValues_same.
Qed.

(** A record stored by [setBCValue] is what [getBCValue] returns under that
    id, and that read changes nothing; the records under the other ids stay,
    and the table grows by one entry exactly when the id was new. *)
Theorem setBCValue_then_getBCValue (bcFunc : Z) (value : bc_value_type) (w : World) :
  ∃ w1,
    setBCValue bcFunc value w = Ok (tt, w1) ∧
    getBCValue bcFunc w1 = Ok (value, w1) ∧
    (∀ other, other ≠ bcFunc →
       _bcValues (mesh w1) !! other = _bcValues (mesh w) !! other) ∧
    size (_bcValues (mesh w1)) =
      match _bcValues (mesh w) !! bcFunc with
      | Some _ => size (_bcValues (mesh w))
      | None => S (size (_bcValues (mesh w)))
      end.
Proof.
  eexists. split; [reflexivity|]. split; [|split].
  - apply getBCValue_present. simpl. apply lookup_insert_eq.
  - intros other Hne. simpl. by rewrite lookup_insert_ne.
  - simpl. destruct (_bcValues (mesh w) !! bcFunc) eqn:E.
    + by rewrite map_size_insert_Some.
    + by rewrite map_size_insert_None.
Qed.

Lemma entries_strictly_ascending {V} (l : list (Z * V)) :
  StronglySorted entry_le l → NoDup l.*1 → StronglySorted Z.lt l.*1.
Proof.
  induction 1 as [|[k x] l Hl IH Hall]; intros Hnd; simpl; [constructor|].
  inversion_clear Hnd as [|? ? Hk Hnd']. constructor; [by apply IH|].
  apply Forall_fmap, Forall_forall. intros [k' x'] Hin.
  rewrite Forall_forall in Hall. pose proof (Hall _ Hin) as Hle.
  unfold entry_le in Hle. simpl in *.
  assert (k ≠ k'); [|lia].
  intros ->. apply Hk. apply list_elem_of_fmap. by exists (k', x').
Qed.

Lemma length_entry_msgs l : length (entry_msgs l) = (2 * length l)%nat.
Proof.
  induction l as [|[k x] l IH]; [done|].
  change (entry_msgs ((k, x) :: l)) with (MsgInt k :: MsgDouble4 x :: entry_msgs l).
  simpl. rewrite IH. lia.
Qed.

(** On rank 0 [distributeBCValues] keeps the whole mesh as it is and sends,
    after what was sent before, the table size and then, for the ids in
    strictly ascending order, each id followed by its record: one message
    and two more per entry. *)
Theorem distributeBCValues_sends_sorted (w : World) :
  _commRank (base (mesh w)) = 0 →
  ∃ w' entries,
    distributeBCValues w = Ok (tt, w') ∧
    mesh w' = mesh w ∧ heap w' = heap w ∧ inbox w' = inbox w ∧
    outbox w' = outbox w ++ MsgInt (int_of_size (size (_bcValues (mesh w)))) ::
                entry_msgs entries ∧
    length (entry_msgs entries) = (2 * size (_bcValues (mesh w)))%nat ∧
    StronglySorted Z.lt entries.*1 ∧
    (∀ k x, (k, x) ∈ entries ↔ _bcValues (mesh w) !! k = Some x).
Proof.
  intros Hr. exists (set_outbox (λ out, out ++ MsgInt (int_of_size (size (_bcValues (mesh w)))) ::
                                  entry_msgs (map_entries (_bcValues (mesh w)))) w),
               (map_entries (_bcValues (mesh w))).
  split; [by apply distributeBCValues_root|]. do 4 (split; [done|]). split; [|split].
  - by rewrite length_entry_msgs, length_map_entries.
  - apply entries_strictly_ascending.
    + apply StronglySorted_merge_sort.
      * intros x y z. unfold entry_le. lia.
      * intros x y. unfold entry_le. lia.
    + rewrite map_entries_Permutation. apply NoDup_fst_map_to_list.
  - intros k x. apply elem_of_map_entries.
Qed.

Lemma distributeBCValues_sends_sorted_witness :
  let w := bc_world 0 {[5 := bc_inflow; 2 := bc_zero]} in
  ∃ w' entries,
    distributeBCValues w = Ok (tt, w') ∧
    mesh w' = mesh w ∧ heap w' = heap w ∧ inbox w' = inbox w ∧
    outbox w' = outbox w ++ MsgInt (int_of_size (size (_bcValues (mesh w)))) ::
                entry_msgs entries ∧
    length (entry_msgs entries) = (2 * size (_bcValues (mesh w)))%nat ∧
    StronglySorted Z.lt entries.*1 ∧
    (∀ k x, (k, x) ∈ entries ↔ _bcValues (mesh w) !! k = Some x).
Proof.
  intros w. apply (distributeBCValues_sends_sorted w). reflexivity.
Defined.

(** A two-process run, with the meshes it leaves. *)
Lemma distributeBCValues_run2_meshes root other :
  _commRank (base (mesh root)) = 0 → _commRank (base (mesh other)) = 1 →
  (size (_bcValues (mesh root)) ≤ 16)%nat →
  ∃ root' other',
    run2 distributeBCValues root other = Ok (root', other') ∧
    mesh root' = mesh root ∧
    mesh other' = set_bcValues (λ prior, _bcValues (mesh root) ∪ prior) (mesh other) ∧
    inbox other' = [] ∧
    outbox root' = MsgInt (Z.of_nat (size (_bcValues (mesh root)))) ::
                   entry_msgs (map_entries (_bcValues (mesh root))).
Proof.
  intros Hr Ho Hsize. unfold run2.
  rewrite distributeBCValues_root by done. simpl.
  rewrite int_of_size_small by (change (2 ^ 31) with 2147483648; lia).
  rewrite <-length_map_entries.
  rewrite (distributeBCValues_other _ (map_entries (_bcValues (mesh root))) []);
    simpl; [|lia|by rewrite app_nil_r].
  do 2 eexists. split; [reflexivity|]. simpl. split; [done|]. split; [|done].
  unfold set_bcValues. simpl. f_equal. apply insert_map_entries.
Qed.

(** Two runs of [distributeBCValues] in a row on two processes leave what
    one run leaves: after the first run every entry of the root is on the
    other process with the root's record, and the second run sends the same
    messages and changes neither mesh. *)
Theorem distributeBCValues_twice (root other : World) :
  _commRank (base (mesh root)) = 0 → _commRank (base (mesh other)) = 1 →
  (size (_bcValues (mesh root)) ≤ 16)%nat →
  ∃ root1 other1 root2 other2,
    run2 distributeBCValues root other = Ok (root1, other1) ∧
    _bcValues (mesh root) ⊆ _bcValues (mesh other1) ∧
    run2 distributeBCValues root1 other1 = Ok (root2, other2) ∧
    mesh root2 = mesh root1 ∧ mesh other2 = mesh other1 ∧
    outbox root2 = outbox root1.
Proof.
  intros Hr Ho Hsize.
  destruct (distributeBCValues_run2_meshes root other Hr Ho Hsize)
    as (root1 & other1 & Hrun1 & Hm1 & Ho1 & _ & Hout1).
  destruct (distributeBCValues_run2_meshes root1 other1)
    as (root2 & other2 & Hrun2 & Hm2 & Ho2 & _ & Hout2).
  { by rewrite Hm1. } { by rewrite Ho1. } { by rewrite Hm1. }
  exists root1, other1, root2, other2. split; [done|]. split.
  { rewrite Ho1. simpl. apply map_union_subseteq_l. }
  split; [done|]. split; [done|]. split; [|by rewrite Hout2, Hout1, Hm1].
  rewrite Ho2, Hm1, Ho1. unfold set_bcValues. simpl. f_equal.
  by rewrite (assoc_L (∪)), (idemp_L (∪)).
Qed.

Lemma distributeBCValues_twice_witness :
  let root := bc_world 0 {[1 := bc_inflow; 2 := bc_zero]} in
  let other := bc_world 1 {[2 := bc_inflow; 5 := bc_inflow]} in
  ∃ root1 other1 root2 other2,
    run2 distributeBCValues root other = Ok (root1, other1) ∧
    _bcValues (mesh root) ⊆ _bcValues (mesh other1) ∧
    run2 distributeBCValues root1 other1 = Ok (root2, other2) ∧
    mesh root2 = mesh root1 ∧ mesh other2 = mesh other1 ∧
    outbox root2 = outbox root1.
Proof.
  intros root other. apply (distributeBCValues_twice root other).
  - reflexivity.
  - reflexivity.
  - vm_compute. lia.
Defined.

(** ** The dof tables *)

(** A dof count stored by [setNumDof] is what [getNumDof] returns for that
    dimension, and that read changes nothing; the counts of the other
    dimensions and the dof classes stay.  A read of a dimension that was
    never set returns 0 and leaves a 0 entry in the table. *)
Theorem setNumDof_then_getNumDof (dim n : Z) (w : World) (disc : Discretization) :
  _discretization (mesh w) = Some disc →
  (∃ w1, setNumDof dim n w = Ok (tt, w1) ∧
         getNumDof dim w1 = Ok (n, w1) ∧
         _discretization (mesh w1) =
           Some {| _dim2dof := <[dim := n]> (_dim2dof disc);
                   _dim2class := _dim2class disc |}) ∧
  (_dim2dof disc !! dim = None →
   ∃ w1, getNumDof dim w = Ok (0, w1) ∧
         _discretization (mesh w1) =
           Some {| _dim2dof := <[dim := 0]> (_dim2dof disc);
                   _dim2class := _dim2class disc |}).
Proof.
  intros Hdisc. split.
  - unfold setNumDof. mstep. rewrite Hdisc. eexists. split; [reflexivity|]. split; [|done].
    unfold getNumDof. mstep.
    rewrite (subscript_present _ _ _ n) by apply lookup_insert_eq. simpl.
    by destruct w as [[] ? ? ? ?].
  - intros Hunset. unfold getNumDof. mstep. rewrite Hdisc.
    rewrite (subscript_absent _ _ _ Hunset). simpl. by eexists.
Qed.

Lemma setNumDof_then_getNumDof_witness :
  let w := segment_world "" in
  (∃ w1, setNumDof 2 3 w = Ok (tt, w1) ∧
         getNumDof 2 w1 = Ok (3, w1) ∧
         _discretization (mesh w1) =
           Some {| _dim2dof := <[2 := 3]> (_dim2dof segment_discretization);
                   _dim2class := _dim2class segment_discretization |}) ∧
  (_dim2dof segment_discretization !! 2 = None →
   ∃ w1, getNumDof 2 w = Ok (0, w1) ∧
         _discretization (mesh w1) =
           Some {| _dim2dof := <[2 := 0]> (_dim2dof segment_discretization);
                   _dim2class := _dim2class segment_discretization |}).
Proof.
  intros w. apply (setNumDof_then_getNumDof 2 3 w segment_discretization). reflexivity.
Defined.

(** ** More of point location *)

Lemma non_finite_mul_l (x y : float) : non_finite x → non_finite (x * y)%float.
Proof.
  unfold non_finite. rewrite mul_spec. intros [->|[s ->]]; [by left|].
  destruct (Prim2SF y); simpl; eauto.
Qed.

Lemma non_finite_add_l (x y : float) : non_finite x → non_finite (x + y)%float.
Proof.
  unfold non_finite. rewrite add_spec. intros [->|[s ->]]; [by left|].
  destruct (Prim2SF y) as [| s'| |]; simpl; eauto.
  destruct s, s'; eauto.
Qed.

Lemma non_finite_add_r (x y : float) : non_finite y → non_finite (x + y)%float.
Proof.
  unfold non_finite. rewrite add_spec. intros [->|[s ->]].
  - left. by destruct (Prim2SF x).
  - destruct (Prim2SF x) as [| s'| |]; simpl; eauto.
    destruct s', s; eauto.
Qed.

Lemma infinite_non_finite (x : float) : (∃ s, Prim2SF x = S754_infinity s) → non_finite x.
Proof. by right. Qed.

Lemma non_finite_nonneg (x : float) :
  non_finite x → (0.0 <=? x)%float = true → Prim2SF x = S754_infinity false.
Proof.
  rewrite leb_spec. change (Prim2SF 0.0%float) with (S754_zero false).
  intros [->|[s ->]]; [discriminate|]. by destruct s.
Qed.

Lemma plus_infinity_not_le_one (x : float) :
  Prim2SF x = S754_infinity false → (x <=? 1.0)%float = false.
Proof.
  intros Hx. rewrite leb_spec, Hx.
  change (Prim2SF 1.0%float) with (S754_finite false 4503599627370496 (-52)). done.
Qed.

Lemma plus_infinity_add (x y : float) :
  Prim2SF x = S754_infinity false → Prim2SF y = S754_infinity false →
  Prim2SF (x + y)%float = S754_infinity false.
Proof. intros Hx Hy. by rewrite add_spec, Hx, Hy. Qed.

(** A cell whose determinant is zero passes the test of [locatePoint] for no
    point: the numbers the test computes are infinities or NaNs. *)
Lemma degenerate_cell_fails_test dim coords point :
  dim = 2 ∨ dim = 3 →
  (cell_detJ dim coords =? 0.0)%float = true → ¬ locate_test dim coords point.
Proof.
  unfold cell_detJ, locate_test. intros [->| ->] Hd; simpl in *.
  - pose proof (infinite_non_finite _ (one_over_zero _ Hd)) as Hinf.
    pose proof (infinite_non_finite _ (opp_infinite _ (one_over_zero _ Hd))) as Hopp.
    intros (Hxi & Heta & Hsum).
    apply non_finite_nonneg in Hxi;
      [|by apply non_finite_add_l, non_finite_mul_l, non_finite_mul_l].
    apply non_finite_nonneg in Heta;
      [|by apply non_finite_add_l, non_finite_mul_l, non_finite_mul_l].
    rewrite plus_infinity_not_le_one in Hsum; [done|]. by apply plus_infinity_add.
  - pose proof (infinite_non_finite _ (one_over_zero _ Hd)) as Hinf.
    intros (Hxi & Heta & Hzeta & Hsum).
    apply non_finite_nonneg in Hxi;
      [|by apply non_finite_add_l, non_finite_add_l, non_finite_mul_l, non_finite_mul_l].
    apply non_finite_nonneg in Heta;
      [|by apply non_finite_add_l, non_finite_add_l, non_finite_mul_l, non_finite_mul_l].
    apply non_finite_nonneg in Hzeta;
      [|by apply non_finite_add_l, non_finite_add_l, non_finite_mul_l, non_finite_mul_l].
    rewrite plus_infinity_not_le_one in Hsum; [done|].
    apply plus_infinity_add; [apply plus_infinity_add|]; done.
Qed.

(** Whatever [locatePoint] returns on a mesh of dimension 2 or 3, whose
    height-0 cells have the coordinates of their vertices, for a query point
    of one value per dimension, is a height-0 cell of the patch that passes
    the test of the code, with a non-zero determinant: a degenerate cell is
    passed over without an error and is never the answer. *)
Theorem locatePoint_returns_cell `{SectionReader}
    (w : World) (patch : patch_type) (point : list float)
    (a : nat) (s : SectionObject) (w1 : World) (c : point_type) (w2 : World) :
  _dim (mesh w) = 2 ∨ _dim (mesh w) = 3 →
  getRealSection "coordinates" w = Ok (ObjRef a, w1) →
  heap w1 !! a = Some (RealSection s) →
  Forall (λ c, in_cell_bounds (_dim (mesh w)) (restrict s 0 c))
         (heightStratum (_topology (base (mesh w))) patch 0) →
  _dim (mesh w) ≤ Z.of_nat (length point) →
  locatePoint patch point w = Ok (c, w2) →
  w2 = w1 ∧
  c ∈ heightStratum (_topology (base (mesh w))) patch 0 ∧
  locate_test (_dim (mesh w)) (restrict s 0 c) point ∧
  PrimFloat.eqb (cell_detJ (_dim (mesh w)) (restrict s 0 c)) 0.0%float = false.
Proof.
  intros Hd Hget Hs Hcells Hpoint.
  rewrite (locatePoint_scan w patch point a s w1 Hd Hget Hs Hcells Hpoint).
  destruct (find _ _) as [c'|] eqn:Hfind; [|discriminate].
  intros [= -> <-]. apply find_some in Hfind as [Hin Hc].
  apply bool_decide_eq_true in Hc. split; [done|]. split; [by apply list_elem_of_In|].
  split; [done|].
  destruct (PrimFloat.eqb (cell_detJ _ _) 0.0%float) eqn:Hz; [|done].
  by destruct (degenerate_cell_fails_test _ _ point Hd Hz).
Qed.

Lemma locatePoint_returns_cell_witness :
  let R := closure_reader triangle_arrows in
  let point := [0.25; 0.25]%float in
  triangle_world = triangle_world ∧
  0 ∈ heightStratum (_topology (base (mesh triangle_world))) 0 0 ∧
  locate_test (_dim (mesh triangle_world)) (restrict triangle_coordinates 0 0) point ∧
  PrimFloat.eqb (cell_detJ (_dim (mesh triangle_world)) (restrict triangle_coordinates 0 0))
    0.0%float = false.
Proof.
  intros R point.
  apply (@locatePoint_returns_cell R triangle_world 0 point 0%nat triangle_coordinates
           triangle_world 0 triangle_world).
  - left. reflexivity.
  - reflexivity.
  - reflexivity.
  - repeat constructor. unfold in_cell_bounds. simpl. lia.
  - simpl. lia.
  - vm_compute. reflexivity.
Defined.

(** ** Maximal determinant *)

Lemma std_max_nonneg (a b : float) :
  (0.0 <=? a)%float = true → (0.0 <=? std_max a b)%float = true.
Proof.
  unfold std_max. destruct (a <? b)%float eqn:Hlt; [|done].
  rewrite ltb_spec in Hlt. rewrite !leb_spec.
  change (Prim2SF 0.0%float) with (S754_zero false).
  destruct (Prim2SF a) as [sa|sa| |sa ma ea], (Prim2SF b) as [sb|sb| |sb mb eb];
    unfold SFleb, SFltb in *; simpl in *; try discriminate; try done;
    destruct sa, sb; simpl in *; try discriminate; done.
Qed.

Lemma std_max_zero (d : float) : (0.0 <? d)%float = false → std_max 0.0 d = 0.0%float.
Proof. unfold std_max. by intros ->. Qed.

Lemma std_max_cases (a b : float) : std_max a b = a ∨ std_max a b = b.
Proof. unfold std_max. destruct (a <? b)%float; auto. Qed.

Section VolumeFacts.
Context `{SectionReader}.

Lemma volume_geometry w a s e g :
  _dim (mesh w) = 2 ∨ _dim (mesh w) = 3 →
  heap w !! a = Some (RealSection s) → volume_buffers g →
  in_cell_bounds (_dim (mesh w)) (restrict s 0 e) →
  ∃ g', computeElementGeometry (ObjRef a) e g w = Ok (g', w) ∧
        volume_buffers g' ∧ detJ g' = cell_detJ (_dim (mesh w)) (restrict s 0 e).
Proof.
  unfold in_cell_bounds.
  intros [Hd|Hd] Hs (x & y & z & Ex & Ey & Ez & Lx & Ly & Lz) Hlen; rewrite Hd in Hlen.
  - unfold computeElementGeometry, computeTriangleGeometry.
    unfold mbind, M_bind, gets, lift. rewrite Hd. simpl. rewrite Hs.
    unfold simplex_geometry, cell_detJ.
    rewrite (in_bounds_arrays 2 (restrict s 0 e) g x y z) by (done || simpl; lia).
    rewrite Ex, Ey, Ez. simpl.
    explicit_list x. explicit_list y. explicit_list z.
    eexists. split; [reflexivity|]. split; [|reflexivity].
    do 3 eexists. repeat split; reflexivity.
  - rewrite (computeElementGeometry_3D w a s e g Hd Hs).
    + eexists. split; [reflexivity|]. split; [|by rewrite Hd].
      do 3 eexists. repeat split; reflexivity.
    + exists x, y, z. repeat split; done.
    + lia.
Qed.

(** The loop over the cells of one patch keeps the running maximum
    non-negative, and the maximum is the one before or the determinant of a
    cell of the patch. *)
Lemma volume_cells_spec w a s g m cells :
  _dim (mesh w) = 2 ∨ _dim (mesh w) = 3 →
  heap w !! a = Some (RealSection s) → volume_buffers g →
  (0.0 <=? m)%float = true →
  (∀ c, c ∈ cells → in_cell_bounds (_dim (mesh w)) (restrict s 0 c)) →
  ∃ g' m', volume_cells (ObjRef a) g m cells w = Ok ((g', m'), w) ∧
           volume_buffers g' ∧ (0.0 <=? m')%float = true ∧
           (m' = m ∨ ∃ c, c ∈ cells ∧ m' = cell_detJ (_dim (mesh w)) (restrict s 0 c)) ∧
           (m = 0.0%float →
            (∀ c, c ∈ cells →
               PrimFloat.ltb 0.0%float (cell_detJ (_dim (mesh w)) (restrict s 0 c)) = false) →
            m' = 0.0%float).
Proof.
  intros Hd Hs. revert g m. induction cells as [|c cells IH]; intros g m Hg Hm Hlen; simpl.
  - exists g, m. repeat split; auto.
  - destruct (volume_geometry w a s c g Hd Hs Hg) as (g1 & Hrun & Hg1 & Hdet).
    { apply Hlen. left. }
    rewrite (bind_Ok _ _ _ _ _ Hrun).
    destruct (IH g1 (std_max m (detJ g1)) Hg1 (std_max_nonneg _ _ Hm))
      as (g' & m' & Hloop & Hg' & Hm' & Hcases & Hzero).
    { intros c' Hc'. apply Hlen. by right. }
    exists g', m'. split; [done|]. split; [done|]. split; [done|]. split.
    + destruct Hcases as [->|(c' & Hc' & ->)].
      * destruct (std_max_cases m (detJ g1)) as [->| ->]; [by left|].
        right. exists c. split; [left|done].
      * right. exists c'. split; [by right|done].
    + intros -> Hall. apply Hzero.
      * rewrite Hdet. apply std_max_zero, Hall. left.
      * intros c' Hc'. apply Hall. by right.
Qed.

Lemma volume_patches_spec w a s g m patches :
  _dim (mesh w) = 2 ∨ _dim (mesh w) = 3 →
  _realSections (base (mesh w)) !! "coordinates" = Some (ObjRef a) →
  heap w !! a = Some (RealSection s) → volume_buffers g →
  (0.0 <=? m)%float = true →
  let cells patch := heightStratum (_topology (base (mesh w))) patch 0 in
  (∀ patch c, patch ∈ patches → c ∈ cells patch →
     in_cell_bounds (_dim (mesh w)) (restrict s 0 c)) →
  ∃ m', volume_patches g m patches w = Ok (m', w) ∧
        (0.0 <=? m')%float = true ∧
        (m' = m ∨ ∃ patch c, patch ∈ patches ∧ c ∈ cells patch ∧
                             m' = cell_detJ (_dim (mesh w)) (restrict s 0 c)) ∧
        (m = 0.0%float →
         (∀ patch c, patch ∈ patches → c ∈ cells patch →
            PrimFloat.ltb 0.0%float (cell_detJ (_dim (mesh w)) (restrict s 0 c)) = false) →
         m' = 0.0%float).
Proof.
  intros Hd Hreg Hs. revert g m.
  induction patches as [|patch patches IH]; intros g m Hg Hm cells Hlen; simpl.
  - exists m. repeat split; auto.
  - rewrite (bind_Ok _ _ _ _ _ (getRealSection_registered _ _ _ Hreg)).
    rewrite (bind_Ok (gets _) _ w _ w eq_refl).
    destruct (volume_cells_spec w a s g m (cells patch) Hd Hs Hg Hm)
      as (g1 & m1 & Hrun & Hg1 & Hm1 & Hcases1 & Hzero1).
    { intros c Hc. apply (Hlen patch); [left|done]. }
    rewrite (bind_Ok _ _ _ _ _ Hrun).
    destruct (IH g1 m1 Hg1 Hm1) as (m' & Hloop & Hm' & Hcases & Hzero).
    { intros patch' c Hp' Hc. apply (Hlen patch'); [by right|done]. }
    exists m'. split; [done|]. split; [done|]. split.
    + destruct Hcases as [->|(patch' & c' & Hp' & Hc' & ->)].
      * destruct Hcases1 as [->|(c & Hc & ->)]; [by left|].
        right. exists patch, c. split; [left|done].
      * right. exists patch', c'. split; [by right|done].
    + intros -> Hall. apply Hzero.
      * apply Hzero1; [done|]. intros c Hc. apply (Hall patch); [left|done].
      * intros patch' c' Hp' Hc'. apply (Hall patch'); [by right|done].
Qed.

(** On a mesh of dimension 2 or 3 with live coordinates, whose height-0
    cells have the coordinates of their vertices, [getMaxVolume] changes
    nothing and returns a number that is not negative and not NaN: 0.0, or
    the determinant of some height-0 cell of some patch.  It returns 0.0 when
    no cell has a determinant above 0.0, as on a mesh of inverted or
    degenerate cells. *)
Theorem getMaxVolume_nonnegative (w : World) (patches : list patch_type)
    (a : nat) (s : SectionObject) :
  _dim (mesh w) = 2 ∨ _dim (mesh w) = 3 →
  _realSections (base (mesh w)) !! "coordinates" = Some (ObjRef a) →
  heap w !! a = Some (RealSection s) →
  let cells patch := heightStratum (_topology (base (mesh w))) patch 0 in
  (∀ patch c, patch ∈ patches → c ∈ cells patch →
     in_cell_bounds (_dim (mesh w)) (restrict s 0 c)) →
  ∃ r, getMaxVolume patches w = Ok (r, w) ∧
       (0.0 <=? r)%float = true ∧
       (r = 0.0%float ∨
        ∃ patch c, patch ∈ patches ∧ c ∈ cells patch ∧
                   r = cell_detJ (_dim (mesh w)) (restrict s 0 c)) ∧
       ((∀ patch c, patch ∈ patches → c ∈ cells patch →
           PrimFloat.ltb 0.0%float (cell_detJ (_dim (mesh w)) (restrict s 0 c)) = false) →
        r = 0.0%float).
Proof.
  intros Hd Hreg Hs cells Hlen. unfold getMaxVolume.
  destruct (volume_patches_spec w a s
              {| v0 := Some (local_array 3); J := Some (local_array 9);
                 invJ := Some (local_array 9); detJ := 0%float |}
              0.0%float patches Hd Hreg Hs) as (r & Hrun & Hr & Hcases & Hzero).
  { do 3 eexists. repeat split; reflexivity. }
  { reflexivity. }
  { exact Hlen. }
  exists r. split; [done|]. split; [done|]. split; [done|]. by apply Hzero.
Qed.

End VolumeFacts.

Lemma getMaxVolume_nonnegative_witness :
  let R := closure_reader triangle_arrows in
  let cells patch := heightStratum (_topology (base (mesh triangle_world))) patch 0 in
  ∃ r, getMaxVolume [0] triangle_world = Ok (r, triangle_world) ∧
       (0.0 <=? r)%float = true ∧
       (r = 0.0%float ∨
        ∃ patch c, patch ∈ [0] ∧ c ∈ cells patch ∧
                   r = cell_detJ (_dim (mesh triangle_world))
                         (restrict triangle_coordinates 0 c)) ∧
       ((∀ patch c, patch ∈ [0] → c ∈ cells patch →
           PrimFloat.ltb 0.0%float (cell_detJ (_dim (mesh triangle_world))
                     (restrict triangle_coordinates 0 c)) = false) →
        r = 0.0%float).
Proof.
  intros R.
  apply (@getMaxVolume_nonnegative R triangle_world [0] 0%nat triangle_coordinates).
  - left. reflexivity.
  - reflexivity.
  - reflexivity.
  - intros patch c _ Hc. simpl in Hc. apply list_elem_of_singleton in Hc as ->.
    unfold in_cell_bounds. simpl. lia.
Defined.

Lemma SFltb_trans (a b c : spec_float) :
  SFltb a b = true → SFltb b c = true → SFltb a c = true.
Proof.
  unfold SFltb.
  destruct a as [sa|sa| |sa ma ea], b as [sb|sb| |sb mb eb], c as [sc|sc| |sc mc ec];
    simpl; try discriminate; try done;
    repeat match goal with s : bool |- _ => destruct s end;
    simpl; try discriminate; try done.
  - destruct (Z.compare_spec ea eb), (Z.compare_spec eb ec), (Z.compare_spec ea ec);
      try lia; try discriminate; try done; subst.
    change (PosDef.Pos.compare_cont Eq) with Pos.compare.
    destruct (Pos.compare_spec ma mb), (Pos.compare_spec mb mc), (Pos.compare_spec ma mc);
      simpl; try lia; try discriminate; done.
  - destruct (Z.compare_spec ea eb), (Z.compare_spec eb ec), (Z.compare_spec ea ec);
      try lia; try discriminate; try done; subst.
    change (PosDef.Pos.compare_cont Eq) with Pos.compare.
    destruct (Pos.compare_spec ma mb), (Pos.compare_spec mb mc), (Pos.compare_spec ma mc);
      simpl; try lia; try discriminate; done.
Qed.

Lemma SFltb_irrefl (a : spec_float) : SFltb a a = false.
Proof.
  unfold SFltb. destruct a as [s|s| |s m e]; simpl; try done; destruct s; simpl; try done.
  - rewrite Z.compare_refl. change (PosDef.Pos.compare_cont Eq) with Pos.compare.
    by rewrite Pos.compare_refl.
  - rewrite Z.compare_refl. change (PosDef.Pos.compare_cont Eq) with Pos.compare.
    by rewrite Pos.compare_refl.
Qed.

(** No number passed to [std_max] exceeds what it returns, and what stayed
    below the first argument stays below the result. *)
Lemma std_max_not_below (a b : float) : (std_max a b <? b)%float = false.
Proof.
  unfold std_max. destruct (a <? b)%float eqn:Hlt; [|done].
  rewrite ltb_spec. apply SFltb_irrefl.
Qed.

Lemma std_max_keeps_bound (a b d : float) :
  (a <? d)%float = false → (std_max a b <? d)%float = false.
Proof.
  unfold std_max. destruct (a <? b)%float eqn:Hab; [|done]. intros Had.
  destruct (b <? d)%float eqn:Hbd; [|done].
  rewrite ltb_spec in *. by rewrite (SFltb_trans _ _ _ Hab Hbd) in Had.
Qed.

Section VolumeBound.
Context `{SectionReader}.

Lemma other_dimensions_throw_eq w :
  _dim (mesh w) ≠ 2 → _dim (mesh w) ≠ 3 →
  ∀ coordinates e g,
    computeElementGeometry coordinates e g w =
      Throw (ALE_Exception "Unsupport dimension for element geometry computation").
Proof.
  intros H2 H3 coordinates e g. unfold computeElementGeometry. mstep.
  by rewrite !bool_decide_eq_false_2.
Qed.

Lemma volume_cells_bound w a s g m cells :
  _dim (mesh w) = 2 ∨ _dim (mesh w) = 3 →
  heap w !! a = Some (RealSection s) → volume_buffers g →
  (∀ c, c ∈ cells → in_cell_bounds (_dim (mesh w)) (restrict s 0 c)) →
  ∃ g' m', volume_cells (ObjRef a) g m cells w = Ok ((g', m'), w) ∧
           volume_buffers g' ∧
           (∀ d, (m <? d)%float = false → (m' <? d)%float = false) ∧
           (∀ c, c ∈ cells →
              PrimFloat.ltb m' (cell_detJ (_dim (mesh w)) (restrict s 0 c)) = false).
Proof.
  intros Hd Hs. revert g m. induction cells as [|c cells IH]; intros g m Hg Hlen; simpl.
  - exists g, m. repeat split; auto. intros c Hc. by apply elem_of_nil in Hc.
  - destruct (volume_geometry w a s c g Hd Hs Hg) as (g1 & Hrun & Hg1 & Hdet).
    { apply Hlen. left. }
    rewrite (bind_Ok _ _ _ _ _ Hrun).
    destruct (IH g1 (std_max m (detJ g1)) Hg1) as (g' & m' & Hloop & Hg' & Hkeep & Hall).
    { intros c' Hc'. apply Hlen. by right. }
    exists g', m'. split; [done|]. split; [done|]. split.
    + intros d Hmd. by apply Hkeep, std_max_keeps_bound.
    + intros c' Hc'. apply elem_of_cons in Hc' as [->|Hc']; [|by apply Hall].
      apply Hkeep. rewrite <-Hdet. apply std_max_not_below.
Qed.

Lemma volume_patches_bound w a s g m patches :
  _dim (mesh w) = 2 ∨ _dim (mesh w) = 3 →
  _realSections (base (mesh w)) !! "coordinates" = Some (ObjRef a) →
  heap w !! a = Some (RealSection s) → volume_buffers g →
  (∀ patch c, patch ∈ patches →
     c ∈ heightStratum (_topology (base (mesh w))) patch 0 →
     in_cell_bounds (_dim (mesh w)) (restrict s 0 c)) →
  ∃ m', volume_patches g m patches w = Ok (m', w) ∧
        (∀ d, (m <? d)%float = false → (m' <? d)%float = false) ∧
        (∀ patch c, patch ∈ patches →
           c ∈ heightStratum (_topology (base (mesh w))) patch 0 →
           PrimFloat.ltb m' (cell_detJ (_dim (mesh w)) (restrict s 0 c)) = false).
Proof.
  intros Hd Hreg Hs. revert g m.
  induction patches as [|patch patches IH]; intros g m Hg Hlen; simpl.
  - exists m. repeat split; auto. intros patch c Hp. by apply elem_of_nil in Hp.
  - rewrite (bind_Ok _ _ _ _ _ (getRealSection_registered _ _ _ Hreg)).
    rewrite (bind_Ok (gets _) _ w _ w eq_refl).
    destruct (volume_cells_bound w a s g m
                (heightStratum (_topology (base (mesh w))) patch 0) Hd Hs Hg)
      as (g1 & m1 & Hrun & Hg1 & Hkeep1 & Hall1).
    { intros c Hc. apply (Hlen patch); [left|done]. }
    rewrite (bind_Ok _ _ _ _ _ Hrun).
    destruct (IH g1 m1 Hg1) as (m' & Hloop & Hkeep & Hall).
    { intros patch' c Hp' Hc. apply (Hlen patch'); [by right|done]. }
    exists m'. split; [done|]. split; [by auto|].
    intros patch' c Hp' Hc. apply elem_of_cons in Hp' as [->|Hp']; [|by eapply Hall].
    by apply Hkeep, Hall1.
Qed.

(** What [getMaxVolume] returns on a mesh of dimension 2 or 3, whose
    height-0 cells have the coordinates of their vertices, is exceeded by the
    determinant of no height-0 cell of any patch. *)
Theorem getMaxVolume_upper_bound (w : World) (patches : list patch_type)
    (a : nat) (s : SectionObject) :
  _dim (mesh w) = 2 ∨ _dim (mesh w) = 3 →
  _realSections (base (mesh w)) !! "coordinates" = Some (ObjRef a) →
  heap w !! a = Some (RealSection s) →
  (∀ patch c, patch ∈ patches →
     c ∈ heightStratum (_topology (base (mesh w))) patch 0 →
     in_cell_bounds (_dim (mesh w)) (restrict s 0 c)) →
  ∃ r, getMaxVolume patches w = Ok (r, w) ∧
       ∀ patch c, patch ∈ patches →
         c ∈ heightStratum (_topology (base (mesh w))) patch 0 →
         PrimFloat.ltb r (cell_detJ (_dim (mesh w)) (restrict s 0 c)) = false.
Proof.
  intros Hd Hreg Hs Hlen. unfold getMaxVolume.
  destruct (volume_patches_bound w a s
              {| v0 := Some (local_array 3); J := Some (local_array 9);
                 invJ := Some (local_array 9); detJ := 0%float |}
              0.0%float patches Hd Hreg Hs) as (r & Hrun & _ & Hall).
  { do 3 eexists. repeat split; reflexivity. }
  { exact Hlen. }
  by exists r.
Qed.

(** On a mesh whose dimension is neither 2 nor 3 [getMaxVolume] returns 0.0
    when no patch has a height-0 cell, and throws the geometry exception at
    the first cell otherwise. *)
Theorem getMaxVolume_other_dimensions (w : World) (patches : list patch_type) (o : Obj) :
  _dim (mesh w) ≠ 2 → _dim (mesh w) ≠ 3 →
  _realSections (base (mesh w)) !! "coordinates" = Some o →
  let cells patch := heightStratum (_topology (base (mesh w))) patch 0 in
  (Forall (λ patch, cells patch = []) patches →
     getMaxVolume patches w = Ok (0.0%float, w)) ∧
  (Exists (λ patch, cells patch ≠ []) patches →
     getMaxVolume patches w =
       Throw (ALE_Exception "Unsupport dimension for element geometry computation")).
Proof.
  intros H2 H3 Hreg cells. unfold getMaxVolume.
  generalize ({| v0 := Some (local_array 3); J := Some (local_array 9);
                 invJ := Some (local_array 9); detJ := 0%float |}).
  split.
  - induction 1 as [|patch patches Hp _ IH]; simpl; [done|].
    rewrite (bind_Ok _ _ _ _ _ (getRealSection_registered _ _ _ Hreg)).
    rewrite (bind_Ok (gets _) _ w _ w eq_refl). fold (cells patch). rewrite Hp. simpl.
    apply IH.
  - intros Hex. induction patches as [|patch patches IH]; simpl.
    { by apply Exists_nil in Hex. }
    rewrite (bind_Ok _ _ _ _ _ (getRealSection_registered _ _ _ Hreg)).
    rewrite (bind_Ok (gets _) _ w _ w eq_refl). fold (cells patch).
    destruct (cells patch) as [|c rest] eqn:Hc; simpl.
    + apply IH. apply Exists_cons in Hex as [Hex|Hex]; [by rewrite Hc in Hex|done].
    + unfold mbind, M_bind. by rewrite (other_dimensions_throw_eq w H2 H3 o c g).
Qed.

End VolumeBound.

Lemma getMaxVolume_upper_bound_witness :
  let R := closure_reader triangle_arrows in
  ∃ r, getMaxVolume [0] triangle_world = Ok (r, triangle_world) ∧
       ∀ patch c, patch ∈ [0] →
         c ∈ heightStratum (_topology (base (mesh triangle_world))) patch 0 →
         PrimFloat.ltb r (cell_detJ (_dim (mesh triangle_world))
                            (restrict triangle_coordinates 0 c)) = false.
Proof.
  intros R.
  apply (@getMaxVolume_upper_bound R triangle_world [0] 0%nat triangle_coordinates).
  - left. reflexivity.
  - reflexivity.
  - reflexivity.
  - intros patch c _ Hc. simpl in Hc. apply list_elem_of_singleton in Hc as ->.
    unfold in_cell_bounds. simpl. lia.
Defined.

Lemma getMaxVolume_other_dimensions_witness :
  let R := closure_reader triangle_arrows in
  let w := simplex_world 1 triangle_topology triangle_coordinates in
  let cells patch := heightStratum (_topology (base (mesh w))) patch 0 in
  (Forall (λ patch, cells patch = []) [0] →
     getMaxVolume [0] w = Ok (0.0%float, w)) ∧
  (Exists (λ patch, cells patch ≠ []) [0] →
     getMaxVolume [0] w =
       Throw (ALE_Exception "Unsupport dimension for element geometry computation")).
Proof.
  intros R w.
  apply (@getMaxVolume_other_dimensions R w [0] (ObjRef 0%nat)).
  - simpl. lia.
  - simpl. lia.
  - reflexivity.
Defined.

(** ** More of the field setup *)





(** [setupField] touches its own section and the dof table only: the
    registries and the topology, the dimension, the boundary condition and
    every other object of the heap are as before, every dimension has the
    dof count it had, and the section is still a real section whose earlier
    calls come first. *)
Theorem setupField_frame `{SectionReader}
    (w : World) (a : nat) (so : SectionObject) (disc : Discretization)
    (bc : BoundaryCondition) (func : list float → float) (c : nat) (csec : SectionObject) :
  heap w !! a = Some (RealSection so) →
  _discretization (mesh w) = Some disc →
  _boundaryCondition (mesh w) = Some bc →
  (_labelName bc ≠ "" →
     _func bc = Some func ∧
     _realSections (base (mesh w)) !! "coordinates" = Some (ObjRef c) ∧
     c ≠ a ∧ heap w !! c = Some (RealSection csec)) →
  ∃ w' disc',
    setupField (ObjRef a) w = Ok (tt, w') ∧
    base (mesh w') = base (mesh w) ∧
    _dim (mesh w') = _dim (mesh w) ∧
    _boundaryCondition (mesh w') = _boundaryCondition (mesh w) ∧
    _discretization (mesh w') = Some disc' ∧
    (∀ d, numDof disc' d = numDof disc d) ∧
    (∀ b, b ≠ a → heap w' !! b = heap w !! b) ∧
    (∃ calls, calls_at a w' = Some (sec_calls so ++ calls)).
Proof.
  intros Hso Hdisc Hbc Hlabel.
  destruct (setupField_calls w a so disc bc func c csec Hso Hdisc Hbc Hlabel)
    as (w' & Hrun & Hbase & Hdim & Hbc' & (disc' & Hdisc' & Hdof) & Hheap).
  exists w', disc'. do 6 (split; [done|]). split.
  - intros b Hb. by rewrite Hheap, lookup_insert_ne.
  - eexists. unfold calls_at. by rewrite Hheap, lookup_insert_eq.
Qed.

Lemma setupField_frame_witness :
  let R := closure_reader segment_arrows in
  let w := segment_world "marker" in
  ∃ w' disc',
    setupField (ObjRef 1%nat) w = Ok (tt, w') ∧
    base (mesh w') = base (mesh w) ∧
    _dim (mesh w') = _dim (mesh w) ∧
    _boundaryCondition (mesh w') = _boundaryCondition (mesh w) ∧
    _discretization (mesh w') = Some disc' ∧
    (∀ d, numDof disc' d = numDof segment_discretization d) ∧
    (∀ b, b ≠ 1%nat → heap w' !! b = heap w !! b) ∧
    (∃ calls, calls_at 1%nat w' = Some (sec_calls new_section ++ calls)).
Proof.
  intros R w.
  apply (@setupField_frame R w 1%nat new_section segment_discretization
           {| _labelName := "marker"; _func := Some sum_of_coordinates |}
           sum_of_coordinates 0%nat segment_coordinates).
  - reflexivity.
  - reflexivity.
  - reflexivity.
  - intros _. repeat split; try reflexivity. discriminate.
Defined.

(** [setupField] calls [allocate] exactly once: every call before it assigns
    a fiber dimension and every call after it is an [updateBC], so no fiber
    dimension changes once the section is allocated. *)
Theorem setupField_allocates_once `{SectionReader}
    (w : World) (a : nat) (so : SectionObject) (disc : Discretization)
    (bc : BoundaryCondition) (func : list float → float) (c : nat) (csec : SectionObject) :
  heap w !! a = Some (RealSection so) →
  _discretization (mesh w) = Some disc →
  _boundaryCondition (mesh w) = Some bc →
  (_labelName bc ≠ "" →
     _func bc = Some func ∧
     _realSections (base (mesh w)) !! "coordinates" = Some (ObjRef c) ∧
     c ≠ a ∧ heap w !! c = Some (RealSection csec)) →
  ∃ w' before after,
    setupField (ObjRef a) w = Ok (tt, w') ∧
    calls_at a w' = Some (sec_calls so ++ before ++ [Allocate] ++ after) ∧
    Forall is_dimension_call before ∧ Forall is_update_call after ∧
    length after =
      (if decide (_labelName bc = "") then 0%nat
       else length (getLabelStratum (_topology (base (mesh w))) 0 (_labelName bc) 1)).
Proof.
  intros Hso Hdisc Hbc Hlabel.
  destruct (setupField_calls w a so disc bc func c csec Hso Hdisc Hbc Hlabel)
    as (w' & Hrun & Hst).
  apply calls_at_setup_state in Hst.
  assert (Hbulk : Forall is_dimension_call (bulk_calls disc (_dim (mesh w))))
    by (unfold bulk_calls; by apply Forall_fmap, Forall_true).
  destruct (decide (_labelName bc = "")) as [Hempty|Hne].
  - exists w', (bulk_calls disc (_dim (mesh w))), []. split; [done|]. split; [done|].
    split; [done|]. split; [constructor|done].
  - eexists w', (bulk_calls disc (_dim (mesh w)) ++ override_calls disc _ _),
      (update_calls func csec _).
    split; [done|]. split; [by rewrite Hst, <-!app_assoc|]. split; [|split].
    + apply Forall_app. split; [done|]. unfold override_calls. by apply Forall_fmap, Forall_true.
    + unfold update_calls. by apply Forall_fmap, Forall_true.
    + unfold update_calls. by rewrite length_fmap.
Qed.

Lemma setupField_allocates_once_witness :
  let R := closure_reader segment_arrows in
  let w := segment_world "marker" in
  ∃ w' before after,
    setupField (ObjRef 1%nat) w = Ok (tt, w') ∧
    calls_at 1%nat w' = Some (sec_calls new_section ++ before ++ [Allocate] ++ after) ∧
    Forall is_dimension_call before ∧ Forall is_update_call after ∧
    length after =
      (if decide ("marker" = "") then 0%nat
       else length (getLabelStratum (_topology (base (mesh w))) 0 "marker" 1)).
Proof.
  intros R w.
  apply (@setupField_allocates_once R w 1%nat new_section segment_discretization
           {| _labelName := "marker"; _func := Some sum_of_coordinates |}
           sum_of_coordinates 0%nat segment_coordinates).
  - reflexivity.
  - reflexivity.
  - reflexivity.
  - intros _. repeat split; try reflexivity. discriminate.
Defined.

(** A dof class stored by [setDofClass] is what [getDofClass] returns for
    that dimension, and neither call changes a dof count; a read of a
    dimension whose class was never set returns 0 and leaves a 0 entry. *)
Theorem setDofClass_then_getDofClass (dim n : Z) (w : World) (disc : Discretization) :
  _discretization (mesh w) = Some disc →
  (∃ w1, setDofClass dim n w = Ok (tt, w1) ∧
         getDofClass dim w1 = Ok (n, w1) ∧
         _discretization (mesh w1) =
           Some {| _dim2dof := _dim2dof disc;
                   _dim2class := <[dim := n]> (_dim2class disc) |}) ∧
  (_dim2class disc !! dim = None →
   ∃ w1, getDofClass dim w = Ok (0, w1) ∧
         _discretization (mesh w1) =
           Some {| _dim2dof := _dim2dof disc;
                   _dim2class := <[dim := 0]> (_dim2class disc) |}).
Proof.
  intros Hdisc. split.
  - unfold setDofClass. mstep. rewrite Hdisc. eexists. split; [reflexivity|]. split; [|done].
    unfold getDofClass. mstep.
    rewrite (subscript_present _ _ _ n) by apply lookup_insert_eq. simpl.
    by destruct w as [[] ? ? ? ?].
  - intros Hunset. unfold getDofClass. mstep. rewrite Hdisc.
    rewrite (subscript_absent _ _ _ Hunset). simpl. by eexists.
Qed.

Lemma setDofClass_then_getDofClass_witness :
  let w := segment_world "" in
  (∃ w1, setDofClass 0 4 w = Ok (tt, w1) ∧
         getDofClass 0 w1 = Ok (4, w1) ∧
         _discretization (mesh w1) =
           Some {| _dim2dof := _dim2dof segment_discretization;
                   _dim2class := <[0 := 4]> (_dim2class segment_discretization) |}) ∧
  (_dim2class segment_discretization !! 0 = None →
   ∃ w1, getDofClass 0 w = Ok (0, w1) ∧
         _discretization (mesh w1) =
           Some {| _dim2dof := _dim2dof segment_discretization;
                   _dim2class := <[0 := 0]> (_dim2class segment_discretization) |}).
Proof.
  intros w. apply (setDofClass_then_getDofClass 0 4 w segment_discretization). reflexivity.
Defined.

Section DirectCalls.
Context `{SectionReader}.

(** [locatePoint_2D] and [locatePoint_3D] called directly on a mesh whose
    dimension is neither 2 nor 3: with no height-0 cell in the patch they
    throw ["Could not locate point"], and with one they throw the exception
    of the geometry routine at the first cell. *)
Theorem locatePoint_2D_other_dimensions (w : World) (patch : patch_type)
    (point : list float) (o : Obj) :
  _dim (mesh w) ≠ 2 → _dim (mesh w) ≠ 3 →
  _realSections (base (mesh w)) !! "coordinates" = Some o →
  let cells := heightStratum (_topology (base (mesh w))) patch 0 in
  (cells = [] →
     locatePoint_2D patch point w = Throw (ALE_Exception "Could not locate point") ∧
     locatePoint_3D patch point w = Throw (ALE_Exception "Could not locate point")) ∧
  (cells ≠ [] →
     locatePoint_2D patch point w =
       Throw (ALE_Exception "Unsupport dimension for element geometry computation") ∧
     locatePoint_3D patch point w =
       Throw (ALE_Exception "Unsupport dimension for element geometry computation")).
Proof.
  intros H2 H3 Hreg cells. unfold locatePoint_2D, locatePoint_3D.
  rewrite !(bind_Ok _ _ _ _ _ (getRealSection_registered _ _ _ Hreg)).
  rewrite !(bind_Ok (gets _) _ w _ w eq_refl). fold cells.
  destruct cells as [|c rest]; split; try done; intros _; simpl;
    unfold mbind, M_bind; by rewrite !(other_dimensions_throw_eq w H2 H3).
Qed.

End DirectCalls.

Lemma locatePoint_2D_other_dimensions_witness :
  let R := closure_reader triangle_arrows in
  let w := simplex_world 1 triangle_topology triangle_coordinates in
  let point := [0.25; 0.25]%float in
  let cells := heightStratum (_topology (base (mesh w))) 0 0 in
  (cells = [] →
     locatePoint_2D 0 point w = Throw (ALE_Exception "Could not locate point") ∧
     locatePoint_3D 0 point w = Throw (ALE_Exception "Could not locate point")) ∧
  (cells ≠ [] →
     locatePoint_2D 0 point w =
       Throw (ALE_Exception "Unsupport dimension for element geometry computation") ∧
     locatePoint_3D 0 point w =
       Throw (ALE_Exception "Unsupport dimension for element geometry computation")).
Proof.
  intros R w point.
  apply (@locatePoint_2D_other_dimensions R w 0 point (ObjRef 0%nat)).
  - simpl. lia.
  - simpl. lia.
  - reflexivity.
Defined.

(** ** The square boundary *)

(** A counted loop: what holds before pass 0 and is carried by every pass
    holds after the last. *)
Lemma foldl_seqZ_inv {B} (P : Z → B → Prop) (f : B → Z → B) (start len : Z) (b : B) :
  0 ≤ len →
  (∀ i b, 0 ≤ i < len → P i b → P (i + 1) (f b (start + i))) →
  P 0 b → P len (foldl f b (seqZ start len)).
Proof.
  intros Hlen Hstep H0.
  assert (Hnat : ∀ n : nat, Z.of_nat n ≤ len →
            P (Z.of_nat n) (foldl f b (seqZ start (Z.of_nat n)))).
  { induction n as [|n IH]; intros Hn; [done|].
    rewrite seqZ_S, foldl_app. simpl.
    replace (Z.of_nat (S n)) with (Z.of_nat n + 1) by lia.
    apply Hstep; [lia|]. apply IH. lia. }
  rewrite <-(Z2Nat.id len) by done. apply Hnat. lia.
Qed.

Lemma fill_vertices_spec numEdges numVertices :
  0 ≤ numVertices →
  let vertices :=
    fill_vertices numEdges numVertices (replicate (Z.to_nat numVertices) 0) in
  ∀ i, 0 ≤ i < numVertices → vertices !!! Z.to_nat i = numEdges + i.
Proof.
  intros Hn vertices. unfold vertices, fill_vertices.
  refine (proj2 (foldl_seqZ_inv
           (λ k vs, length vs = Z.to_nat numVertices ∧
                    ∀ i, 0 ≤ i < k → vs !!! Z.to_nat i = numEdges + i)
           _ numEdges numVertices _ Hn _ _)).
  - intros k vs Hk [Hlen Hvs]. split; [by rewrite length_insert|].
    intros i Hi. replace (numEdges + k - numEdges) with k by lia.
    destruct (decide (i = k)) as [->|Hne].
    + rewrite list_lookup_total_insert_eq; [done|lia].
    + rewrite list_lookup_total_insert_ne by lia. apply Hvs. lia.
  - split; [by rewrite length_replicate|]. intros i Hi. lia.
Qed.



Section SquareBoundary.
Variables (e0 e1 : Z) (vertices : list Z).
Hypothesis He0 : 0 ≤ e0.
Hypothesis He1 : 0 ≤ e1.
Hypothesis Hvertices :
  ∀ i, 0 ≤ i < square_numVertices [e0; e1] →
       vertices !!! Z.to_nat i = square_numEdges [e0; e1] + i.




End SquareBoundary.



(** The ids marked by a loop are those marked before it and those its
    passes mark. *)
Lemma foldl_marks {X} (f : SieveBuild → X → SieveBuild) (g : X → Z → Prop)
    (l : list X) (b : SieveBuild) (q : Z) :
  (∀ b x, x ∈ l → q ∈ dom (markers (f b x)) ↔ q ∈ dom (markers b) ∨ g x q) →
  q ∈ dom (markers (foldl f b l)) ↔ q ∈ dom (markers b) ∨ ∃ x, x ∈ l ∧ g x q.
Proof.
  revert b. induction l as [|x l IH]; intros b Hstep; simpl.
  - split; [by left|]. intros [?|(x & Hx & _)]; [done|by apply elem_of_nil in Hx].
  - rewrite IH by (intros b' x' Hx'; apply Hstep; by right).
    rewrite (Hstep b x) by left. split.
    + intros [[?|?]|(x' & Hx' & ?)]; [by left| |].
      * right. exists x. split; [left|done].
      * right. exists x'. split; [by right|done].
    + intros [?|(x' & Hx' & ?)]; [by left; left|].
      apply elem_of_cons in Hx' as [->|Hx']; [by left; right|].
      right. by exists x'.
Qed.

Lemma dom_setValue q' b q :
  q ∈ dom (markers (setValue q' 1 b)) ↔ q ∈ dom (markers b) ∨ q = q'.
Proof. unfold setValue. simpl. rewrite dom_insert, elem_of_union, elem_of_singleton. tauto. Qed.

Section SquareMarkers.
Variables (e0 e1 : Z) (vertices : list Z).
Hypothesis He0 : 0 ≤ e0.
Hypothesis He1 : 0 ≤ e1.
Hypothesis Hvertices :
  ∀ i, 0 ≤ i < square_numVertices [e0; e1] →
       vertices !!! Z.to_nat i = square_numEdges [e0; e1] + i.

Lemma horizontal_edge_marks vy ex b q :
  0 ≤ vy ≤ e1 → 0 ≤ ex < e0 →
  q ∈ dom (markers (horizontal_edge e0 e1 vertices vy ex b)) ↔
  q ∈ dom (markers b) ∨ horizontal_marks e0 e1 vy ex q.
Proof.
  intros Hvy Hex. unfold horizontal_edge, horizontal_marks.
  assert (Hv : 0 ≤ vy * (e0 + 1) + ex ∧
               vy * (e0 + 1) + ex + 1 < square_numVertices [e0; e1])
    by (unfold square_numVertices; simpl; nia).
  rewrite !Hvertices by lia.
  destruct (bool_decide_reflect (vy = 0 ∨ vy = e1)) as [Hrow|Hrow];
    [destruct (bool_decide_reflect (ex = e0 - 1)) as [Hlast|Hlast]|];
    rewrite ?dom_setValue; simpl; tauto.
Qed.

Lemma vertical_edge_marks vx ey b q :
  0 ≤ vx ≤ e0 → 0 ≤ ey < e1 →
  q ∈ dom (markers (vertical_edge e0 e1 vertices vx ey b)) ↔
  q ∈ dom (markers b) ∨ vertical_marks e0 e1 vx ey q.
Proof.
  intros Hvx Hey. unfold vertical_edge, vertical_marks.
  assert (Hv : 0 ≤ ey * (e0 + 1) + vx ∧
               ey * (e0 + 1) + vx + e0 + 1 < square_numVertices [e0; e1])
    by (unfold square_numVertices; simpl; nia).
  rewrite !Hvertices by lia.
  destruct (bool_decide_reflect (vx = 0 ∨ vx = e0)) as [Hcol|Hcol];
    [destruct (bool_decide_reflect (ey = e1 - 1)) as [Hlast|Hlast]|];
    rewrite ?dom_setValue; simpl; tauto.
Qed.

(** The ids marked when the loops are done. *)
Lemma square_loops_marks q :
  q ∈ dom (markers
    (foldl (λ b vx, foldl (λ b ey, vertical_edge e0 e1 vertices vx ey b) b (seqZ 0 e1))
       (foldl (λ b vy, foldl (λ b ex, horizontal_edge e0 e1 vertices vy ex b) b (seqZ 0 e0))
          {| arrows := []; markers := ∅; next_order := 0 |} (seqZ 0 (e1 + 1)))
       (seqZ 0 (e0 + 1)))) ↔
  (∃ vy ex, 0 ≤ vy ≤ e1 ∧ 0 ≤ ex < e0 ∧ horizontal_marks e0 e1 vy ex q) ∨
  (∃ vx ey, 0 ≤ vx ≤ e0 ∧ 0 ≤ ey < e1 ∧ vertical_marks e0 e1 vx ey q).
Proof.
  rewrite (foldl_marks _ (λ vx q, ∃ ey, 0 ≤ ey < e1 ∧ vertical_marks e0 e1 vx ey q)).
  - rewrite (foldl_marks _ (λ vy q, ∃ ex, 0 ≤ ex < e0 ∧ horizontal_marks e0 e1 vy ex q)).
    + simpl. rewrite dom_empty, elem_of_empty. split.
      * intros [[[]|(vy & Hvy & ex & Hex & Hm)]|(vx & Hvx & ey & Hey & Hm)].
        -- left. exists vy, ex. apply elem_of_seqZ in Hvy. split; [lia|done].
        -- right. exists vx, ey. apply elem_of_seqZ in Hvx. split; [lia|done].
      * intros [(vy & ex & Hvy & Hex & Hm)|(vx & ey & Hvx & Hey & Hm)].
        -- left. right. exists vy. split; [apply elem_of_seqZ; lia|]. by exists ex.
        -- right. exists vx. split; [apply elem_of_seqZ; lia|]. by exists ey.
    + intros b vy Hvy. apply elem_of_seqZ in Hvy.
      rewrite (foldl_marks _ (λ ex q, horizontal_marks e0 e1 vy ex q)).
      * split; (intros [?|(ex & Hex & Hm)]; [by left|right]; exists ex;
                try apply elem_of_seqZ in Hex; split; [|done]); [lia|apply elem_of_seqZ; lia].
      * intros b' ex Hex. apply elem_of_seqZ in Hex.
        apply horizontal_edge_marks; lia.
  - intros b vx Hvx. apply elem_of_seqZ in Hvx.
    rewrite (foldl_marks _ (λ ey q, vertical_marks e0 e1 vx ey q)).
    + split; (intros [?|(ey & Hey & Hm)]; [by left|right]; exists ey;
              try apply elem_of_seqZ in Hey; split; [|done]); [lia|apply elem_of_seqZ; lia].
    + intros b' ey Hey. apply elem_of_seqZ in Hey.
      apply vertical_edge_marks; lia.
Qed.

End SquareMarkers.

Lemma quotient_remainder_unique (a b a' b' n : Z) :
  0 ≤ b < n → 0 ≤ b' < n → a * n + b = a' * n + b' → a = a' ∧ b = b'.
Proof. intros Hb Hb' Heq. assert (a = a') by nia. subst. lia. Qed.

(** The markers [createSquareBoundary] sets on rank 0 for a grid with at
    least one edge each way: an edge along x is marked exactly when it lies
    in the bottom or top row, an edge along y exactly when it lies in the
    left or right column, and a vertex exactly when it lies on the border of
    the grid; the interior carries no marker. *)
Theorem createSquareBoundary_markers (e0 e1 : Z) :
  1 ≤ e0 → 1 ≤ e1 →
  square_numEdges [e0; e1] + square_numVertices [e0; e1] < 2 ^ 31 →
  let numEdges := square_numEdges [e0; e1] in
  let b := createSquareBoundary_sieve 0 [e0; e1] in
  (∀ vy ex, 0 ≤ vy ≤ e1 → 0 ≤ ex < e0 →
     is_Some (markers b !! (vy * e0 + ex)) ↔ vy = 0 ∨ vy = e1) ∧
  (∀ vx ey, 0 ≤ vx ≤ e0 → 0 ≤ ey < e1 →
     is_Some (markers b !! (vx * e1 + ey + e0 * (e1 + 1))) ↔ vx = 0 ∨ vx = e0) ∧
  (∀ vx vy, 0 ≤ vx ≤ e0 → 0 ≤ vy ≤ e1 →
     is_Some (markers b !! (numEdges + (vy * (e0 + 1) + vx))) ↔
     vx = 0 ∨ vx = e0 ∨ vy = 0 ∨ vy = e1).
Proof.
  intros He0 He1 _ numEdges b.
  assert (Hmarks : ∀ q, is_Some (markers b !! q) ↔
            (∃ vy ex, 0 ≤ vy ≤ e1 ∧ 0 ≤ ex < e0 ∧ horizontal_marks e0 e1 vy ex q) ∨
            (∃ vx ey, 0 ≤ vx ≤ e0 ∧ 0 ≤ ey < e1 ∧ vertical_marks e0 e1 vx ey q)).
  { intros q. rewrite <-elem_of_dom. unfold b, createSquareBoundary_sieve. simpl.
    apply square_loops_marks; [lia|lia|].
    apply fill_vertices_spec. unfold square_numVertices. simpl. nia. }
  assert (HnumE : numEdges = e0 * (e1 + 1) + (e0 + 1) * e1) by done.
  unfold horizontal_marks, vertical_marks in Hmarks. fold numEdges in Hmarks.
  split; [|split].
  - intros vy ex Hvy Hex. rewrite Hmarks. split.
    + intros [(vy' & ex' & Hvy' & Hex' & Hrow & Hq)|(vx' & ey' & Hvx' & Hey' & Hcol & Hq)].
      * destruct Hq as [Hq|[Hq|[_ Hq]]]; [|nia|nia].
        assert (vy = vy') by nia. lia.
      * destruct Hq as [Hq|[Hq|[_ Hq]]]; nia.
    + intros Hrow. left. exists vy, ex. tauto.
  - intros vx ey Hvx Hey. rewrite Hmarks. split.
    + intros [(vy' & ex' & Hvy' & Hex' & Hrow & Hq)|(vx' & ey' & Hvx' & Hey' & Hcol & Hq)].
      * destruct Hq as [Hq|[Hq|[_ Hq]]]; nia.
      * destruct Hq as [Hq|[Hq|[_ Hq]]]; [|nia|nia].
        assert (vx = vx') by nia. lia.
    + intros Hcol. right. exists vx, ey. tauto.
  - intros vx vy Hvx Hvy. rewrite Hmarks. split.
    + intros [(vy' & ex' & Hvy' & Hex' & Hrow & Hq)|(vx' & ey' & Hvx' & Hey' & Hcol & Hq)].
      * destruct Hq as [Hq|[Hq|[_ Hq]]]; [nia| |].
        -- assert (vy = vy') by nia. lia.
        -- assert (vy = vy') by nia. lia.
      * destruct Hq as [Hq|[Hq|[_ Hq]]]; [nia| |].
        -- destruct (quotient_remainder_unique vy vx ey' vx' (e0 + 1)); [lia|lia|lia|]. lia.
        -- destruct (quotient_remainder_unique vy vx (ey' + 1) vx' (e0 + 1)); [lia|lia|lia|].
           lia.
    + intros Hborder.
      destruct (decide (vy = 0 ∨ vy = e1)) as [Hrow|Hrow].
      * left. destruct (decide (vx = e0)) as [->|Hne].
        -- exists vy, (e0 - 1). split; [lia|]. split; [lia|]. split; [done|].
           right. right. split; [done|]. lia.
        -- exists vy, vx. split; [lia|]. split; [lia|]. split; [done|]. right. by left.
      * right. destruct (decide (vy = e1)) as [->|Hne]; [tauto|].
        exists vx, vy. split; [lia|]. split; [lia|]. split; [tauto|]. right. by left.
Qed.

Lemma createSquareBoundary_markers_witness :
  let numEdges := square_numEdges [2; 2] in
  let b := createSquareBoundary_sieve 0 [2; 2] in
  (∀ vy ex, 0 ≤ vy ≤ 2 → 0 ≤ ex < 2 →
     is_Some (markers b !! (vy * 2 + ex)) ↔ vy = 0 ∨ vy = 2) ∧
  (∀ vx ey, 0 ≤ vx ≤ 2 → 0 ≤ ey < 2 →
     is_Some (markers b !! (vx * 2 + ey + 2 * (2 + 1))) ↔ vx = 0 ∨ vx = 2) ∧
  (∀ vx vy, 0 ≤ vx ≤ 2 → 0 ≤ vy ≤ 2 →
     is_Some (markers b !! (numEdges + (vy * (2 + 1) + vx))) ↔
     vx = 0 ∨ vx = 2 ∨ vy = 0 ∨ vy = 2).
Proof.
  apply (createSquareBoundary_markers 2 2).
  - lia.
  - lia.
  - vm_compute. reflexivity.
Defined.

(** What holds after a loop of something every pass can only add to. *)
Lemma foldl_gathers {X B} (R : B → Prop) (f : B → X → B) (g : X → Prop)
    (l : list X) (b : B) :
  (∀ b x, x ∈ l → R (f b x) ↔ R b ∨ g x) →
  R (foldl f b l) ↔ R b ∨ ∃ x, x ∈ l ∧ g x.
Proof.
  revert b. induction l as [|x l IH]; intros b Hstep; simpl.
  - split; [by left|]. intros [?|(x & Hx & _)]; [done|by apply elem_of_nil in Hx].
  - rewrite IH by (intros b' x' Hx'; apply Hstep; by right).
    rewrite (Hstep b x) by left. split.
    + intros [[?|?]|(x' & Hx' & ?)]; [by left| |].
      * right. exists x. split; [left|done].
      * right. exists x'. split; [by right|done].
    + intros [?|(x' & Hx' & ?)]; [by left; left|].
      apply elem_of_cons in Hx' as [->|Hx']; [by left; right|].
      right. by exists x'.
Qed.

Lemma has_arrow_addArrow src tgt b s t :
  has_arrow (addArrow src tgt b) s t ↔ has_arrow b s t ∨ (s = src ∧ t = tgt).
Proof.
  unfold has_arrow, addArrow. simpl. split.
  - intros (a & Ha & Hs & Ht). apply elem_of_app in Ha as [Ha|Ha].
    + left. by exists a.
    + apply list_elem_of_singleton in Ha as ->. right. by simpl in *.
  - intros [(a & Ha & Hs & Ht)|[-> ->]].
    + exists a. split; [apply elem_of_app; by left|done].
    + eexists. split; [apply elem_of_app; right; by apply list_elem_of_singleton|done].
Qed.

Lemma has_arrow_setValue q b s t : has_arrow (setValue q 1 b) s t ↔ has_arrow b s t.
Proof. done. Qed.

Section SquareArrows.
Variables (e0 e1 : Z) (vertices : list Z).
Hypothesis He0 : 0 ≤ e0.
Hypothesis He1 : 0 ≤ e1.
Hypothesis Hvertices :
  ∀ i, 0 ≤ i < square_numVertices [e0; e1] →
       vertices !!! Z.to_nat i = square_numEdges [e0; e1] + i.

Lemma horizontal_edge_arrows vy ex b s t :
  0 ≤ vy ≤ e1 → 0 ≤ ex < e0 →
  has_arrow (horizontal_edge e0 e1 vertices vy ex b) s t ↔
  has_arrow b s t ∨
  (t = vy * e0 + ex ∧
   (s = square_numEdges [e0; e1] + (vy * (e0 + 1) + ex) ∨
    s = square_numEdges [e0; e1] + (vy * (e0 + 1) + ex + 1))).
Proof.
  intros Hvy Hex. unfold horizontal_edge.
  assert (Hv : 0 ≤ vy * (e0 + 1) + ex ∧
               vy * (e0 + 1) + ex + 1 < square_numVertices [e0; e1])
    by (unfold square_numVertices; simpl; nia).
  rewrite !Hvertices by lia.
  destruct (bool_decide (vy = 0 ∨ vy = e1)); [destruct (bool_decide (ex = e0 - 1))|];
    rewrite ?has_arrow_setValue, !has_arrow_addArrow;
    replace (vy * (e0 + 1) + ex + 0) with (vy * (e0 + 1) + ex) by lia; tauto.
Qed.

Lemma vertical_edge_arrows vx ey b s t :
  0 ≤ vx ≤ e0 → 0 ≤ ey < e1 →
  has_arrow (vertical_edge e0 e1 vertices vx ey b) s t ↔
  has_arrow b s t ∨
  (t = vx * e1 + ey + e0 * (e1 + 1) ∧
   (s = square_numEdges [e0; e1] + (ey * (e0 + 1) + vx) ∨
    s = square_numEdges [e0; e1] + (ey * (e0 + 1) + vx + e0 + 1))).
Proof.
  intros Hvx Hey. unfold vertical_edge.
  assert (Hv : 0 ≤ ey * (e0 + 1) + vx ∧
               ey * (e0 + 1) + vx + e0 + 1 < square_numVertices [e0; e1])
    by (unfold square_numVertices; simpl; nia).
  rewrite !Hvertices by lia.
  destruct (bool_decide (vx = 0 ∨ vx = e0)); [destruct (bool_decide (ey = e1 - 1))|];
    rewrite ?has_arrow_setValue, !has_arrow_addArrow; tauto.
Qed.

(** The arrows when the loops are done. *)
Lemma square_loops_arrows s t :
  has_arrow
    (foldl (λ b vx, foldl (λ b ey, vertical_edge e0 e1 vertices vx ey b) b (seqZ 0 e1))
       (foldl (λ b vy, foldl (λ b ex, horizontal_edge e0 e1 vertices vy ex b) b (seqZ 0 e0))
          {| arrows := []; markers := ∅; next_order := 0 |} (seqZ 0 (e1 + 1)))
       (seqZ 0 (e0 + 1))) s t ↔
  (∃ vy ex, 0 ≤ vy ≤ e1 ∧ 0 ≤ ex < e0 ∧ t = vy * e0 + ex ∧
     (s = square_numEdges [e0; e1] + (vy * (e0 + 1) + ex) ∨
      s = square_numEdges [e0; e1] + (vy * (e0 + 1) + ex + 1))) ∨
  (∃ vx ey, 0 ≤ vx ≤ e0 ∧ 0 ≤ ey < e1 ∧ t = vx * e1 + ey + e0 * (e1 + 1) ∧
     (s = square_numEdges [e0; e1] + (ey * (e0 + 1) + vx) ∨
      s = square_numEdges [e0; e1] + (ey * (e0 + 1) + vx + e0 + 1))).
Proof.
  rewrite (foldl_gathers (λ b, has_arrow b s t) _
             (λ vx, ∃ ey, 0 ≤ ey < e1 ∧ t = vx * e1 + ey + e0 * (e1 + 1) ∧
                (s = square_numEdges [e0; e1] + (ey * (e0 + 1) + vx) ∨
                 s = square_numEdges [e0; e1] + (ey * (e0 + 1) + vx + e0 + 1)))).
  - rewrite (foldl_gathers (λ b, has_arrow b s t) _
               (λ vy, ∃ ex, 0 ≤ ex < e0 ∧ t = vy * e0 + ex ∧
                  (s = square_numEdges [e0; e1] + (vy * (e0 + 1) + ex) ∨
                   s = square_numEdges [e0; e1] + (vy * (e0 + 1) + ex + 1)))).
    + split.
      * intros [[(a & Ha & _)|(vy & Hvy & ex & Hex & Hm)]|(vx & Hvx & ey & Hey & Hm)].
        -- by apply elem_of_nil in Ha.
        -- left. exists vy, ex. apply elem_of_seqZ in Hvy. split; [lia|done].
        -- right. exists vx, ey. apply elem_of_seqZ in Hvx. split; [lia|done].
      * intros [(vy & ex & Hvy & Hex & Hm)|(vx & ey & Hvx & Hey & Hm)].
        -- left. right. exists vy. split; [apply elem_of_seqZ; lia|]. by exists ex.
        -- right. exists vx. split; [apply elem_of_seqZ; lia|]. by exists ey.
    + intros b vy Hvy. apply elem_of_seqZ in Hvy.
      rewrite (foldl_gathers (λ b, has_arrow b s t) _
                 (λ ex, t = vy * e0 + ex ∧
                    (s = square_numEdges [e0; e1] + (vy * (e0 + 1) + ex) ∨
                     s = square_numEdges [e0; e1] + (vy * (e0 + 1) + ex + 1)))).
      * split; (intros [?|(ex & Hex & Hm)]; [by left|right]; exists ex;
                try apply elem_of_seqZ in Hex; split; [|done]); [lia|apply elem_of_seqZ; lia].
      * intros b' ex Hex. apply elem_of_seqZ in Hex.
        apply horizontal_edge_arrows; lia.
  - intros b vx Hvx. apply elem_of_seqZ in Hvx.
    rewrite (foldl_gathers (λ b, has_arrow b s t) _
               (λ ey, t = vx * e1 + ey + e0 * (e1 + 1) ∧
                  (s = square_numEdges [e0; e1] + (ey * (e0 + 1) + vx) ∨
                   s = square_numEdges [e0; e1] + (ey * (e0 + 1) + vx + e0 + 1)))).
    + split; (intros [?|(ey & Hey & Hm)]; [by left|right]; exists ey;
              try apply elem_of_seqZ in Hey; split; [|done]); [lia|apply elem_of_seqZ; lia].
    + intros b' ey Hey. apply elem_of_seqZ in Hey.
      apply vertical_edge_arrows; lia.
Qed.

End SquareArrows.

(** The edges [createSquareBoundary] builds on rank 0 join neighbours of the
    grid: the vertices with an arrow into the edge [ex] of row [vy] are the
    vertices [ex] and [ex + 1] of that row, and those with an arrow into the
    edge [ey] of column [vx] are the vertices of that column in the rows [ey]
    and [ey + 1]. *)
Theorem createSquareBoundary_cones (e0 e1 : Z) :
  0 ≤ e0 → 0 ≤ e1 →
  square_numEdges [e0; e1] + square_numVertices [e0; e1] < 2 ^ 31 →
  let numEdges := square_numEdges [e0; e1] in
  let b := createSquareBoundary_sieve 0 [e0; e1] in
  (∀ vy ex s, 0 ≤ vy ≤ e1 → 0 ≤ ex < e0 →
     has_arrow b s (vy * e0 + ex) ↔
     s = numEdges + (vy * (e0 + 1) + ex) ∨ s = numEdges + (vy * (e0 + 1) + (ex + 1))) ∧
  (∀ vx ey s, 0 ≤ vx ≤ e0 → 0 ≤ ey < e1 →
     has_arrow b s (vx * e1 + ey + e0 * (e1 + 1)) ↔
     s = numEdges + (ey * (e0 + 1) + vx) ∨ s = numEdges + ((ey + 1) * (e0 + 1) + vx)).
Proof.
  intros He0 He1 _ numEdges b.
  assert (Harrows : ∀ s t, has_arrow b s t ↔
    (∃ vy ex, 0 ≤ vy ≤ e1 ∧ 0 ≤ ex < e0 ∧ t = vy * e0 + ex ∧
       (s = numEdges + (vy * (e0 + 1) + ex) ∨ s = numEdges + (vy * (e0 + 1) + ex + 1))) ∨
    (∃ vx ey, 0 ≤ vx ≤ e0 ∧ 0 ≤ ey < e1 ∧ t = vx * e1 + ey + e0 * (e1 + 1) ∧
       (s = numEdges + (ey * (e0 + 1) + vx) ∨
        s = numEdges + (ey * (e0 + 1) + vx + e0 + 1)))).
  { intros s t. unfold b, createSquareBoundary_sieve. simpl.
    apply square_loops_arrows; [lia|lia|].
    apply fill_vertices_spec. unfold square_numVertices. simpl. nia. }
  split.
  - intros vy ex s Hvy Hex. rewrite Harrows. split.
    + intros [(vy' & ex' & Hvy' & Hex' & Ht & Hs)|(vx' & ey' & Hvx' & Hey' & Ht & Hs)].
      * destruct (quotient_remainder_unique vy ex vy' ex' e0) as [-> ->]; [lia|lia|lia|].
        lia.
      * nia.
    + intros Hs. left. exists vy, ex. split; [lia|]. split; [lia|]. split; [done|]. lia.
  - intros vx ey s Hvx Hey. rewrite Harrows. split.
    + intros [(vy' & ex' & Hvy' & Hex' & Ht & Hs)|(vx' & ey' & Hvx' & Hey' & Ht & Hs)].
      * nia.
      * destruct (quotient_remainder_unique vx ey vx' ey' e1) as [-> ->]; [lia|lia|lia|].
        lia.
    + intros Hs. right. exists vx, ey. split; [lia|]. split; [lia|]. split; [done|]. lia.
Qed.

Lemma createSquareBoundary_cones_witness :
  let numEdges := square_numEdges [2; 2] in
  let b := createSquareBoundary_sieve 0 [2; 2] in
  (∀ vy ex s, 0 ≤ vy ≤ 2 → 0 ≤ ex < 2 →
     has_arrow b s (vy * 2 + ex) ↔
     s = numEdges + (vy * (2 + 1) + ex) ∨ s = numEdges + (vy * (2 + 1) + (ex + 1))) ∧
  (∀ vx ey s, 0 ≤ vx ≤ 2 → 0 ≤ ey < 2 →
     has_arrow b s (vx * 2 + ey + 2 * (2 + 1)) ↔
     s = numEdges + (ey * (2 + 1) + vx) ∨ s = numEdges + ((ey + 1) * (2 + 1) + vx)).
Proof.
  apply (createSquareBoundary_cones 2 2).
  - lia.
  - lia.
  - vm_compute. reflexivity.
Defined.

(** ** The cube boundary *)

(** The coordinate array [createCubeBoundary] fills for a cube of 8
    vertices ([faces = {1, 1, 1}], 24 entries): the three values of a vertex
    are written two entries apart, so the third value of each vertex but the
    last is overwritten by the first value of the next one.  The array ends
    up holding the x and y of the eight vertices in its first 16 entries and
    [lower[2]] in the 17th, its last 7 entries are never written, and
    [upper[2]] is nowhere in it. *)
Theorem createCubeBoundary_coords_overlap (lower upper coords : list float) :
  Z.of_nat (length coords) = cube_numVertices [1; 1; 1] * 3 →
  createCubeBoundary_coords lower upper coords =
    [lower !!! 0%nat; lower !!! 1%nat; upper !!! 0%nat; lower !!! 1%nat;
     upper !!! 0%nat; upper !!! 1%nat; lower !!! 0%nat; upper !!! 1%nat;
     upper !!! 0%nat; lower !!! 1%nat; lower !!! 0%nat; lower !!! 1%nat;
     lower !!! 0%nat; upper !!! 1%nat; upper !!! 0%nat; upper !!! 1%nat;
     lower !!! 2%nat] ++ drop 17 coords ∧
  ∀ z, createCubeBoundary_coords lower (<[2%nat := z]> upper) coords =
       createCubeBoundary_coords lower upper coords.
Proof.
  intros Hlen. change (cube_numVertices [1; 1; 1] * 3) with 24 in Hlen.
  assert (Hclosed : ∀ up,
    createCubeBoundary_coords lower up coords =
      [lower !!! 0%nat; lower !!! 1%nat; up !!! 0%nat; lower !!! 1%nat;
       up !!! 0%nat; up !!! 1%nat; lower !!! 0%nat; up !!! 1%nat;
       up !!! 0%nat; lower !!! 1%nat; lower !!! 0%nat; lower !!! 1%nat;
       lower !!! 0%nat; up !!! 1%nat; up !!! 0%nat; up !!! 1%nat;
       lower !!! 2%nat] ++ drop 17 coords).
  { intros up. do 24 (destruct coords as [|? coords]; simpl in Hlen; try lia).
    reflexivity. }
  split; [apply Hclosed|]. intros z. rewrite !Hclosed.
  destruct upper as [|u0 [|u1 [|u2 upper]]]; reflexivity.
Qed.

Lemma createCubeBoundary_coords_overlap_witness :
  let lower := [0.0; 0.0; 0.0]%float in
  let upper := [1.0; 1.0; 1.0]%float in
  let coords := replicate 24 0.0%float in
  createCubeBoundary_coords lower upper coords =
    [lower !!! 0%nat; lower !!! 1%nat; upper !!! 0%nat; lower !!! 1%nat;
     upper !!! 0%nat; upper !!! 1%nat; lower !!! 0%nat; upper !!! 1%nat;
     upper !!! 0%nat; lower !!! 1%nat; lower !!! 0%nat; lower !!! 1%nat;
     lower !!! 0%nat; upper !!! 1%nat; upper !!! 0%nat; upper !!! 1%nat;
     lower !!! 2%nat] ++ drop 17 coords ∧
  ∀ z, createCubeBoundary_coords lower (<[2%nat := z]> upper) coords =
       createCubeBoundary_coords lower upper coords.
Proof.
  intros lower upper coords.
  apply (createCubeBoundary_coords_overlap lower upper coords). reflexivity.
Defined.
